(** * DVID labels64: label-indexed sparse volumes, surfaces and sizes

    A shallow embedding of the functions of package [labels64] that group a
    label-ordered chunk stream ([ComputeSurface], [ComputeSizes]) and that
    answer queries from the stores ([GetSurface], [GetSparseVol],
    [GetSizeRange]), followed by the properties of these functions.

    Channels are lists of received values ([None] is the nil chunk), the
    stores are ordered key-value lists, and every observable action of a
    function (a log line, a batch put, a commit, a WaitGroup signal) is
    recorded in the world it runs in.

    The writer of the spatial index ([StoreKeyLabelSpatialMap]) and the
    logging, timing and image helpers of package [dvid] (utils.go) follow
    the same pattern. *)

From Stdlib Require Import ZArith List Bool Lia Ascii String Sorted Permutation DecimalString DecimalPos DecimalN.
From coqutil Require Import Byte Word.LittleEndianList.
Import ListNotations.
Local Open Scope Z_scope.

(* ================================================================== *)
(** ** Package dvid: machine integers, byte slices, the RLE codec      *)
(* ================================================================== *)

Module dvid.

Definition bytes := list byte.

(** [len(b)] of a slice, as a Go [int]. *)
Definition len {A} (l : list A) : Z := Z.of_nat (List.length l).

(** Conversions to the fixed-width integer types of the code. *)
Definition uint64 (z : Z) : Z := z mod 2 ^ 64.
Definition uint32 (z : Z) : Z := z mod 2 ^ 32.
Definition int32 (z : Z) : Z := (z + 2 ^ 31) mod 2 ^ 32 - 2 ^ 31.
Definition int (z : Z) : Z := (z + 2 ^ 63) mod 2 ^ 64 - 2 ^ 63.

(** [math.MaxUint64] *)
Definition MaxUint64 : Z := 2 ^ 64 - 1.

(** Modelled from the spec: the constant [dvid.EncodingBinary] is declared
  outside the files at hand; the payload descriptor is a byte of flags
  for auxiliary payload kinds, none of which is set by default. *)
Definition EncodingBinary : byte := byte.of_Z 0.

(** Modelled from the spec: [dvid.EmptyValue()] is declared outside the
  files at hand; the value of a size-index entry is an empty marker. *)
Definition EmptyValue : bytes := [].

(** Modelled from the spec: the type [dvid.RLE] is declared outside the
  files at hand; a run is a start coordinate, one signed 32-bit integer
  per axis (three axes), and a 32-bit length. *)
Record RLE := mkRLE { start : Z * Z * Z; runLength : Z }.

Definition RLEs := list RLE.

(** A little-endian signed 32-bit integer read at the head of [b]. *)
Definition getInt32 (b : bytes) : Z := int32 (le_combine (firstn 4 b)).

Definition decodeRun (b : bytes) : RLE :=
  {| start := (getInt32 b, getInt32 (skipn 4 b), getInt32 (skipn 8 b));
     runLength := getInt32 (skipn 12 b) |}.

Fixpoint decodeRuns (n : nat) (b : bytes) : RLEs :=
  match n with
  | O => []
  | S n' => decodeRun (firstn 16 b) :: decodeRuns n' (skipn 16 b)
  end.

(** Modelled from the spec: [RLEs.UnmarshalBinary] is declared outside the
  files at hand; a run record is 16 bytes and decoding fails with a
  format error when the buffer is not a whole number of records. *)
Definition UnmarshalBinary (b : bytes) : option RLEs :=
  if Z.rem (len b) 16 =? 0
  then Some (decodeRuns (Z.to_nat (Z.quot (len b) 16)) b)
  else None.

(** Modelled from the spec: [RLEs.Stats] is declared outside the files at
  hand; it returns the total voxel count, the sum of the run lengths,
  and the run count. *)
Definition Stats (rles : RLEs) : Z * Z :=
  (fold_left (fun acc r => acc + runLength r) rles 0, len rles).

(** Modelled from the spec: [dvid.SparseVol] is declared outside the files
  at hand; the accumulator holds the current label and a growing sparse
  volume into which each chunk's runs are merged, and a chunk that does
  not decode is an error. *)
Record SparseVol := mkSparseVol { Label : Z; rles : RLEs }.

Definition zeroSparseVol : SparseVol := {| Label := 0; rles := [] |}.

Definition Clear (vol : SparseVol) : SparseVol := zeroSparseVol.

Definition SetLabel (label : Z) (vol : SparseVol) : SparseVol :=
  {| Label := label; rles := rles vol |}.

Definition AddRLEs (vol : SparseVol) (encoding : bytes) : option SparseVol :=
  match UnmarshalBinary encoding with
  | None => None
  | Some r => Some {| Label := Label vol; rles := rles vol ++ r |}
  end.

End dvid.

Import dvid.

(* ================================================================== *)
(** ** Package storage: ordered key-value stores and the world         *)
(* ================================================================== *)

Module storage.

Definition Key := bytes.

(** [bytes.Compare]: the order of the keys of an ordered store. *)
Fixpoint compare (a b : Key) : comparison :=
  match a, b with
  | [], [] => Eq
  | [], _ :: _ => Lt
  | _ :: _, [] => Gt
  | x :: a', y :: b' =>
      match byte.compare x y with
      | Eq => compare a' b'
      | c => c
      end
  end.

Definition leb (a b : Key) : bool :=
  match compare a b with Gt => false | _ => true end.

Definition lt (a b : Key) : Prop := compare a b = Lt.

(** The contents of a store: pairs in ascending key order. *)
Definition KV := list (Key * bytes).

Fixpoint kvPut (k : Key) (v : bytes) (s : KV) : KV :=
  match s with
  | [] => [(k, v)]
  | (k', v') :: s' =>
      match compare k k' with
      | Lt => (k, v) :: s
      | Eq => (k, v) :: s'
      | Gt => (k', v') :: kvPut k v s'
      end
  end.

Fixpoint kvGet (k : Key) (s : KV) : option bytes :=
  match s with
  | [] => None
  | (k', v') :: s' =>
      match compare k k' with
      | Eq => Some v'
      | _ => kvGet k s'
      end
  end.

Definition inRange (first last k : Key) : bool := leb first k && leb k last.

Definition kvRange (first last : Key) (s : KV) : KV :=
  filter (fun kv => inRange first last (fst kv)) s.

(** A chunk received by a consumer: [Op] is the label carried by
  [chunk.ChunkOp.Op], [V] the value of the key-value pair. *)
Record Chunk := mkChunk { Op : Z; V : bytes }.

Inductive error :=
| ErrUnavailable   (* the requested store is not configured *)
| ErrStore         (* a read, write, scan or commit of the store failed *)
| ErrSurface       (* the surface could not be computed *)
| ErrCodec         (* serialization or deserialization failed *)
| ErrBadKey.       (* a key of the size index could not be decoded *)

Inductive Event :=
| EvInfo (msg : string)                 (* dvid.Infof *)
| EvCritical (msg : string)             (* dvid.Criticalf *)
| EvDebug (numBlocks numRuns : Z)       (* dvid.Debugf of GetSparseVol *)
| EvSurface (vol : SparseVol)           (* computeAndSaveSurface entered *)
| EvPut (k : Key) (v : bytes)           (* store.Put on the big-data store *)
| EvBatchPut (k : Key) (v : bytes)      (* batch.Put *)
| EvCommit (ok : bool)                  (* batch.Commit and its outcome *)
| EvNewBatch                            (* batcher.NewBatch after a commit *)
| EvWgDone                              (* wg.Done() *)
| EvToken.                              (* server.HandlerToken <- 1 *)

(** The world a function runs in.  [faults] is the outcome of the coming
  fallible store operations, one per operation, [true] for a failure;
  past the end of the list every operation succeeds.  [trace] holds the
  events so far, the most recent first. *)
Record World := mkWorld {
  bigdata : option KV;       (* None: storage.BigDataStore() fails *)
  smalldata : option KV;     (* None: storage.SmallDataStore() fails *)
  batching : bool;           (* the small-data store is a KeyValueBatcher *)
  faults : list bool;
  trace : list Event
}.

Definition emit (e : Event) (w : World) : World :=
  {| bigdata := bigdata w; smalldata := smalldata w; batching := batching w;
     faults := faults w; trace := e :: trace w |}.

(** The events of a world in the order they happened. *)
Definition events (w : World) : list Event := rev (trace w).

Definition nextFault (w : World) : bool * World :=
  match faults w with
  | [] => (false, w)
  | f :: fs =>
      (f, {| bigdata := bigdata w; smalldata := smalldata w;
             batching := batching w; faults := fs; trace := trace w |})
  end.

Definition setBig (s : KV) (w : World) : World :=
  {| bigdata := Some s; smalldata := smalldata w; batching := batching w;
     faults := faults w; trace := trace w |}.

Definition setSmall (s : KV) (w : World) : World :=
  {| bigdata := bigdata w; smalldata := Some s; batching := batching w;
     faults := faults w; trace := trace w |}.

(** [store.Get(ctx, key)] on the big-data store [s]. *)
Definition Get (s : KV) (k : Key) (w : World) : option bytes * option error * World :=
  let (f, w1) := nextFault w in
  if f then (None, Some ErrStore, w1) else (kvGet k s, None, w1).

(** [store.Put(ctx, key, value)] on the big-data store [s]. *)
Definition Put (s : KV) (k : Key) (v : bytes) (w : World) : option error * World :=
  let (f, w1) := nextFault w in
  if f then (Some ErrStore, w1)
  else (None, emit (EvPut k v) (setBig (kvPut k v s) w1)).

(** A write batch: the buffered puts, the most recent first. *)
Definition Batch := list (Key * bytes).

Definition NewBatch : Batch := [].

Definition BatchPut (k : Key) (v : bytes) (b : Batch) (w : World) : Batch * World :=
  ((k, v) :: b, emit (EvBatchPut k v) w).

Definition applyBatch (b : Batch) (s : KV) : KV :=
  fold_left (fun s kv => kvPut (fst kv) (snd kv) s) (rev b) s.

(** [batch.Commit()]: all the buffered puts reach the small-data store, or
  none does. *)
Definition Commit (b : Batch) (w : World) : option error * World :=
  let (f, w1) := nextFault w in
  if f then (Some ErrStore, emit (EvCommit false) w1)
  else
    match smalldata w1 with
    | None => (Some ErrUnavailable, emit (EvCommit false) w1)
    | Some s => (None, emit (EvCommit true) (setSmall (applyBatch b s) w1))
    end.

(** [store.KeysInRange(ctx, first, last)]: the keys between [first] and
  [last], both included, in ascending order. *)
Definition KeysInRange (s : KV) (first last : Key) (w : World)
  : list Key * option error * World :=
  let (f, w1) := nextFault w in
  if f then ([], Some ErrStore, w1)
  else (map fst (kvRange first last s), None, w1).

(** [store.ProcessRange(ctx, first, last, op, f)]: [f] is applied to the
  value of every pair between [first] and [last], in ascending order of
  the keys. *)
Definition ProcessRange {Op : Type} (s : KV) (first last : Key)
    (op : Op) (f : Op -> bytes -> Op) (w : World) : Op * option error * World :=
  let (flt, w1) := nextFault w in
  if flt then (op, Some ErrStore, w1)
  else (fold_left f (map snd (kvRange first last s)) op, None, w1).

End storage.

Import storage.

(* ================================================================== *)
(** ** Collaborators declared outside the files at hand                *)
(* ================================================================== *)

(** The key-type tags of package [voxels], the bounds of the block
  coordinates, the surface extraction of a sparse volume (at the block
  size and the voxel size of the data instance) and the compression codec
  are taken as they come: every property below holds for all of them. *)
Class Collaborators := {
KeyLabelSpatialMap : byte;
KeyLabelSurface : byte;
KeyLabelSizes : byte;
MinIndexZYX : bytes;
MaxIndexZYX : bytes;
SurfaceSerialization : SparseVol -> option bytes;
SerializeData : bytes -> option bytes;
DeserializeData : bytes -> bool -> option bytes
}.

(* ================================================================== *)
(** ** Package voxels: the keys of the label indices                   *)
(* ================================================================== *)

Module voxels.
Section Keys.
Context {C : Collaborators}.

(** [binary.BigEndian.PutUint64] and [binary.BigEndian.Uint64]. *)
Definition PutUint64 (z : Z) : bytes := rev (le_split 8 z).
Definition Uint64 (b : bytes) : Z := le_combine (rev (firstn 8 b)).

(** The key written by [StoreKeyLabelSpatialMap]: the tag, the label
  (big-endian), the block coordinate. *)
Definition NewLabelSpatialMapIndex (label : Z) (zyx : bytes) : Key :=
  KeyLabelSpatialMap :: PutUint64 label ++ zyx.

(** Modelled from the spec: [voxels.NewLabelSurfaceIndex] is declared
  outside the files at hand; a surface blob key is the tag followed by
  the label, big-endian. *)
Definition NewLabelSurfaceIndex (label : Z) : Key :=
  KeyLabelSurface :: PutUint64 label.

(** Modelled from the spec: [voxels.NewLabelSizesIndex] is declared
  outside the files at hand; a size index key is the tag, the voxel
  count and the label, both big-endian on 8 bytes. *)
Definition NewLabelSizesIndex (size label : Z) : Key :=
  KeyLabelSizes :: PutUint64 size ++ PutUint64 label.

(** Modelled from the spec: [voxels.LabelFromLabelSizesKey] is declared
  outside the files at hand; it decodes a size index key back to its
  label, and a key that has not the layout of a size index key is a
  structural error. *)
Definition LabelFromLabelSizesKey (key : Key) : option Z :=
  if (len key =? 17) then Some (Uint64 (skipn 9 key)) else None.

End Keys.
End voxels.

Import voxels.

(* ================================================================== *)
(** ** Package labels64                                                *)
(* ================================================================== *)

Module labels64.

(** How a consumer left its loop.  [Blocked]: the channel ran dry before
  a nil chunk arrived, the consumer waits on the receive for ever and
  its deferred calls never run. *)
Inductive Exit :=
| AtSentinel       (* the nil chunk was received *)
| SurfaceFailed    (* computeAndSaveSurface returned an error *)
| AddFailed        (* curVol.AddRLEs returned an error *)
| DecodeFailed     (* rles.UnmarshalBinary returned an error *)
| CommitFailed     (* an intermediate batch.Commit returned an error *)
| NoBatcher        (* the small-data store cannot do batching *)
| Blocked.

Inductive Outcome (S : Type) :=
| Continue (st : S) (w : World)
| Return (e : Exit) (w : World).
Arguments Continue {S} st w.
Arguments Return {S} e w.

(** The local variables of the loop of [ComputeSurface]. *)
Module Surface.
Record State := mkState { curVol : SparseVol; curLabel : Z; notFirst : bool }.
Definition init : State :=
    {| curVol := zeroSparseVol; curLabel := 0; notFirst := false |}.
End Surface.

(** The local variables of the loop of [ComputeSizes]. *)
Module Sizes.
Record State := mkState {
    batch : Batch; curLabel : Z; curSize : Z; putsInBatch : Z; notFirst : bool
  }.
Definition init : State :=
    {| batch := NewBatch; curLabel := 0; curSize := 0; putsInBatch := 0;
       notFirst := false |}.
End Sizes.

Definition BATCH_SIZE : Z := 10000.

(** The accumulator of the range scan of [GetSparseVol]. *)
Record sparseOp := mkSparseOp { encoding : bytes; numBlocks : Z; numRuns : Z }.

(** [binary.LittleEndian.PutUint32(b[off:off+4], v)] *)
Definition PutUint32At (off : nat) (v : Z) (b : bytes) : bytes :=
  firstn off b ++ le_split 4 v ++ skipn (off + 4) b.

(** [json.Marshal] of a [[]uint64]. *)
Definition decimal (z : Z) : string := NilZero.string_of_uint (N.to_uint (Z.to_N z)).

Fixpoint joinComma (l : list string) : string :=
  match l with
  | [] => EmptyString
  | [x] => x
  | x :: l' => (x ++ "," ++ joinComma l')%string
  end.

Definition jsonMarshal (labels : list Z) : string :=
  ("[" ++ joinComma (map decimal labels) ++ "]")%string.

(** [labels[i], err = voxels.LabelFromLabelSizesKey(key)] over the keys. *)
Fixpoint labelsFromKeys {C : Collaborators} (keys : list Key) : option (list Z) :=
  match keys with
  | [] => Some []
  | key :: keys' =>
      match LabelFromLabelSizesKey key with
      | None => None
      | Some label =>
          match labelsFromKeys keys' with
          | None => None
          | Some labels => Some (label :: labels)
          end
      end
  end.

Section Functions.
Context {C : Collaborators}.

Definition info (msg : string) (w : World) : World := emit (EvInfo msg) w.

Definition computeAndSaveSurface (w : World) (vol : SparseVol) : option error * World :=
  let w := emit (EvSurface vol) w in
  match SurfaceSerialization vol with
  | None => (Some ErrSurface, w)
  | Some surfaceBytes =>
      match bigdata w with
      | None => (Some ErrUnavailable, w)
      | Some store =>
          match SerializeData surfaceBytes with
          | None => (Some ErrCodec, w)
          | Some serialization =>
              let key := NewLabelSurfaceIndex (Label vol) in
              Put store key serialization w
          end
      end
  end.

(** One turn of the loop of [ComputeSurface] on the received value. *)
Definition ComputeSurface_body (st : Surface.State) (w : World)
    (chunk : option Chunk) : Outcome Surface.State :=
  match chunk with
  | None =>
      if Surface.notFirst st then
        match computeAndSaveSurface w (Surface.curVol st) with
        | (Some _, w') =>
            Return SurfaceFailed (info "Error on computing surface and normals" w')
        | (None, w') => Return AtSentinel w'
        end
      else Return AtSentinel w
  | Some chunk =>
      let label := Op chunk in
      let boundary :=
        if negb (label =? Surface.curLabel st) || (label =? 0) then
          match (if Surface.notFirst st
                 then computeAndSaveSurface w (Surface.curVol st)
                 else (None, w)) with
          | (Some _, w') =>
              inr (info "Error on computing surface and normals" w')
          | (None, w') =>
              inl (SetLabel label (Clear (Surface.curVol st)), w')
          end
        else inl (Surface.curVol st, w) in
      match boundary with
      | inr w' => Return SurfaceFailed w'
      | inl (vol, w') =>
          match AddRLEs vol (V chunk) with
          | None => Return AddFailed (info "Error adding RLE for label" w')
          | Some vol' =>
              Continue {| Surface.curVol := vol'; Surface.curLabel := label;
                          Surface.notFirst := true |} w'
          end
      end
  end.

Fixpoint ComputeSurface_loop (st : Surface.State) (w : World)
    (ch : list (option Chunk)) : Exit * World :=
  match ch with
  | [] => (Blocked, w)
  | chunk :: ch' =>
      match ComputeSurface_body st w chunk with
      | Continue st' w' => ComputeSurface_loop st' w' ch'
      | Return e w' => (e, w')
      end
  end.

(** [ComputeSurface]: the loop, then the deferred [wg.Done()] and
  [server.HandlerToken <- 1] once the function returns. *)
Definition ComputeSurface (w : World) (ch : list (option Chunk)) : Exit * World :=
  match ComputeSurface_loop Surface.init w ch with
  | (Blocked, w') => (Blocked, w')
  | (e, w') => (e, emit EvToken (emit EvWgDone w'))
  end.

Definition GetSurface (w : World) (label : Z)
  : option bytes * bool * option error * World :=
  match bigdata w with
  | None => (None, false, Some ErrUnavailable, w)
  | Some store =>
      match Get store (NewLabelSurfaceIndex label) w with
      | (_, Some _, w') => (None, false, Some ErrStore, w')
      | (None, None, w') => (Some [], false, None, w')
      | (Some data, None, w') =>
          let uncompress := false in
          match DeserializeData data uncompress with
          | None => (None, false, Some ErrCodec, w')
          | Some surfaceBytes => (Some surfaceBytes, true, None, w')
          end
      end
  end.

(** The function given to [ProcessRange] by [GetSparseVol]. *)
Definition sparseVolChunk (op : sparseOp) (v : bytes) : sparseOp :=
  {| numBlocks := uint32 (numBlocks op + 1);
     encoding := encoding op ++ v;
     numRuns := uint32 (numRuns op + uint32 (Z.quot (len v) 16)) |}.

(** The sparse volume header written before the scan. *)
Definition sparseVolHeader : bytes :=
  [EncodingBinary] ++ le_split 1 3 ++ le_split 1 0 ++ [byte.of_Z 0]
    ++ le_split 4 0 ++ le_split 4 0.

Definition GetSparseVol (w : World) (label : Z) : option bytes * option error * World :=
  match smalldata w with
  | None => (None, Some ErrUnavailable, w)
  | Some store =>
      let buf := sparseVolHeader in
      let begIndex := NewLabelSpatialMapIndex label MinIndexZYX in
      let endIndex := NewLabelSpatialMapIndex label MaxIndexZYX in
      let op := {| encoding := buf; numBlocks := 0; numRuns := 0 |} in
      match ProcessRange store begIndex endIndex op sparseVolChunk w with
      | (_, Some err, w') => (None, Some err, w')
      | (op, None, w') =>
          let enc := PutUint32At 8 (numRuns op) (encoding op) in
          (Some enc, None, emit (EvDebug (numBlocks op) (numRuns op)) w')
      end
  end.

(** One turn of the loop of [ComputeSizes] on the received value. *)
Definition ComputeSizes_body (st : Sizes.State) (w : World)
    (chunk : option Chunk) : Outcome Sizes.State :=
  match chunk with
  | None =>
      let key := NewLabelSizesIndex (Sizes.curSize st) (Sizes.curLabel st) in
      let (batch, w1) := BatchPut key EmptyValue (Sizes.batch st) w in
      match Commit batch w1 with
      | (Some _, w') => Return AtSentinel (info "Error on batch PUT of label sizes" w')
      | (None, w') => Return AtSentinel w'
      end
  | Some chunk =>
      let label := Op chunk in
      match UnmarshalBinary (V chunk) with
      | None => Return DecodeFailed (info "Error deserializing RLEs" w)
      | Some rles =>
          let numVoxels := fst (Stats rles) in
          let next batch curSize putsInBatch w :=
            Continue {| Sizes.batch := batch; Sizes.curLabel := label;
                        Sizes.curSize := uint64 (curSize + uint64 numVoxels);
                        Sizes.putsInBatch := putsInBatch;
                        Sizes.notFirst := true |} w in
          if Sizes.notFirst st && negb (label =? Sizes.curLabel st) then
            let key := NewLabelSizesIndex (Sizes.curSize st) (Sizes.curLabel st) in
            let curSize := 0 in
            let (batch, w1) := BatchPut key EmptyValue (Sizes.batch st) w in
            let putsInBatch := int (Sizes.putsInBatch st + 1) in
            if Z.rem putsInBatch BATCH_SIZE =? 0 then
              match Commit batch w1 with
              | (Some _, w') =>
                  Return CommitFailed (info "Error on batch PUT of label sizes" w')
              | (None, w') => next NewBatch curSize putsInBatch (emit EvNewBatch w')
              end
            else next batch curSize putsInBatch w1
          else next (Sizes.batch st) (Sizes.curSize st) (Sizes.putsInBatch st) w
      end
  end.

Fixpoint ComputeSizes_loop (st : Sizes.State) (w : World)
    (sizeCh : list (option Chunk)) : Exit * World :=
  match sizeCh with
  | [] => (Blocked, w)
  | chunk :: sizeCh' =>
      match ComputeSizes_body st w chunk with
      | Continue st' w' => ComputeSizes_loop st' w' sizeCh'
      | Return e w' => (e, w')
      end
  end.

(** [ComputeSizes]: without a batcher the function returns before the
  deferred [wg.Done()] is set up; otherwise the loop, then [wg.Done()]
  once the function returns. *)
Definition ComputeSizes (w : World) (sizeCh : list (option Chunk)) : Exit * World :=
  if batching w then
    match ComputeSizes_loop Sizes.init w sizeCh with
    | (Blocked, w') => (Blocked, w')
    | (e, w') => (e, emit EvWgDone w')
    end
  else
    (NoBatcher,
     emit (EvCritical "Unable to compute label sizes: small data store can't do batching!") w).

(** [GetSizeRange].  [json.Marshal] does not fail on a [[]uint64], so the
  branch that returns the empty object after a marshalling error is never
  taken. *)
Definition GetSizeRange (w : World) (minSize maxSize : Z)
  : string * option error * World :=
  match smalldata w with
  | None => ("{}"%string, Some ErrUnavailable, w)
  | Some store =>
      let firstKey := NewLabelSizesIndex minSize 0 in
      let upperBound := if negb (maxSize =? 0) then maxSize else MaxUint64 in
      let lastKey := NewLabelSizesIndex upperBound MaxUint64 in
      match KeysInRange store firstKey lastKey w with
      | (_, Some err, w') => ("{}"%string, Some err, w')
      | (keys, None, w') =>
          match labelsFromKeys keys with
          | None => ("{}"%string, Some ErrBadKey, w')
          | Some labels => (jsonMarshal labels, None, w')
          end
      end
  end.

End Functions.
End labels64.

Import labels64.

(* ================================================================== *)
(** ** What a run leaves behind                                        *)
(* ================================================================== *)

Definition isBatchPut (e : Event) : bool :=
  match e with EvBatchPut _ _ => true | _ => false end.
Definition isCommit (e : Event) : bool :=
  match e with EvCommit _ => true | _ => false end.
Definition isWgDone (e : Event) : bool :=
  match e with EvWgDone => true | _ => false end.
Definition isToken (e : Event) : bool :=
  match e with EvToken => true | _ => false end.

(** How many events of a kind a world has seen. *)
Definition count (p : Event -> bool) (w : World) : Z := len (filter p (trace w)).

(** The keys given to [batch.Put], in the order of the calls. *)
Definition batchPuts (w : World) : list Key :=
  flat_map (fun e => match e with EvBatchPut k _ => [k] | _ => [] end) (events w).

(** The volumes given to [computeAndSaveSurface], in the order of the calls. *)
Definition finalized (w : World) : list SparseVol :=
  flat_map (fun e => match e with EvSurface v => [v] | _ => [] end) (events w).

(** The run records of the scanned values, counted value by value. *)
Definition sumRuns (vs : list bytes) : Z :=
  fold_right (fun v n => Z.quot (len v) 16 + n) 0 vs.

(** The values [GetSparseVol] scans for a label. *)
Definition matchedRuns {C : Collaborators} (store : KV) (label : Z) : list bytes :=
  map snd (kvRange (NewLabelSpatialMapIndex label MinIndexZYX)
                   (NewLabelSpatialMapIndex label MaxIndexZYX) store).

(** The upper bound of a size range: [maxSize], or the largest count when
    [maxSize] is 0. *)
Definition upperBound (maxSize : Z) : Z :=
  if negb (maxSize =? 0) then maxSize else MaxUint64.

(** The voxel count and the label held by a size index key. *)
Definition entryOfKey (k : Key) : Z * Z := (Uint64 (skipn 1 k), Uint64 (skipn 9 k)).

(** The order of the size index: by count, then by label. *)
Definition entryLt (a b : Z * Z) : Prop :=
  fst a < fst b \/ (fst a = fst b /\ snd a < snd b).

Definition isUint64 (z : Z) : Prop := 0 <= z < 2 ^ 64.

(** The keys of a store are kept in strictly ascending order. *)
Definition ordered (s : KV) : Prop :=
  StronglySorted (fun a b => storage.lt (fst a) (fst b)) s.

(** A key of the size index: the key of a count and a label. *)
Definition isSizeKey {C : Collaborators} (k : Key) : Prop :=
  exists size label, isUint64 size /\ isUint64 label /\
                     k = NewLabelSizesIndex size label.

(** Every key of the store that carries the tag of the size index is a key
    of the size index. *)
Definition sizeIndexed {C : Collaborators} (s : KV) : Prop :=
  forall k, In k (map fst s) -> hd_error k = Some KeyLabelSizes -> isSizeKey k.

Definition outcomeWorld {S} (o : Outcome S) : World :=
  match o with Continue _ w => w | Return _ w => w end.

(** The loop of [ComputeSizes] over data chunks only: where the function
    stands when the next value is about to be received. *)
Fixpoint ComputeSizes_chunks {C : Collaborators} (st : Sizes.State) (w : World)
    (chunks : list Chunk) : Outcome Sizes.State :=
  match chunks with
  | [] => Continue st w
  | c :: chunks' =>
      match ComputeSizes_body st w (Some c) with
      | Continue st' w' => ComputeSizes_chunks st' w' chunks'
      | Return e w' => Return e w'
      end
  end.

(** A set of collaborators and a world to run the functions in. *)
Module Demo.
Definition collaborators : Collaborators := {|
  KeyLabelSpatialMap := byte.of_Z 1;
  KeyLabelSurface := byte.of_Z 2;
  KeyLabelSizes := byte.of_Z 3;
  MinIndexZYX := repeat (byte.of_Z 0) 12;
  MaxIndexZYX := repeat (byte.of_Z 255) 12;
  SurfaceSerialization := fun vol => Some (le_split 8 (fst (Stats (rles vol))));
  SerializeData := fun b => Some b;
  DeserializeData := fun b _ => Some b
  |}.

Definition world : World :=
  {| bigdata := Some []; smalldata := Some []; batching := true;
     faults := []; trace := [] |}.

(** The bytes of one run of [n] voxels at the origin. *)
Definition run (n : Z) : bytes := repeat (byte.of_Z 0) 12 ++ le_split 4 n.

(** One chunk without runs per label, for the [n] labels [l], [l-1], ... *)
Fixpoint oneChunkPerLabel (n : nat) (l : Z) : list Chunk :=
  match n with
  | O => []
  | S n' => {| Op := l; V := [] |} :: oneChunkPerLabel n' (l - 1)
  end.

(** A world whose next store operation fails. *)
Definition faulty : World :=
  {| bigdata := Some []; smalldata := Some []; batching := true;
     faults := [true]; trace := [] |}.

(** A size index with the entries (5, label 11), (3, label 12) and
  (9, label 13), as an ordered store keeps them. *)
Definition sizes : KV :=
  [ (NewLabelSizesIndex (C := collaborators) 3 12, EmptyValue);
  (NewLabelSizesIndex (C := collaborators) 5 11, EmptyValue);
  (NewLabelSizesIndex (C := collaborators) 9 13, EmptyValue) ].

Definition sized : World :=
  {| bigdata := Some []; smalldata := Some sizes; batching := true;
   faults := []; trace := [] |}.

End Demo.

(* ================================================================== *)
(** ** The rest of package labels64                                    *)
(* ================================================================== *)

(** The events [ComputeSizes] gives rise to before it returns. *)
Definition sizesEvent (e : Event) : bool :=
  match e with
  | EvInfo _ | EvBatchPut _ _ | EvCommit _ | EvNewBatch => true
  | _ => false
  end.

(** The events [ComputeSurface] gives rise to before it returns. *)
Definition surfaceEvent (e : Event) : bool :=
  match e with
  | EvInfo _ | EvSurface _ | EvPut _ _ => true
  | _ => false
  end.

(** The keys given to [store.Put], in the order of the calls. *)
Definition storePuts (w : World) : list Key :=
  flat_map (fun e => match e with EvPut k _ => [k] | _ => [] end) (events w).

(** What [ComputeSizes] may write: into a batch, under a key built by
  [NewLabelSizesIndex]. *)
Definition sizesWrite {C : Collaborators} (e : Event) : Prop :=
  match e with
  | EvBatchPut k _ => exists size label, k = NewLabelSizesIndex size label
  | EvPut _ _ | EvSurface _ => False
  | _ => True
  end.

(** What [ComputeSurface] may write: into the store, under the key that
  [NewLabelSurfaceIndex] builds for a label among [labels]. *)
Definition surfaceWrite {C : Collaborators} (labels : Z -> Prop) (e : Event) : Prop :=
  match e with
  | EvPut k _ => exists label, labels label /\ k = NewLabelSurfaceIndex label
  | EvBatchPut _ _ | EvCommit _ | EvNewBatch => False
  | _ => True
  end.

(** The store after the entries of the size index [ks] are put, in order. *)
Definition applyPuts (ks : list Key) (s : KV) : KV :=
  fold_left (fun s k => kvPut k EmptyValue s) ks s.

(** [copy(dst, src)] into a new slice [dst] of [n] zero bytes. *)
Definition copyInto (n : nat) (src : bytes) : bytes :=
  firstn n src ++ repeat (byte.of_Z 0) (n - List.length src).

(** The store after the pairs [es] are put, in order. *)
Definition putAll (es : list (Key * bytes)) (s : KV) : KV :=
  fold_left (fun s kv => kvPut (fst kv) (snd kv) s) es s.

(** Every key of the store that carries the tag of the spatial index is
  the key of a label other than [label], at some block. *)
Definition onlyOtherLabels {C : Collaborators} (label : Z) (s : KV) : Prop :=
  forall k, In k (map fst s) -> hd_error k = Some KeyLabelSpatialMap ->
  exists label' zyx, isUint64 label' /\ label' <> label /\
                     k = NewLabelSpatialMapIndex label' zyx.

Section SpatialMapWriter.
Context {C : Collaborators}.

(** The size of a block coordinate, [dvid.IndexZYXSize], and the encoder
  [RLEs.MarshalBinary] are declared outside the files at hand and are taken
  as they come. *)
Variable IndexZYXSize : nat.
Variable MarshalBinary : RLEs -> option bytes.

(** The loop of [StoreKeyLabelSpatialMap] over the map [labelRLEs], given
  as the pairs of the map in the order the iteration visits them.  The key
  handed to [batch.Put] is the buffer [bsIndex] as it stands at the call;
  the batch is taken to copy it, as a LevelDB write batch does. *)
Fixpoint StoreKeyLabelSpatialMap_range (bsIndexZYX : bytes)
    (labelRLEs : list (Z * RLEs)) (batch : Batch) (w : World) : Batch * World :=
  match labelRLEs with
  | [] => (batch, w)
  | (b, rles) :: rest =>
      let key := NewLabelSpatialMapIndex b bsIndexZYX in
      match MarshalBinary rles with
      | None =>
          (batch,
           emit (EvInfo "Error encoding KeyLabelSpatialMap keys for mapped label") w)
      | Some runsBytes =>
          let (batch', w') := BatchPut key runsBytes batch w in
          StoreKeyLabelSpatialMap_range bsIndexZYX rest batch' w'
      end
  end.

(** [StoreKeyLabelSpatialMap]: the loop, then the deferred commit. *)
Definition StoreKeyLabelSpatialMap (w : World) (zyxBytes : bytes)
    (labelRLEs : list (Z * RLEs)) : World :=
  let batch := NewBatch in
  let bsIndexZYX := copyInto IndexZYXSize zyxBytes in
  let (batch', w1) := StoreKeyLabelSpatialMap_range bsIndexZYX labelRLEs batch w in
  match Commit batch' w1 with
  | (Some _, w2) => emit (EvInfo "Error on batch PUT of KeyLabelSpatialMap") w2
  | (None, w2) => w2
  end.

(** The pairs put by the loop of [StoreKeyLabelSpatialMap]: those of the
  labels visited before the first set of runs that does not marshal. *)
Fixpoint marshalled (bsIndexZYX : bytes) (labelRLEs : list (Z * RLEs))
  : list (Key * bytes) :=
  match labelRLEs with
  | [] => []
  | (b, rles) :: rest =>
      match MarshalBinary rles with
      | None => []
      | Some runsBytes =>
          (NewLabelSpatialMapIndex b bsIndexZYX, runsBytes)
            :: marshalled bsIndexZYX rest
      end
  end.

(** The events of the loop of [StoreKeyLabelSpatialMap]: one buffered put
  per label, up to the first set of runs that does not marshal, which is
  logged. *)
Fixpoint rangeEvents (bsIndexZYX : bytes) (labelRLEs : list (Z * RLEs))
  : list Event :=
  match labelRLEs with
  | [] => []
  | (b, rles) :: rest =>
      match MarshalBinary rles with
      | None => [EvInfo "Error encoding KeyLabelSpatialMap keys for mapped label"]
      | Some runsBytes =>
          EvBatchPut (NewLabelSpatialMapIndex b bsIndexZYX) runsBytes
            :: rangeEvents bsIndexZYX rest
      end
  end.

End SpatialMapWriter.

(** Every label of the map is a [uint64] and every set of runs marshals. *)
Definition marshals (MarshalBinary : RLEs -> option bytes)
    (labelRLEs : list (Z * RLEs)) : Prop :=
  Forall (fun p => isUint64 (fst p) /\ MarshalBinary (snd p) <> None) labelRLEs.

(** An encoder for the examples: 16 bytes per run, and an error for a run
  whose length is negative. *)
Module DemoIndex.

Definition IndexZYXSize : nat := 12.

Definition record (r : RLE) : bytes :=
  let '(x, y, z) := start r in
  le_split 4 x ++ le_split 4 y ++ le_split 4 z ++ le_split 4 (runLength r).

Definition MarshalBinary (rles : RLEs) : option bytes :=
  if forallb (fun r => 0 <=? runLength r) rles
  then Some (flat_map record rles) else None.

(** A block coordinate of 12 bytes. *)
Definition block (n : Z) : bytes := le_split 12 n.

End DemoIndex.

(* ================================================================== *)
(** ** Package dvid, utils.go: logging, timing and image helpers       *)
(* ================================================================== *)

Module utils.

(** [type ModeFlag uint] and its constants. *)
Definition ModeFlag := Z.
Definition Normal : ModeFlag := 0.
Definition Debug : ModeFlag := 1.
Definition Benchmark : ModeFlag := 2.

Definition DefaultJPEGQuality : Z := 80.

(** The line feed of the format strings. *)
Definition nl : string := String (Ascii.ascii_of_nat 10) EmptyString.

(** A value passed as [interface{}]: a string, an integer, a duration, or
  a value of another type. *)
Inductive Any :=
| AString (s : string)
| AInt (n : Z)
| ADuration (d : Z)
| AOther (tag : nat).

(** Where a line goes: [fmt] prints to the standard output, [log] to the
  standard logger, the error logger to the writer it was made for. *)
Inductive Sink :=
| Stdout
| StdLogger
| ErrorLog (out : nat).

(** A call of [Printf] or [Println]; the formatting itself is left to the
  library. *)
Inductive Output :=
| OutPrintf (to : Sink) (format : string) (args : list Any)
| OutPrintln (to : Sink) (line : string).

(** The process: the globals [Mode] and [errorLogger], the clock, and
  what was printed so far, in order. *)
Record Process := mkProcess {
  Mode : ModeFlag;
  errorLogger : option nat;
  clock : Z;
  printed : list Output
}.

Definition print (o : Output) (st : Process) : Process :=
  {| Mode := Mode st; errorLogger := errorLogger st; clock := clock st;
     printed := printed st ++ [o] |}.

(** A call returns or panics. *)
Inductive Result (A : Type) :=
| Returns (a : A)
| Panics.
Arguments Returns {A} a.
Arguments Panics {A}.

(** The lines common to [Log], [Fmt] and [Error]:
  [if len(p) == 0 { Println("No message") } else { Printf(p[0].(string), p[1:]...) }];
  the type assertion panics when [p[0]] is not a string. *)
Definition message (to : Sink) (p : list Any) (st : Process) : Result Process :=
  match p with
  | [] => Returns (print (OutPrintln to "No message") st)
  | AString format :: args => Returns (print (OutPrintf to format args) st)
  | _ :: _ => Panics
  end.

Definition Log (mode : ModeFlag) (p : list Any) (st : Process) : Result Process :=
  if mode =? Mode st then message StdLogger p st else Returns st.

Definition Fmt (mode : ModeFlag) (p : list Any) (st : Process) : Result Process :=
  if mode =? Mode st then message Stdout p st else Returns st.

Definition Error (p : list Any) (st : Process) : Result Process :=
  match message StdLogger p st with
  | Panics => Panics
  | Returns st1 =>
      match errorLogger st1 with
      | Some out => message (ErrorLog out) p st1
      | None => Returns st1
      end
  end.

Definition SetErrorLoggingFile (out : nat) (st : Process) : Process :=
  print (OutPrintln (ErrorLog out) "Starting error logging for DVID")
    {| Mode := Mode st; errorLogger := Some out; clock := clock st;
       printed := printed st |}.

(** [time.Since(startTime)] is read off the clock of the process. *)
Definition ElapsedTime (modes : ModeFlag) (startTime : Z) (p : list Any)
    (st : Process) : Result Process :=
  let args :=
    match p with
    | [] => Returns [AString ("%s" ++ nl)]
    | AString s :: rest => Returns (AString (s ++ ": %s" ++ nl) :: rest)
    | _ :: _ => Panics
    end in
  match args with
  | Panics => Panics
  | Returns args => Fmt modes (args ++ [ADuration (clock st - startTime)]) st
  end.

(** The loop of [PrintNonZero]. *)
Fixpoint nonzero (value : bytes) (n : Z) : Z :=
  match value with
  | [] => n
  | b :: rest => nonzero rest (if negb (byte.unsigned b =? 0) then n + 1 else n)
  end.

Definition PrintNonZero (msg : string) (value : bytes) (st : Process) : Process :=
  print (OutPrintf Stdout ("%s> non-zero voxels: %d of %d bytes" ++ nl)
           [AString msg; AInt (nonzero value 0); AInt (len value)]) st.

(** [strings.Split(s, sep)] for a separator of one byte. *)
Fixpoint Split (s : string) (sep : Ascii.ascii) : list string :=
  match s with
  | EmptyString => [EmptyString]
  | String c s' =>
      if Ascii.eqb c sep then EmptyString :: Split s' sep
      else
        match Split s' sep with
        | field :: fields => String c field :: fields
        | [] => [String c EmptyString]
        end
  end.

(** [strconv.Atoi]: an optional sign and at least one decimal digit, with a
  value that fits in an [int] of 64 bits; [None] stands for its error. *)
Definition Atoi (s : string) : option Z :=
  let signed :=
    match s with
    | String "+"%char r => (false, r)
    | String "-"%char r => (true, r)
    | _ => (false, s)
    end in
  match NilZero.uint_of_string (snd signed) with
  | None => None
  | Some d =>
      let n := Z.of_N (N.of_uint d) in
      let v := if fst signed then - n else n in
      if (- 2 ^ 63 <=? v) && (v <=? 2 ^ 63 - 1) then Some v else None
  end.

(** The errors of the image helpers. *)
Inductive failure :=
| ErrAtoi                        (* the error of [strconv.Atoi] *)
| ErrIllegalFormat (name : string)
| ErrOpen (filename : string)
| ErrForm                        (* the error of [r.FormFile] *)
| ErrDecode                      (* the error of [image.Decode] *)
| ErrClose.                      (* the error of [file.Close] *)

(** What reaches an [http.ResponseWriter]. *)
Inductive HttpEvent (Image : Type) :=
| HeaderSet (key value : string)
| PngEncode (img : Image)
| JpegEncode (img : Image) (Quality : Z).
Arguments HeaderSet {Image} key value.
Arguments PngEncode {Image} img.
Arguments JpegEncode {Image} img Quality.

(** [WriteImageHttp]; the results of [png.Encode] and [jpeg.Encode] are
  dropped by the code. *)
Definition WriteImageHttp {Image : Type} (w : list (HttpEvent Image))
    (img : Image) (formatStr : string) : list (HttpEvent Image) * option failure :=
  let format := Split formatStr ":"%char in
  let compression :=
    if 1 <? len format then
      match Atoi (nth 1 format EmptyString) with
      | Some c => inl c
      | None => inr ErrAtoi
      end
    else inl DefaultJPEGQuality in
  match compression with
  | inr err => (w, Some err)
  | inl compression =>
      let name := nth 0 format EmptyString in
      if String.eqb name "" || String.eqb name "png" then
        (w ++ [HeaderSet "Content-type" "image/png"; PngEncode img], None)
      else if String.eqb name "jpg" || String.eqb name "jpeg" then
        (w ++ [HeaderSet "Content-type" "image/jpeg"; JpegEncode img compression],
         None)
      else (w, Some (ErrIllegalFormat name))
  end.

(** An open file, and what [image.Decode] reads from: the file itself, or
  the buffer that [io.Copy] has filled from it. *)
Definition File := nat.

Inductive Reader :=
| FromFile (f : File)
| FromBuffer (f : File).

Inductive FileEvent :=
| Opened (f : File)
| Closed (f : File).

Section Images.
Variable Image : Type.

(** [os.Open], [r.FormFile], [image.Decode] and [file.Close] are taken as
  they come. *)
Variable Open : string -> option File.
Variable FormFile : string -> option File.
Variable Decode : Reader -> option (Image * string).
Variable Close : File -> option failure.

Definition ImageFromFile (filename : string) (fs : list FileEvent)
  : option Image * string * option failure * list FileEvent :=
  match Open filename with
  | None => (None, EmptyString, Some (ErrOpen filename), fs)
  | Some file =>
      let fs := fs ++ [Opened file] in
      match Decode (FromFile file) with
      | None => (None, EmptyString, Some ErrDecode, fs)
      | Some (img, format) => (Some img, format, Close file, fs ++ [Closed file])
      end
  end.

Definition ImageFromPost (key : string) (fs : list FileEvent)
  : option Image * string * option failure * list FileEvent :=
  match FormFile key with
  | None => (None, EmptyString, Some ErrForm, fs)
  | Some f =>
      let fs := fs ++ [Opened f] in
      let deferred (fs : list FileEvent) := fs ++ [Closed f] in
      match Decode (FromBuffer f) with
      | None => (None, EmptyString, Some ErrDecode, deferred fs)
      | Some (img, format) => (Some img, format, None, deferred fs)
      end
  end.

End Images.

(** How many files are open: the files opened and not closed. *)
Fixpoint unclosed (fs : list FileEvent) : Z :=
  match fs with
  | [] => 0
  | Opened _ :: rest => unclosed rest + 1
  | Closed _ :: rest => unclosed rest - 1
  end.

Definition sinkOf (o : Output) : Sink :=
  match o with OutPrintf to _ _ | OutPrintln to _ => to end.

Definition sameSink (a b : Sink) : bool :=
  match a, b with
  | Stdout, Stdout | StdLogger, StdLogger => true
  | ErrorLog x, ErrorLog y => Nat.eqb x y
  | _, _ => false
  end.

(** What a sink has received, in order. *)
Definition received (to : Sink) (st : Process) : list Output :=
  filter (fun o => sameSink (sinkOf o) to) (printed st).

End utils.

(* ================================================================== *)
(** ** Traces                                                          *)
(* ================================================================== *)

Lemma events_emit e w : events (emit e w) = events w ++ [e].
Proof. reflexivity. Qed.

Lemma count_emit p e w :
  count p (emit e w) = count p w + (if p e then 1 else 0).
Proof.
  unfold count, len, emit; simpl. destruct (p e); simpl; lia.
Qed.

Lemma trace_nextFault w : trace (snd (nextFault w)) = trace w.
Proof. unfold nextFault. destruct (faults w); reflexivity. Qed.

Lemma count_nextFault p w : count p (snd (nextFault w)) = count p w.
Proof. unfold count. now rewrite trace_nextFault. Qed.

Lemma smalldata_nextFault w : smalldata (snd (nextFault w)) = smalldata w.
Proof. unfold nextFault. destruct (faults w); reflexivity. Qed.

Lemma batchPuts_emit e w :
  batchPuts (emit e w) =
  batchPuts w ++ match e with EvBatchPut k _ => [k] | _ => [] end.
Proof.
  unfold batchPuts. rewrite events_emit, flat_map_app. simpl.
  now rewrite app_nil_r.
Qed.

Lemma finalized_emit e w :
  finalized (emit e w) =
  finalized w ++ match e with EvSurface v => [v] | _ => [] end.
Proof.
  unfold finalized. rewrite events_emit, flat_map_app. simpl.
  now rewrite app_nil_r.
Qed.

Lemma batchPuts_setSmall s w : batchPuts (setSmall s w) = batchPuts w.
Proof. reflexivity. Qed.

Lemma count_setSmall p s w : count p (setSmall s w) = count p w.
Proof. reflexivity. Qed.

Lemma nextFault_emit e w :
  nextFault (emit e w) = (fst (nextFault w), emit e (snd (nextFault w))).
Proof. unfold nextFault. cbn [emit faults]. destruct (faults w); reflexivity. Qed.

Lemma nextFault_nil w : faults w = [] -> nextFault w = (false, w).
Proof. intros H. unfold nextFault. now rewrite H. Qed.

Lemma Commit_succeeds b w s :
  fst (nextFault w) = false -> smalldata w = Some s ->
  Commit b w =
  (None, emit (EvCommit true) (setSmall (applyBatch b s) (snd (nextFault w)))).
Proof.
  intros Hf Hs. unfold Commit.
  pose proof (smalldata_nextFault w) as E.
  destruct (nextFault w) as [f w1]; simpl in *. subst f.
  now rewrite E, Hs.
Qed.

Lemma Commit_fails b w :
  fst (nextFault w) = true ->
  Commit b w = (Some ErrStore, emit (EvCommit false) (snd (nextFault w))).
Proof.
  intros Hf. unfold Commit.
  destruct (nextFault w) as [f w1]; simpl in *. now subst f.
Qed.





(* ================================================================== *)
(** ** The consumers: exits and deferred calls                         *)
(* ================================================================== *)

Section Consumers.
Context {C : Collaborators}.

Lemma ComputeSizes_loop_chunks st w pre l :
    ComputeSizes_loop st w (map Some pre ++ l) =
    match ComputeSizes_chunks st w pre with
    | Continue st' w' => ComputeSizes_loop st' w' l
    | Return e w' => (e, w')
    end.
Proof.
    revert st w. induction pre as [|c pre IH]; intros st w;
      cbn [map app ComputeSizes_loop ComputeSizes_chunks].
    - reflexivity.
    - destruct (ComputeSizes_body st w (Some c)); [apply IH | reflexivity].
Qed.

(** Neither [store.Put] nor the surface computation touches the
    WaitGroup or the handler tokens. *)
Lemma computeAndSaveSurface_count p w vol :
    (forall v, p (EvSurface v) = false) -> (forall k v, p (EvPut k v) = false) ->
    count p (snd (computeAndSaveSurface w vol)) = count p w.
Proof.
    intros Hs Hp. unfold computeAndSaveSurface.
    assert (E : count p (emit (EvSurface vol) w) = count p w)
      by (rewrite count_emit, Hs; lia).
    destruct (SurfaceSerialization vol); [|exact E].
    destruct (bigdata (emit (EvSurface vol) w)); [|exact E].
    destruct (SerializeData b); [|exact E].
    unfold Put.
    pose proof (count_nextFault p (emit (EvSurface vol) w)) as F.
    destruct (nextFault (emit (EvSurface vol) w)) as [f w1]; simpl in F.
    destruct f; simpl.
    - congruence.
    - rewrite count_emit, Hp.
      change (count p (setBig (kvPut (NewLabelSurfaceIndex (Label vol)) b0 k) w1))
        with (count p w1).
      lia.
Qed.

Lemma ComputeSurface_body_count p st w chunk :
    (forall v, p (EvSurface v) = false) -> (forall k v, p (EvPut k v) = false) ->
    (forall m, p (EvInfo m) = false) ->
    count p (outcomeWorld (ComputeSurface_body st w chunk)) = count p w.
Proof.
    intros Hs Hp Hi. unfold ComputeSurface_body.
    pose proof (computeAndSaveSurface_count p w (Surface.curVol st) Hs Hp) as E.
    destruct chunk as [c|].
    - destruct (negb (Op c =? Surface.curLabel st) || (Op c =? 0)).
      + destruct (Surface.notFirst st).
        * destruct (computeAndSaveSurface w (Surface.curVol st)) as [[err|] w']; simpl in *.
          -- unfold info. rewrite count_emit, Hi. lia.
          -- destruct (AddRLEs _ _); simpl; [exact E|].
             unfold info. rewrite count_emit, Hi. lia.
        * destruct (AddRLEs _ _); simpl; [reflexivity|].
          unfold info. rewrite count_emit, Hi. lia.
      + destruct (AddRLEs _ _); simpl; [reflexivity|].
        unfold info. rewrite count_emit, Hi. lia.
    - destruct (Surface.notFirst st); [|reflexivity].
      destruct (computeAndSaveSurface w (Surface.curVol st)) as [[err|] w']; simpl in *.
      + unfold info. rewrite count_emit, Hi. lia.
      + exact E.
Qed.

Lemma ComputeSurface_body_exit st w chunk e w' :
    ComputeSurface_body st w chunk = Return e w' ->
    e = AtSentinel \/ e = SurfaceFailed \/ e = AddFailed.
Proof.
    unfold ComputeSurface_body. destruct chunk as [c|].
    - destruct (negb (Op c =? Surface.curLabel st) || (Op c =? 0)).
      + destruct (if Surface.notFirst st then _ else _) as [[err|] w1].
        * intros H; inversion H; auto.
        * destruct (AddRLEs _ _); intros H; inversion H; auto.
      + destruct (AddRLEs _ _); intros H; inversion H; auto.
    - destruct (Surface.notFirst st).
      + destruct (computeAndSaveSurface _ _) as [[err|] w1]; intros H; inversion H; auto.
      + intros H; inversion H; auto.
Qed.

Lemma ComputeSurface_body_nil st w :
    exists e w', ComputeSurface_body st w None = Return e w'.
Proof.
    unfold ComputeSurface_body. destruct (Surface.notFirst st); [|eauto].
    destruct (computeAndSaveSurface _ _) as [[err|] w1]; eauto.
Qed.

Lemma ComputeSurface_loop_exit p st w ch e w' :
    (forall v, p (EvSurface v) = false) -> (forall k v, p (EvPut k v) = false) ->
    (forall m, p (EvInfo m) = false) ->
    ComputeSurface_loop st w ch = (e, w') ->
    count p w' = count p w /\
    (e = Blocked \/ e = AtSentinel \/ e = SurfaceFailed \/ e = AddFailed) /\
    (In None ch -> e <> Blocked).
Proof.
    intros Hs Hp Hi. revert st w.
    induction ch as [|chunk ch IH]; intros st w; cbn [ComputeSurface_loop].
    - intros H; inversion H; subst. repeat split; auto; try (intros []).
    - pose proof (ComputeSurface_body_count p st w chunk Hs Hp Hi) as E.
      pose proof (ComputeSurface_body_exit st w chunk) as X.
      destruct (ComputeSurface_body st w chunk) as [st1 w1|e1 w1] eqn:B; simpl in E.
      + intros H. destruct (IH _ _ H) as (E1 & X1 & N1).
        repeat split; [congruence | exact X1 |].
        intros [->|Hin]; [|auto].
        destruct (ComputeSurface_body_nil st w) as (e2 & w2 & B2). congruence.
      + intros H; inversion H; subst. repeat split; auto.
        * destruct (X _ _ eq_refl) as [->| [->| ->]]; auto.
        * intros _. destruct (X _ _ eq_refl) as [->| [->| ->]]; discriminate.
Qed.

End Consumers.

(* ================================================================== *)
(** ** Streams without data, decode failures, deferred calls           *)
(* ================================================================== *)

Section StreamEnds.
Context {C : Collaborators}.

(** C1.  On the stream made of the nil chunk alone, [ComputeSurface]
    computes and stores no surface, whereas [ComputeSizes] does not test
    [notFirst] at the nil chunk: it puts the entry of size 0 for label 0
    into the batch and commits it to the small-data store. *)
Theorem sentinel_only_stream : forall w s,
    batching w = true -> faults w = [] -> smalldata w = Some s ->
    finalized (snd (ComputeSurface w [None])) = finalized w /\
    bigdata (snd (ComputeSurface w [None])) = bigdata w /\
    batchPuts (snd (ComputeSizes w [None])) = batchPuts w ++ [NewLabelSizesIndex 0 0] /\
    smalldata (snd (ComputeSizes w [None])) =
      Some (kvPut (NewLabelSizesIndex 0 0) EmptyValue s).
Proof.
    intros w s Hb Hf Hs.
    assert (R : ComputeSizes w [None] =
                (AtSentinel,
                 emit EvWgDone (emit (EvCommit true)
                   (setSmall (kvPut (NewLabelSizesIndex 0 0) EmptyValue s)
                      (emit (EvBatchPut (NewLabelSizesIndex 0 0) EmptyValue) w))))).
    { unfold ComputeSizes. rewrite Hb. cbn [ComputeSizes_loop].
      unfold ComputeSizes_body, BatchPut.
      rewrite (Commit_succeeds _ _ s); [| now rewrite nextFault_nil | exact Hs].
      now rewrite nextFault_nil. }
    split; [|split; [|split]].
    - unfold finalized, events. cbn. now rewrite !flat_map_app, !app_nil_r.
    - reflexivity.
    - rewrite R. cbn [snd].
      now rewrite !batchPuts_emit, batchPuts_setSmall, batchPuts_emit, !app_nil_r.
    - rewrite R. reflexivity.
Qed.

(** C9.  [ComputeSurface] returns as soon as a nil chunk is in the
    channel, and whenever it returns, at the nil chunk or after an error
    of [AddRLEs] or of [computeAndSaveSurface], the deferred calls have
    run: one [wg.Done()] and one token sent to [server.HandlerToken]. *)
Theorem ComputeSurface_releases_once : forall w ch,
    (In None ch -> fst (ComputeSurface w ch) <> Blocked) /\
    (fst (ComputeSurface w ch) <> Blocked ->
       (fst (ComputeSurface w ch) = AtSentinel \/
        fst (ComputeSurface w ch) = SurfaceFailed \/
        fst (ComputeSurface w ch) = AddFailed) /\
       count isWgDone (snd (ComputeSurface w ch)) = count isWgDone w + 1 /\
       count isToken (snd (ComputeSurface w ch)) = count isToken w + 1).
Proof.
    intros w ch. unfold ComputeSurface.
    destruct (ComputeSurface_loop Surface.init w ch) as [e w'] eqn:L.
    assert (D : count isWgDone w' = count isWgDone w /\
                (e = Blocked \/ e = AtSentinel \/ e = SurfaceFailed \/ e = AddFailed) /\
                (In None ch -> e <> Blocked))
      by (eapply ComputeSurface_loop_exit; eauto).
    assert (T : count isToken w' = count isToken w)
      by (eapply ComputeSurface_loop_exit with (p := isToken); eauto).
    destruct D as (D & X & N).
    destruct X as [->|[->|[->| ->]]]; simpl; rewrite ?count_emit; simpl;
      (split; [intros Hin; try discriminate; now apply N
              | intros Hne; try congruence; repeat split; auto; lia]).
Qed.

(** C10.  When a chunk that does not decode is received, [ComputeSizes]
    logs the error and returns: nothing is put for the label being
    accumulated, the open batch is not committed, and the small-data
    store stays as the last commit left it. *)
Theorem ComputeSizes_decode_failure : forall w pre st w0 c rest,
    batching w = true ->
    ComputeSizes_chunks Sizes.init w pre = Continue st w0 ->
    UnmarshalBinary (V c) = None ->
    fst (ComputeSizes w (map Some pre ++ Some c :: rest)) = DecodeFailed /\
    events (snd (ComputeSizes w (map Some pre ++ Some c :: rest))) =
      events w0 ++ [EvInfo "Error deserializing RLEs"; EvWgDone] /\
    smalldata (snd (ComputeSizes w (map Some pre ++ Some c :: rest))) = smalldata w0.
Proof.
    intros w pre st w0 c rest Hb Hpre Hdec.
    unfold ComputeSizes. rewrite Hb, ComputeSizes_loop_chunks, Hpre.
    cbn [ComputeSizes_loop]. unfold ComputeSizes_body. rewrite Hdec.
    cbn [fst snd]. unfold info. rewrite !events_emit, <- app_assoc.
    repeat split.
Qed.

End StreamEnds.

Lemma sentinel_only_stream_witness :
  batchPuts (snd (ComputeSizes (C := Demo.collaborators) Demo.world [None])) =
    [NewLabelSizesIndex (C := Demo.collaborators) 0 0] /\
  smalldata (snd (ComputeSizes (C := Demo.collaborators) Demo.world [None])) =
    Some [(NewLabelSizesIndex (C := Demo.collaborators) 0 0, [])].
Proof.
  destruct (sentinel_only_stream (C := Demo.collaborators) Demo.world []
              eq_refl eq_refl eq_refl) as (_ & _ & P & S).
  split; [exact P | exact S].
Defined.

Lemma ComputeSurface_releases_once_witness :
  count isWgDone (snd (ComputeSurface (C := Demo.collaborators) Demo.world
     [Some {| Op := 4; V := Demo.run 2 |}; Some {| Op := 5; V := [] |}; None])) = 1 /\
  count isToken (snd (ComputeSurface (C := Demo.collaborators) Demo.world
     [Some {| Op := 4; V := Demo.run 2 |}; Some {| Op := 5; V := [] |}; None])) = 1.
Proof.
  destruct (ComputeSurface_releases_once (C := Demo.collaborators) Demo.world
     [Some {| Op := 4; V := Demo.run 2 |}; Some {| Op := 5; V := [] |}; None])
    as (_ & H).
  destruct H as (_ & D & T); [vm_compute; discriminate | split; [exact D | exact T]].
Defined.

Lemma ComputeSizes_decode_failure_witness :
  fst (ComputeSizes (C := Demo.collaborators) Demo.world
         (map Some [ {| Op := 4; V := Demo.run 2 |}; {| Op := 5; V := Demo.run 3 |} ]
            ++ [Some {| Op := 5; V := [byte.of_Z 1] |}; None])) = DecodeFailed /\
  smalldata (snd (ComputeSizes (C := Demo.collaborators) Demo.world
         (map Some [ {| Op := 4; V := Demo.run 2 |}; {| Op := 5; V := Demo.run 3 |} ]
            ++ [Some {| Op := 5; V := [byte.of_Z 1] |}; None]))) = Some [].
Proof.
  destruct (ComputeSizes_decode_failure (C := Demo.collaborators) Demo.world
              [ {| Op := 4; V := Demo.run 2 |}; {| Op := 5; V := Demo.run 3 |} ]
              _ _ {| Op := 5; V := [byte.of_Z 1] |} [None]
              eq_refl eq_refl eq_refl) as (E & _ & S).
  split; [exact E | exact S].
Defined.

(* ================================================================== *)
(** ** The write batch of ComputeSizes                                 *)
(* ================================================================== *)

Lemma int_small z : 0 <= z < 2 ^ 63 -> int z = z.
Proof.
  intros H. unfold int.
  rewrite Z.mod_small; lia.
Qed.

Lemma div_succ_at_multiple p :
  0 <= p -> Z.rem (p + 1) BATCH_SIZE = 0 ->
  (p + 1) / BATCH_SIZE = p / BATCH_SIZE + 1.
Proof.
  unfold BATCH_SIZE. intros Hp H.
  rewrite Z.rem_mod_nonneg in H by lia.
  Z.div_mod_to_equations. lia.
Qed.

Lemma div_succ_below_multiple p :
  0 <= p -> Z.rem (p + 1) BATCH_SIZE <> 0 ->
  (p + 1) / BATCH_SIZE = p / BATCH_SIZE.
Proof.
  unfold BATCH_SIZE. intros Hp H.
  rewrite Z.rem_mod_nonneg in H by lia.
  Z.div_mod_to_equations. lia.
Qed.

Lemma Commit_count_commits b w :
  count isCommit (snd (Commit b w)) = count isCommit w + 1.
Proof.
  unfold Commit. pose proof (count_nextFault isCommit w) as F.
  destruct (nextFault w) as [f w1]; simpl in F.
  destruct f; [|destruct (smalldata w1)]; cbn [snd];
    rewrite count_emit, ?count_setSmall; simpl; lia.
Qed.

Lemma Commit_count_puts b w :
  count isBatchPut (snd (Commit b w)) = count isBatchPut w.
Proof.
  unfold Commit. pose proof (count_nextFault isBatchPut w) as F.
  destruct (nextFault w) as [f w1]; simpl in F.
  destruct f; [|destruct (smalldata w1)]; cbn [snd];
    rewrite count_emit, ?count_setSmall; simpl; lia.
Qed.

Section WriteBatch.
Context {C : Collaborators}.

(** One data chunk: at most one put, counted by [putsInBatch], and a
    commit exactly when [putsInBatch] passes a multiple of [BATCH_SIZE]. *)
Lemma ComputeSizes_body_counts st w c st' w' :
    0 <= Sizes.putsInBatch st -> Sizes.putsInBatch st + 1 < 2 ^ 63 ->
    ComputeSizes_body st w (Some c) = Continue st' w' ->
    0 <= count isBatchPut w' - count isBatchPut w <= 1 /\
    Sizes.putsInBatch st' =
      Sizes.putsInBatch st + (count isBatchPut w' - count isBatchPut w) /\
    count isCommit w' - count isCommit w =
      Sizes.putsInBatch st' / BATCH_SIZE - Sizes.putsInBatch st / BATCH_SIZE.
Proof.
    intros H0 Hb. unfold ComputeSizes_body.
    destruct (UnmarshalBinary (V c)) as [r|]; [|discriminate].
    destruct (Sizes.notFirst st && negb (Op c =? Sizes.curLabel st)).
    - unfold BatchPut. rewrite int_small by lia.
      set (w1 := emit _ w).
      assert (P1 : count isBatchPut w1 = count isBatchPut w + 1)
        by (unfold w1; rewrite count_emit; reflexivity).
      assert (C1 : count isCommit w1 = count isCommit w)
        by (unfold w1; rewrite count_emit; simpl; lia).
      destruct (Z.rem (Sizes.putsInBatch st + 1) BATCH_SIZE =? 0) eqn:R.
      + apply Z.eqb_eq in R.
        pose proof (Commit_count_commits
                      ((NewLabelSizesIndex (Sizes.curSize st) (Sizes.curLabel st),
                        EmptyValue) :: Sizes.batch st) w1) as Cc.
        pose proof (Commit_count_puts
                      ((NewLabelSizesIndex (Sizes.curSize st) (Sizes.curLabel st),
                        EmptyValue) :: Sizes.batch st) w1) as Cp.
        destruct (Commit _ w1) as [[err|] w2]; [discriminate|].
        cbn [snd] in Cc, Cp. intros E; inversion E; subst; clear E.
        cbn [Sizes.putsInBatch]. rewrite !count_emit; simpl.
        rewrite (div_succ_at_multiple _ H0 R). lia.
      + apply Z.eqb_neq in R.
        intros E; inversion E; subst; clear E.
        cbn [Sizes.putsInBatch].
        rewrite (div_succ_below_multiple _ H0 R). lia.
    - intros E; inversion E; subst; clear E. cbn [Sizes.putsInBatch]. lia.
Qed.

Lemma ComputeSizes_chunks_counts pre : forall st w st' w',
    0 <= Sizes.putsInBatch st -> Sizes.putsInBatch st + len pre < 2 ^ 63 ->
    ComputeSizes_chunks st w pre = Continue st' w' ->
    0 <= count isBatchPut w' - count isBatchPut w <= len pre /\
    Sizes.putsInBatch st' =
      Sizes.putsInBatch st + (count isBatchPut w' - count isBatchPut w) /\
    count isCommit w' - count isCommit w =
      Sizes.putsInBatch st' / BATCH_SIZE - Sizes.putsInBatch st / BATCH_SIZE.
Proof.
    induction pre as [|c pre IH]; intros st w st' w' H0 Hb;
      cbn [ComputeSizes_chunks].
    - intros E; inversion E; subst. unfold len; simpl. lia.
    - unfold len in *; cbn [List.length] in *.
      destruct (ComputeSizes_body st w (Some c)) as [st1 w1|e1 w1] eqn:B;
        [|discriminate].
      intros E.
      destruct (ComputeSizes_body_counts st w c st1 w1 H0 ltac:(lia) B)
        as (B1 & B2 & B3).
      destruct (IH st1 w1 st' w' ltac:(lia) ltac:(lia) E) as (I1 & I2 & I3).
      lia.
Qed.

(** The nil chunk: one put, not counted by [putsInBatch], and the final
    commit. *)
Lemma ComputeSizes_body_nil st w :
    exists w', ComputeSizes_body st w None = Return AtSentinel w' /\
      count isBatchPut w' = count isBatchPut w + 1 /\
      count isCommit w' = count isCommit w + 1.
Proof.
    unfold ComputeSizes_body, BatchPut.
    set (b := _ :: Sizes.batch st). set (w1 := emit _ w).
    pose proof (Commit_count_commits b w1) as Cc.
    pose proof (Commit_count_puts b w1) as Cp.
    assert (P1 : count isBatchPut w1 = count isBatchPut w + 1)
      by (unfold w1; rewrite count_emit; reflexivity).
    assert (C1 : count isCommit w1 = count isCommit w)
      by (unfold w1; rewrite count_emit; simpl; lia).
    destruct (Commit b w1) as [[err|] w2]; cbn [snd] in Cc, Cp;
      eexists; (split; [reflexivity|]); unfold info;
      rewrite ?count_emit; simpl; lia.
Qed.

Lemma ComputeSizes_body_same st w c r :
  UnmarshalBinary (V c) = Some r ->
  Sizes.notFirst st = false \/ Op c = Sizes.curLabel st ->
  ComputeSizes_body st w (Some c) =
  Continue {| Sizes.batch := Sizes.batch st; Sizes.curLabel := Op c;
              Sizes.curSize := uint64 (Sizes.curSize st + uint64 (fst (Stats r)));
              Sizes.putsInBatch := Sizes.putsInBatch st;
              Sizes.notFirst := true |} w.
Proof.
  intros Hdec H. unfold ComputeSizes_body. rewrite Hdec.
  destruct H as [H|H].
  - now rewrite H.
  - apply Z.eqb_eq in H. rewrite H. cbn [negb]. now rewrite andb_false_r.
Qed.

Lemma ComputeSizes_body_finalize st w c r :
  UnmarshalBinary (V c) = Some r ->
  Sizes.notFirst st = true -> Op c <> Sizes.curLabel st ->
  0 <= Sizes.putsInBatch st -> Sizes.putsInBatch st + 1 < 2 ^ 63 ->
  Z.rem (Sizes.putsInBatch st + 1) BATCH_SIZE <> 0 ->
  ComputeSizes_body st w (Some c) =
  Continue {| Sizes.batch :=
                (NewLabelSizesIndex (Sizes.curSize st) (Sizes.curLabel st), EmptyValue)
                  :: Sizes.batch st;
              Sizes.curLabel := Op c;
              Sizes.curSize := uint64 (0 + uint64 (fst (Stats r)));
              Sizes.putsInBatch := Sizes.putsInBatch st + 1;
              Sizes.notFirst := true |}
           (emit (EvBatchPut (NewLabelSizesIndex (Sizes.curSize st) (Sizes.curLabel st))
                             EmptyValue) w).
Proof.
  intros Hdec Hnf Hl H0 Hb Hrem. unfold ComputeSizes_body. rewrite Hdec, Hnf.
  apply Z.eqb_neq in Hl. rewrite Hl. cbn [andb negb]. unfold BatchPut.
  rewrite int_small by lia.
  apply Z.eqb_neq in Hrem. now rewrite Hrem.
Qed.

(** Where [ComputeSizes] stands after the data chunks [pre], the nil chunk
    ends the run with one more put and the final commit. *)
Lemma ComputeSizes_at_nil w pre rest st w0 :
  batching w = true ->
  ComputeSizes_chunks Sizes.init w pre = Continue st w0 ->
  exists w1,
    ComputeSizes w (map Some pre ++ None :: rest) = (AtSentinel, emit EvWgDone w1) /\
    count isBatchPut w1 = count isBatchPut w0 + 1 /\
    count isCommit w1 = count isCommit w0 + 1.
Proof.
  intros Hb Hpre.
  destruct (ComputeSizes_body_nil st w0) as (w1 & B & P1 & C1).
  exists w1. split; [|split; assumption].
  unfold ComputeSizes. rewrite Hb, ComputeSizes_loop_chunks, Hpre.
  cbn [ComputeSizes_loop]. now rewrite B.
Qed.

(** Where [ComputeSizes] stands after the data chunks [pre], a chunk that
    brings the count of puts to a multiple of [BATCH_SIZE] while the store
    fails ends the run. *)
Lemma ComputeSizes_at_failed_commit w pre st w0 c r rest :
  batching w = true ->
  ComputeSizes_chunks Sizes.init w pre = Continue st w0 ->
  UnmarshalBinary (V c) = Some r ->
  Sizes.notFirst st = true -> Op c <> Sizes.curLabel st ->
  Z.rem (int (Sizes.putsInBatch st + 1)) BATCH_SIZE = 0 ->
  fst (nextFault w0) = true ->
  ComputeSizes w (map Some pre ++ Some c :: rest) =
  (CommitFailed,
   emit EvWgDone (info "Error on batch PUT of label sizes"
     (emit (EvCommit false)
        (emit (EvBatchPut (NewLabelSizesIndex (Sizes.curSize st) (Sizes.curLabel st))
                          EmptyValue)
              (snd (nextFault w0)))))).
Proof.
  intros Hb Hpre Hdec Hnf Hl Hrem Hf.
  unfold ComputeSizes. rewrite Hb, ComputeSizes_loop_chunks, Hpre.
  cbn [ComputeSizes_loop]. unfold ComputeSizes_body. rewrite Hdec, Hnf.
  apply Z.eqb_neq in Hl. rewrite Hl. cbn [andb negb]. unfold BatchPut.
  rewrite Hrem. cbn [Z.eqb].
  rewrite Commit_fails by (rewrite nextFault_emit; exact Hf).
  now rewrite nextFault_emit.
Qed.

(** The run over one chunk per label, below the threshold: one put per
    chunk, no commit. *)
Lemma oneChunkPerLabel_chunks n : forall l st w,
  Sizes.notFirst st = true -> Sizes.curLabel st = l + 1 ->
  0 <= Sizes.putsInBatch st -> Sizes.putsInBatch st + Z.of_nat n < BATCH_SIZE ->
  exists st' w',
    ComputeSizes_chunks st w (Demo.oneChunkPerLabel n l) = Continue st' w' /\
    Sizes.notFirst st' = true /\
    Sizes.curLabel st' = l + 1 - Z.of_nat n /\
    Sizes.putsInBatch st' = Sizes.putsInBatch st + Z.of_nat n /\
    count isBatchPut w' = count isBatchPut w + Z.of_nat n /\
    count isCommit w' = count isCommit w /\
    faults w' = faults w /\ smalldata w' = smalldata w.
Proof.
  unfold BATCH_SIZE.
  induction n as [|n IH]; intros l st w Hnf Hl H0 Hb.
  - exists st, w. cbn [Demo.oneChunkPerLabel ComputeSizes_chunks].
    change (Z.of_nat 0) with 0. repeat split; try assumption; lia.
  - cbn [Demo.oneChunkPerLabel ComputeSizes_chunks].
    rewrite (ComputeSizes_body_finalize st w _ []);
      [| reflexivity | exact Hnf | cbn [Op]; lia | exact H0 | lia
       | rewrite Z.rem_small; unfold BATCH_SIZE; lia ].
    cbn [Op].
    match goal with
    | |- context [ComputeSizes_chunks ?s ?x _] =>
        destruct (IH (l - 1) s x) as (st' & w' & E & A1 & A2 & A3 & A4 & A5 & A6 & A7)
    end; cbn [Sizes.notFirst Sizes.curLabel Sizes.putsInBatch]; try lia; try reflexivity.
    exists st', w'. rewrite E. cbn [Sizes.putsInBatch] in A3.
    rewrite count_emit in A4, A5. cbn [isBatchPut isCommit] in A4, A5.
    repeat split; try assumption; lia.
Qed.

Lemma oneChunkPerLabel_from_init n l w :
  Z.of_nat n < BATCH_SIZE ->
  exists st' w',
    ComputeSizes_chunks Sizes.init w (Demo.oneChunkPerLabel (S n) l) = Continue st' w' /\
    Sizes.notFirst st' = true /\
    Sizes.curLabel st' = l - Z.of_nat n /\
    Sizes.putsInBatch st' = Z.of_nat n /\
    count isBatchPut w' = count isBatchPut w + Z.of_nat n /\
    count isCommit w' = count isCommit w /\
    faults w' = faults w /\ smalldata w' = smalldata w.
Proof.
  intros Hn. cbn [Demo.oneChunkPerLabel ComputeSizes_chunks].
  rewrite (ComputeSizes_body_same Sizes.init w _ []);
    [| reflexivity | left; reflexivity ].
  match goal with
  | |- context [ComputeSizes_chunks ?s ?x _] =>
      destruct (oneChunkPerLabel_chunks n (l - 1) s x)
        as (st' & w' & E & A1 & A2 & A3 & A4 & A5 & A6 & A7)
  end; cbn [Sizes.notFirst Sizes.curLabel Sizes.putsInBatch Sizes.init Op];
    try lia; try reflexivity.
  exists st', w'. cbn [Sizes.putsInBatch Sizes.init] in A3.
  repeat split; try assumption; lia.
Qed.

End WriteBatch.

Section WriteBatchClaims.
Context {C : Collaborators}.

(** C3 (as amended).  When a commit made at the threshold fails,
    [ComputeSizes] logs the failure and returns at once: the chunks that
    follow are not received, no entry is put for the labels that follow,
    there is no final flush, and the small-data store stays as it was;
    only the deferred [wg.Done()] still runs. *)
Theorem ComputeSizes_commit_failure : forall w pre st w0 c r rest,
  batching w = true ->
  ComputeSizes_chunks Sizes.init w pre = Continue st w0 ->
  UnmarshalBinary (V c) = Some r ->
  Sizes.notFirst st = true -> Op c <> Sizes.curLabel st ->
  Z.rem (int (Sizes.putsInBatch st + 1)) BATCH_SIZE = 0 ->
  fst (nextFault w0) = true ->
  fst (ComputeSizes w (map Some pre ++ Some c :: rest)) = CommitFailed /\
  events (snd (ComputeSizes w (map Some pre ++ Some c :: rest))) =
    events w0 ++
    [EvBatchPut (NewLabelSizesIndex (Sizes.curSize st) (Sizes.curLabel st)) EmptyValue;
     EvCommit false; EvInfo "Error on batch PUT of label sizes"; EvWgDone] /\
  smalldata (snd (ComputeSizes w (map Some pre ++ Some c :: rest))) = smalldata w0.
Proof.
  intros w pre st w0 c r rest Hb Hpre Hdec Hnf Hl Hrem Hf.
  rewrite (ComputeSizes_at_failed_commit w pre st w0 c r rest) by assumption.
  cbn [fst snd]. unfold info.
  repeat split.
  - unfold events. cbn [emit trace]. rewrite trace_nextFault. cbn [rev].
    now rewrite <- !app_assoc.
  - cbn [emit smalldata]. now rewrite smalldata_nextFault.
Qed.

(** C4 (as amended).  Puts made on a label change are counted and a commit
    is made each time the count reaches a multiple of 10,000; the put made
    at the nil chunk is not counted and leaves with the final flush.  So
    when the nil chunk is received after [n] puts, [n / 10000] commits
    have been made; a run that inserts 10,001 entries, 10,000 of them
    before the nil chunk, has exactly one commit before the final flush,
    and a run that inserts 10,000 entries or fewer has none. *)
Theorem ComputeSizes_commits : forall w pre rest st w0,
  batching w = true -> len pre < 2 ^ 63 ->
  ComputeSizes_chunks Sizes.init w pre = Continue st w0 ->
  let w' := snd (ComputeSizes w (map Some pre ++ None :: rest)) in
  let inserted := count isBatchPut w' - count isBatchPut w in
  let intermediate := count isCommit w0 - count isCommit w in
  fst (ComputeSizes w (map Some pre ++ None :: rest)) = AtSentinel /\
  count isBatchPut w' = count isBatchPut w0 + 1 /\
  count isCommit w' = count isCommit w0 + 1 /\
  intermediate = (inserted - 1) / BATCH_SIZE /\
  (inserted = 10001 -> intermediate = 1) /\
  (inserted <= 10000 -> intermediate = 0).
Proof.
  intros w pre rest st w0 Hb Hlen Hpre.
  destruct (ComputeSizes_chunks_counts pre Sizes.init w st w0
              (Z.le_refl 0) Hlen Hpre) as (K1 & K2 & K3).
  cbn [Sizes.init Sizes.putsInBatch] in K1, K2, K3.
  destruct (ComputeSizes_at_nil w pre rest st w0 Hb Hpre) as (w1 & R & P1 & C1).
  rewrite R. cbn [fst snd]. rewrite !count_emit. cbn [isBatchPut isCommit].
  assert (Q : count isCommit w0 - count isCommit w =
              (count isBatchPut w0 - count isBatchPut w) / BATCH_SIZE).
  { rewrite K3, K2. change (0 / BATCH_SIZE) with 0.
    now rewrite Z.sub_0_r, Z.add_0_l. }
  rewrite P1, C1, !Z.add_0_r.
  replace (count isBatchPut w0 + 1 - count isBatchPut w - 1)
    with (count isBatchPut w0 - count isBatchPut w) by lia.
  split; [reflexivity|]. split; [reflexivity|]. split; [reflexivity|].
  split; [exact Q|]. rewrite Q. unfold BATCH_SIZE.
  split; intros H.
  - replace (count isBatchPut w0 - count isBatchPut w) with 10000 by lia.
    reflexivity.
  - apply Z.div_small. lia.
Qed.

End WriteBatchClaims.

Lemma ComputeSizes_commit_failure_witness :
  fst (ComputeSizes (C := Demo.collaborators) Demo.faulty
         (map Some (Demo.oneChunkPerLabel (S (Z.to_nat 9999)) 10000)
            ++ Some {| Op := 0; V := [] |} :: [None])) = CommitFailed /\
  smalldata (snd (ComputeSizes (C := Demo.collaborators) Demo.faulty
         (map Some (Demo.oneChunkPerLabel (S (Z.to_nat 9999)) 10000)
            ++ Some {| Op := 0; V := [] |} :: [None]))) = Some [].
Proof.
  destruct (oneChunkPerLabel_from_init (C := Demo.collaborators)
              (Z.to_nat 9999) 10000 Demo.faulty)
    as (st & w0 & E & F1 & F2 & F3 & _ & _ & F4 & F5);
    [unfold BATCH_SIZE; lia|].
  destruct (ComputeSizes_commit_failure (C := Demo.collaborators) Demo.faulty
              (Demo.oneChunkPerLabel (S (Z.to_nat 9999)) 10000) st w0
              {| Op := 0; V := [] |} [] [None]) as (X & _ & S).
  - reflexivity.
  - exact E.
  - reflexivity.
  - exact F1.
  - rewrite F2. cbn [Op]. lia.
  - rewrite F3. rewrite Z2Nat.id by lia. reflexivity.
  - unfold nextFault. rewrite F4. reflexivity.
  - split; [exact X | rewrite S; exact F5].
Defined.

Lemma ComputeSizes_commits_witness :
  count isBatchPut (snd (ComputeSizes (C := Demo.collaborators) Demo.world
     (map Some [ {| Op := 4; V := Demo.run 2 |}; {| Op := 5; V := Demo.run 3 |} ]
        ++ None :: []))) = 2 /\
  count isCommit (snd (ComputeSizes (C := Demo.collaborators) Demo.world
     (map Some [ {| Op := 4; V := Demo.run 2 |}; {| Op := 5; V := Demo.run 3 |} ]
        ++ None :: []))) = 1.
Proof.
  destruct (ComputeSizes_commits (C := Demo.collaborators) Demo.world
              [ {| Op := 4; V := Demo.run 2 |}; {| Op := 5; V := Demo.run 3 |} ]
              [] _ _ eq_refl eq_refl eq_refl) as (_ & P & Q & _).
  split; [exact P | exact Q].
Defined.

(** C3, as first stated, fails: 10,002 labels, from 10,002 down to 1, one
    chunk each, and a first commit that fails.  The run ends at the failed
    commit, before the nil chunk: 10,000 entries were put, not 10,002, and
    nothing reached the store. *)
Lemma ComputeSizes_stops_at_failed_commit :
  fst (ComputeSizes (C := Demo.collaborators) Demo.faulty
         (map Some (Demo.oneChunkPerLabel (S (Z.to_nat 9999)) 10002)
            ++ Some {| Op := 2; V := [] |} :: [Some {| Op := 1; V := [] |}; None]))
    = CommitFailed /\
  count isBatchPut (snd (ComputeSizes (C := Demo.collaborators) Demo.faulty
         (map Some (Demo.oneChunkPerLabel (S (Z.to_nat 9999)) 10002)
            ++ Some {| Op := 2; V := [] |} :: [Some {| Op := 1; V := [] |}; None])))
    = 10000 /\
  smalldata (snd (ComputeSizes (C := Demo.collaborators) Demo.faulty
         (map Some (Demo.oneChunkPerLabel (S (Z.to_nat 9999)) 10002)
            ++ Some {| Op := 2; V := [] |} :: [Some {| Op := 1; V := [] |}; None])))
    = Some [].
Proof.
  destruct (oneChunkPerLabel_from_init (C := Demo.collaborators)
              (Z.to_nat 9999) 10002 Demo.faulty)
    as (st & w0 & E & F1 & F2 & F3 & P & _ & F4 & F5);
    [unfold BATCH_SIZE; lia|].
  assert (R := ComputeSizes_at_failed_commit (C := Demo.collaborators) Demo.faulty
             (Demo.oneChunkPerLabel (S (Z.to_nat 9999)) 10002) st w0
             {| Op := 2; V := [] |} [] [Some {| Op := 1; V := [] |}; None]
             eq_refl E eq_refl F1).
  rewrite R.
  - cbn [fst snd]. unfold info. rewrite !count_emit, count_nextFault, P.
    cbn [isBatchPut emit smalldata]. rewrite smalldata_nextFault, F5.
    rewrite Z2Nat.id by lia. repeat split.
  - rewrite F2. cbn [Op]. lia.
  - rewrite F3. rewrite Z2Nat.id by lia. reflexivity.
  - unfold nextFault. rewrite F4. reflexivity.
Qed.

(** C4, as first stated, fails: 10,000 labels, from 10,000 down to 1, one
    chunk each.  Exactly 10,000 entries are inserted, and the only commit
    is the final flush. *)
Lemma ComputeSizes_10000_entries_no_intermediate_commit :
  fst (ComputeSizes (C := Demo.collaborators) Demo.world
         (map Some (Demo.oneChunkPerLabel (S (Z.to_nat 9999)) 10000) ++ [None]))
    = AtSentinel /\
  count isBatchPut (snd (ComputeSizes (C := Demo.collaborators) Demo.world
         (map Some (Demo.oneChunkPerLabel (S (Z.to_nat 9999)) 10000) ++ [None])))
    = 10000 /\
  count isCommit (snd (ComputeSizes (C := Demo.collaborators) Demo.world
         (map Some (Demo.oneChunkPerLabel (S (Z.to_nat 9999)) 10000) ++ [None])))
    = 1.
Proof.
  destruct (oneChunkPerLabel_from_init (C := Demo.collaborators)
              (Z.to_nat 9999) 10000 Demo.world)
    as (st & w0 & E & _ & _ & _ & P & Q & _ & _);
    [unfold BATCH_SIZE; lia|].
  destruct (ComputeSizes_at_nil (C := Demo.collaborators) Demo.world _ [] st w0
              eq_refl E) as (w1 & R & P1 & Q1).
  rewrite R. cbn [fst snd]. rewrite !count_emit, P1, Q1, P, Q.
  rewrite Z2Nat.id by lia. repeat split.
Qed.

(* ================================================================== *)
(** ** Grouping by label                                               *)
(* ================================================================== *)

Lemma finalized_nextFault w : finalized (snd (nextFault w)) = finalized w.
Proof. unfold finalized, events. now rewrite trace_nextFault. Qed.

Lemma batchPuts_nextFault w : batchPuts (snd (nextFault w)) = batchPuts w.
Proof. unfold batchPuts, events. now rewrite trace_nextFault. Qed.

Lemma batchPuts_Commit b w : batchPuts (snd (Commit b w)) = batchPuts w.
Proof.
  unfold Commit. pose proof (batchPuts_nextFault w) as F.
  destruct (nextFault w) as [f w1]; cbn [snd] in F.
  destruct f; [|destruct (smalldata w1)]; cbn [snd];
    rewrite batchPuts_emit, ?batchPuts_setSmall, app_nil_r; exact F.
Qed.

Section Grouping.
Context {C : Collaborators}.


Lemma finalized_computeAndSaveSurface w vol :
  finalized (snd (computeAndSaveSurface w vol)) = finalized w ++ [vol].
Proof.
  unfold computeAndSaveSurface.
  assert (E : finalized (emit (EvSurface vol) w) = finalized w ++ [vol])
    by apply finalized_emit.
  destruct (SurfaceSerialization vol); [|exact E].
  destruct (bigdata (emit (EvSurface vol) w)); [|exact E].
  destruct (SerializeData b); [|exact E].
  unfold Put. pose proof (finalized_nextFault (emit (EvSurface vol) w)) as F.
  destruct (nextFault (emit (EvSurface vol) w)) as [f w1]; cbn [snd] in F.
  destruct f; cbn [snd].
  - congruence.
  - rewrite finalized_emit, app_nil_r.
    change (finalized (setBig (kvPut (NewLabelSurfaceIndex (Label vol)) b0 k) w1))
      with (finalized w1).
    congruence.
Qed.







End Grouping.

Section GroupingClaims.
Context {C : Collaborators}.






End GroupingClaims.





(* ================================================================== *)
(** ** Looking a surface up                                            *)
(* ================================================================== *)

Section Surfaces.
Context {C : Collaborators}.

(** C8.  When the big-data store answers and holds no surface for the
    label, [GetSurface] returns an empty slice, [false] and no error; it
    returns an error only when the big-data store is unavailable, when the
    read fails, or when the stored bytes do not deserialize. *)
Theorem GetSurface_not_found : forall w label,
  (forall store,
     bigdata w = Some store -> fst (nextFault w) = false ->
     kvGet (NewLabelSurfaceIndex label) store = None ->
     GetSurface w label = (Some [], false, None, snd (nextFault w))) /\
  (forall b found err w',
     GetSurface w label = (b, found, Some err, w') ->
     bigdata w = None \/
     fst (nextFault w) = true \/
     exists store data,
       bigdata w = Some store /\
       kvGet (NewLabelSurfaceIndex label) store = Some data /\
       DeserializeData data false = None).
Proof.
  intros w label. unfold GetSurface, Get. split.
  - intros store Hs Hf Hg. rewrite Hs.
    destruct (nextFault w) as [f w1]; cbn [fst snd] in *. subst f.
    now rewrite Hg.
  - intros b found err w'.
    destruct (bigdata w) as [store|]; [|auto].
    destruct (nextFault w) as [f w1]; cbn [fst snd].
    destruct f; [auto|].
    destruct (kvGet (NewLabelSurfaceIndex label) store) as [data|] eqn:G;
      [|discriminate].
    destruct (DeserializeData data false) eqn:D; [discriminate|].
    intros _. right; right. exists store, data. auto.
Qed.

End Surfaces.

Lemma GetSurface_not_found_witness :
  GetSurface (C := Demo.collaborators) Demo.world 7 = (Some [], false, None, Demo.world).
Proof.
  exact (proj1 (GetSurface_not_found (C := Demo.collaborators) Demo.world 7)
           [] eq_refl eq_refl eq_refl).
Defined.

(* ================================================================== *)
(** ** The sparse volume of a label                                    *)
(* ================================================================== *)

Lemma uint32_add_l a b : uint32 (uint32 a + b) = uint32 (a + b).
Proof. unfold uint32. now rewrite Zplus_mod_idemp_l. Qed.

Lemma uint32_add_r a b : uint32 (a + uint32 b) = uint32 (a + b).
Proof. unfold uint32. now rewrite Zplus_mod_idemp_r. Qed.

Lemma len_app {A} (a b : list A) : len (a ++ b) = len a + len b.
Proof. unfold len. rewrite length_app. lia. Qed.

Lemma len_nonneg {A} (a : list A) : 0 <= len a.
Proof. unfold len. lia. Qed.

Lemma uint32_range a : 0 <= uint32 a < 2 ^ 32.
Proof. unfold uint32. apply Z.mod_pos_bound. lia. Qed.

Lemma sumRuns_cons v vs : sumRuns (v :: vs) = Z.quot (len v) 16 + sumRuns vs.
Proof. reflexivity. Qed.

(** The scan appends the values in order and counts their records. *)
Lemma fold_sparseVolChunk vs : forall op,
  0 <= numRuns op < 2 ^ 32 ->
  encoding (fold_left sparseVolChunk vs op) = encoding op ++ List.concat vs /\
  numRuns (fold_left sparseVolChunk vs op) = uint32 (numRuns op + sumRuns vs).
Proof.
  induction vs as [|v vs IH]; intros op Hr;
    cbn [fold_left List.concat]; rewrite ?sumRuns_cons.
  - change (sumRuns []) with 0.
    rewrite app_nil_r, Z.add_0_r. split; [reflexivity|].
    unfold uint32. now rewrite Z.mod_small.
  - destruct (IH (sparseVolChunk op v)) as (E & N).
    + cbn [sparseVolChunk numRuns]. apply uint32_range.
    + rewrite E, N. cbn [sparseVolChunk numRuns encoding].
      rewrite <- app_assoc. split; [reflexivity|].
      rewrite uint32_add_l.
      replace (numRuns op + uint32 (Z.quot (len v) 16) + sumRuns vs)
        with (numRuns op + sumRuns vs + uint32 (Z.quot (len v) 16)) by lia.
      rewrite uint32_add_r. f_equal. lia.
Qed.

Lemma sumRuns_whole vs :
  (forall v, In v vs -> len v mod 16 = 0) ->
  sumRuns vs = len (List.concat vs) / 16.
Proof.
  induction vs as [|v vs IH]; intros H; cbn [List.concat]; rewrite ?sumRuns_cons.
  - reflexivity.
  - rewrite IH by (intros; apply H; now right).
    rewrite len_app. pose proof (H v (or_introl eq_refl)) as Hv.
    pose proof (len_nonneg v). pose proof (len_nonneg (List.concat vs)).
    rewrite Z.quot_div_nonneg by lia.
    Z.div_mod_to_equations. lia.
Qed.

Section SparseVolume.
Context {C : Collaborators}.

(** C6 (as amended).  When the small-data store answers, the blob of
    [GetSparseVol] is a header of 12 bytes, then the values matched by the
    scan, one after the other.  The header is the payload descriptor with
    no flag set, the number of axes 3, the axis of the runs 0, a reserved 0,
    the number of voxels left at 0 and the number of runs, both
    little-endian on 32 bits.  The number of runs is the sum, modulo 2^32,
    of the whole numbers of 16-byte records of the matched values; it is
    the total length divided by 16 when every value is a whole number of
    records and the quotient is below 2^32. *)
Theorem GetSparseVol_blob : forall w label store,
  smalldata w = Some store -> fst (nextFault w) = false ->
  let vs := matchedRuns store label in
  let runs := uint32 (sumRuns vs) in
  fst (fst (GetSparseVol w label)) =
    Some ([byte.of_Z 0; byte.of_Z 3; byte.of_Z 0; byte.of_Z 0]
            ++ le_split 4 0 ++ le_split 4 runs ++ List.concat vs) /\
  snd (fst (GetSparseVol w label)) = None /\
  ((forall v, In v vs -> len v mod 16 = 0) ->
   len (List.concat vs) / 16 < 2 ^ 32 ->
   runs = len (List.concat vs) / 16).
Proof.
  intros w label store Hs Hf vs runs.
  unfold GetSparseVol, ProcessRange. rewrite Hs.
  destruct (nextFault w) as [f w1]; cbn [fst] in Hf. subst f.
  fold (matchedRuns store label). fold vs.
  destruct (fold_sparseVolChunk vs
              {| encoding := sparseVolHeader; numBlocks := 0; numRuns := 0 |})
    as (E & N); [cbn [numRuns]; lia|].
  cbn [encoding numRuns] in E, N. rewrite Z.add_0_l in N. fold runs in N.
  cbn [fst snd]. rewrite E, N. repeat split.
  intros Hw Hlt. unfold runs. rewrite (sumRuns_whole vs Hw).
  unfold uint32. apply Z.mod_small. split; [|exact Hlt].
  apply Z.div_pos; [apply len_nonneg | lia].
Qed.

End SparseVolume.

Lemma GetSparseVol_blob_witness :
  fst (fst (GetSparseVol (C := Demo.collaborators)
     {| bigdata := Some [];
        smalldata := Some [ (NewLabelSpatialMapIndex (C := Demo.collaborators) 7
                               (repeat (byte.of_Z 0) 12), Demo.run 5 ++ Demo.run 6) ];
        batching := true; faults := []; trace := [] |} 7)) =
  Some ([byte.of_Z 0; byte.of_Z 3; byte.of_Z 0; byte.of_Z 0]
          ++ le_split 4 0 ++ le_split 4 2 ++ Demo.run 5 ++ Demo.run 6).
Proof.
  exact (proj1 (GetSparseVol_blob (C := Demo.collaborators)
     {| bigdata := Some [];
        smalldata := Some [ (NewLabelSpatialMapIndex (C := Demo.collaborators) 7
                               (repeat (byte.of_Z 0) 12), Demo.run 5 ++ Demo.run 6) ];
        batching := true; faults := []; trace := [] |} 7 _ eq_refl eq_refl)).
Defined.

(** C6, as first stated, fails: with one value of 16 bytes stored for
    label 7 the blob has 28 bytes, and the value starts at byte 12: the
    header has 12 bytes, not 16. *)
Lemma GetSparseVol_header_is_12_bytes :
  match fst (fst (GetSparseVol (C := Demo.collaborators)
     {| bigdata := Some [];
        smalldata := Some [ (NewLabelSpatialMapIndex (C := Demo.collaborators) 7
                               (repeat (byte.of_Z 0) 12), Demo.run 5) ];
        batching := true; faults := []; trace := [] |} 7)) with
  | Some blob =>
      len blob = 28 /\ skipn 12 blob = Demo.run 5 /\
      le_combine (firstn 4 (skipn 8 blob)) = 1
  | None => False
  end.
Proof. vm_compute. repeat split. Qed.

(* ================================================================== *)
(** ** The order of the keys                                           *)
(* ================================================================== *)

Lemma byte_compare_refl x : byte.compare x x = Eq.
Proof. unfold byte.compare. apply Z.compare_refl. Qed.

Lemma byte_compare_eq x y : byte.compare x y = Eq -> x = y.
Proof.
  unfold byte.compare. intros H. apply Z.compare_eq in H.
  now apply byte.unsigned_inj.
Qed.

Lemma byte_compare_of_Z a b :
  byte.compare (byte.of_Z a) (byte.of_Z b) = (a mod 256 ?= b mod 256).
Proof. unfold byte.compare. now rewrite !byte.unsigned_of_Z. Qed.

(** Keys that start with strings of the same length are compared on these
    strings first. *)
Lemma compare_app a : forall a' b b',
  List.length a = List.length a' ->
  storage.compare (a ++ b) (a' ++ b') =
  match storage.compare a a' with
  | Eq => storage.compare b b'
  | c => c
  end.
Proof.
  induction a as [|x a IH]; intros [|y a'] b b' H; try discriminate H.
  - reflexivity.
  - cbn [app storage.compare]. destruct (byte.compare x y); try reflexivity.
    apply IH. now injection H.
Qed.

Lemma compare_high_low a b :
  0 <= a -> 0 <= b ->
  match a / 256 ?= b / 256 with
  | Eq => a mod 256 ?= b mod 256
  | c => c
  end = (a ?= b).
Proof.
  intros Ha Hb. symmetry.
  destruct (Z.compare_spec (a / 256) (b / 256)) as [E|E|E].
  - destruct (Z.compare_spec (a mod 256) (b mod 256)) as [F|F|F].
    + apply Z.compare_eq_iff. Z.div_mod_to_equations. lia.
    + apply Z.compare_lt_iff. Z.div_mod_to_equations. lia.
    + apply Z.compare_gt_iff. Z.div_mod_to_equations. lia.
  - apply Z.compare_lt_iff. Z.div_mod_to_equations. lia.
  - apply Z.compare_gt_iff. Z.div_mod_to_equations. lia.
Qed.

(** Big-endian encodings on [n] bytes are ordered as the numbers are. *)
Lemma compare_big_endian n : forall a b,
  0 <= a < 2 ^ (8 * Z.of_nat n) -> 0 <= b < 2 ^ (8 * Z.of_nat n) ->
  storage.compare (rev (le_split n a)) (rev (le_split n b)) = (a ?= b).
Proof.
  induction n as [|n IH]; intros a b Ha Hb.
  - change (2 ^ (8 * Z.of_nat 0)) with 1 in Ha, Hb.
    assert (a = 0) by lia. assert (b = 0) by lia. subst. reflexivity.
  - change (le_split (S n) a) with (byte.of_Z a :: le_split n (Z.shiftr a 8)).
    change (le_split (S n) b) with (byte.of_Z b :: le_split n (Z.shiftr b 8)).
    cbn [rev].
    rewrite compare_app by (now rewrite !length_rev, !length_le_split).
    rewrite !Z.shiftr_div_pow2 by lia. change (2 ^ 8) with 256.
    assert (P : 2 ^ (8 * Z.of_nat (S n)) = 256 * 2 ^ (8 * Z.of_nat n)).
    { replace (8 * Z.of_nat (S n)) with (8 + 8 * Z.of_nat n) by lia.
      rewrite Z.pow_add_r by lia. reflexivity. }
    rewrite P in Ha, Hb.
    rewrite IH.
    + cbn [storage.compare]. rewrite byte_compare_of_Z.
      rewrite <- (compare_high_low a b) by lia.
      destruct (a / 256 ?= b / 256); try reflexivity.
      now destruct (a mod 256 ?= b mod 256).
    + split; [apply Z.div_pos; lia | apply Z.div_lt_upper_bound; lia].
    + split; [apply Z.div_pos; lia | apply Z.div_lt_upper_bound; lia].
Qed.

Lemma length_PutUint64 z : List.length (PutUint64 z) = 8%nat.
Proof. unfold PutUint64. now rewrite length_rev, length_le_split. Qed.

Lemma compare_PutUint64 a b :
  isUint64 a -> isUint64 b ->
  storage.compare (PutUint64 a) (PutUint64 b) = (a ?= b).
Proof. intros Ha Hb. unfold PutUint64. now apply compare_big_endian. Qed.

Lemma firstn_app_exact {A} (a b : list A) n :
  List.length a = n -> firstn n (a ++ b) = a.
Proof.
  intros <-. induction a as [|x a IH]; cbn [List.length firstn app].
  - now destruct b.
  - now rewrite IH.
Qed.

Lemma skipn_app_exact {A} (a b : list A) n :
  List.length a = n -> skipn n (a ++ b) = b.
Proof.
  intros <-. induction a as [|x a IH]; cbn [List.length skipn app]; auto.
Qed.

Lemma Uint64_PutUint64 z rest : isUint64 z -> Uint64 (PutUint64 z ++ rest) = z.
Proof.
  intros Hz. unfold Uint64.
  rewrite firstn_app_exact by apply length_PutUint64.
  unfold PutUint64. rewrite rev_involutive, le_combine_split.
  apply Z.mod_small. exact Hz.
Qed.

Section SizeKeys.
Context {C : Collaborators}.

(** Size index keys are ordered by count, then by label. *)
Lemma compare_sizeKeys size label size' label' :
  isUint64 size -> isUint64 label -> isUint64 size' -> isUint64 label' ->
  storage.compare (NewLabelSizesIndex size label) (NewLabelSizesIndex size' label') =
  match size ?= size' with
  | Eq => label ?= label'
  | c => c
  end.
Proof.
  intros H1 H2 H3 H4. unfold NewLabelSizesIndex. cbn [storage.compare].
  rewrite byte_compare_refl, compare_app by (now rewrite !length_PutUint64).
  now rewrite !compare_PutUint64.
Qed.

Lemma entryOfKey_sizeKey size label :
  isUint64 size -> isUint64 label ->
  entryOfKey (NewLabelSizesIndex size label) = (size, label).
Proof.
  intros H1 H2. unfold entryOfKey, NewLabelSizesIndex. f_equal.
  - cbn [skipn]. now apply Uint64_PutUint64.
  - change (skipn 9 (KeyLabelSizes :: PutUint64 size ++ PutUint64 label))
      with (skipn 8 (PutUint64 size ++ PutUint64 label)).
    rewrite skipn_app_exact by apply length_PutUint64.
    rewrite <- (app_nil_r (PutUint64 label)).
    now apply Uint64_PutUint64.
Qed.

Lemma LabelFromLabelSizesKey_sizeKey size label :
  LabelFromLabelSizesKey (NewLabelSizesIndex size label) =
  Some (snd (entryOfKey (NewLabelSizesIndex size label))).
Proof.
  unfold LabelFromLabelSizesKey, NewLabelSizesIndex, len.
  cbn [List.length]. rewrite length_app, !length_PutUint64. reflexivity.
Qed.

End SizeKeys.

(* ================================================================== *)
(** ** Puts and commits keep a store ordered                           *)
(* ================================================================== *)

Lemma compare_eq a : forall b, storage.compare a b = Eq -> a = b.
Proof.
  induction a as [|x a IH]; intros [|y b]; cbn [storage.compare];
    try discriminate; [reflexivity|].
  destruct (byte.compare x y) eqn:E; try discriminate.
  intros H. apply byte_compare_eq in E. apply IH in H. now subst.
Qed.

Lemma compare_antisym a : forall b,
  storage.compare b a = CompOpp (storage.compare a b).
Proof.
  induction a as [|x a IH]; intros [|y b]; cbn [storage.compare]; try reflexivity.
  unfold byte.compare. rewrite (Z.compare_antisym (byte.unsigned x)).
  destruct (byte.unsigned x ?= byte.unsigned y); cbn [CompOpp]; auto.
Qed.

Lemma lt_trans a : forall b c, storage.lt a b -> storage.lt b c -> storage.lt a c.
Proof.
  unfold storage.lt.
  induction a as [|x a IH]; intros [|y b] [|z c]; cbn [storage.compare];
    try discriminate; try reflexivity.
  unfold byte.compare.
  destruct (Z.compare_spec (byte.unsigned x) (byte.unsigned y));
    destruct (Z.compare_spec (byte.unsigned y) (byte.unsigned z));
    destruct (Z.compare_spec (byte.unsigned x) (byte.unsigned z));
    try discriminate; try reflexivity; try lia.
  apply IH.
Qed.

Lemma In_kvPut k v s x : In x (kvPut k v s) -> x = (k, v) \/ In x s.
Proof.
  induction s as [|[k' v'] s IH]; cbn [kvPut].
  - intros [<-|[]]. now left.
  - destruct (storage.compare k k').
    + intros [<-|H]; [now left | right; now right].
    + intros [<-|H]; [now left | now right].
    + intros [<-|H]; [right; now left|].
      destruct (IH H); [now left | right; now right].
Qed.

Lemma kvPut_ordered k v s : ordered s -> ordered (kvPut k v s).
Proof.
  unfold ordered. induction 1 as [|[k' v'] s Hs IH Hf]; cbn [kvPut].
  - repeat constructor.
  - rewrite Forall_forall in Hf.
    destruct (storage.compare k k') eqn:E.
    + apply compare_eq in E. subst k'.
      constructor; [exact Hs | now apply Forall_forall].
    + constructor; [constructor; [exact Hs | now apply Forall_forall]|].
      constructor; [exact E|].
      apply Forall_forall. intros x Hx. cbn [fst].
      apply (lt_trans k k'); [exact E | now apply Hf].
    + constructor; [exact IH|].
      apply Forall_forall. intros x Hx. apply In_kvPut in Hx.
      destruct Hx as [->|Hx]; [|now apply Hf].
      unfold storage.lt. cbn [fst]. now rewrite compare_antisym, E.
Qed.

Lemma applyBatch_ordered b s : ordered s -> ordered (applyBatch b s).
Proof.
  unfold applyBatch. generalize (rev b). intros l. revert s.
  induction l as [|[k v] l IH]; intros s H; cbn [fold_left fst snd].
  - exact H.
  - apply IH. now apply kvPut_ordered.
Qed.

(** Whatever its outcome, a commit leaves the small-data store ordered. *)
Lemma Commit_ordered b w s :
  smalldata w = Some s -> ordered s ->
  exists s', smalldata (snd (Commit b w)) = Some s' /\ ordered s'.
Proof.
  intros Hs Ho. unfold Commit. pose proof (smalldata_nextFault w) as F.
  destruct (nextFault w) as [f w1]; cbn [snd] in F. rewrite Hs in F.
  destruct f; cbn [snd emit smalldata].
  - exists s. now split.
  - rewrite F. cbn [snd emit setSmall smalldata].
    eexists. split; [reflexivity | now apply applyBatch_ordered].
Qed.

(* ================================================================== *)
(** ** Labels by size                                                  *)
(* ================================================================== *)

Lemma StronglySorted_filter {A} (R : A -> A -> Prop) (p : A -> bool) l :
  StronglySorted R l -> StronglySorted R (filter p l).
Proof.
  induction 1 as [|a l Hs IH Hf]; cbn [filter].
  - constructor.
  - destruct (p a); [|exact IH].
    constructor; [exact IH|].
    apply Forall_forall. intros x Hx. apply filter_In in Hx.
    rewrite Forall_forall in Hf. now apply Hf.
Qed.

Lemma ordered_keys s : ordered s -> StronglySorted storage.lt (map fst s).
Proof.
  unfold ordered. induction 1 as [|a l Hs IH Hf]; cbn [map].
  - constructor.
  - constructor; [exact IH|].
    apply Forall_forall. intros k Hk. apply in_map_iff in Hk.
    destruct Hk as (kv & <- & Hin).
    rewrite Forall_forall in Hf. now apply Hf.
Qed.

Lemma map_fst_kvRange first last s :
  map fst (kvRange first last s) = filter (inRange first last) (map fst s).
Proof.
  unfold kvRange. induction s as [|[k v] s IH]; cbn [filter map fst].
  - reflexivity.
  - destruct (inRange first last k); cbn [map fst]; now rewrite IH.
Qed.

(** A key between two keys that start with the same byte starts with it. *)
Lemma inRange_tag tag f g k :
  inRange (tag :: f) (tag :: g) k = true -> hd_error k = Some tag.
Proof.
  unfold inRange, leb. destruct k as [|x k]; cbn [storage.compare].
  - discriminate.
  - unfold byte.compare at 2. rewrite (Z.compare_antisym (byte.unsigned tag)).
    fold (byte.compare tag x).
    destruct (byte.compare tag x) eqn:E; cbn [CompOpp].
    + apply byte_compare_eq in E. now subst.
    + rewrite andb_false_r. discriminate.
    + discriminate.
Qed.

Section SizeRange.
Context {C : Collaborators}.

Lemma isUint64_0 : isUint64 0.
Proof. unfold isUint64. lia. Qed.

Lemma isUint64_MaxUint64 : isUint64 MaxUint64.
Proof. unfold isUint64, MaxUint64. lia. Qed.

Lemma isUint64_upperBound maxSize : isUint64 maxSize -> isUint64 (upperBound maxSize).
Proof.
  intros H. unfold upperBound.
  destruct (negb (maxSize =? 0)); [exact H | apply isUint64_MaxUint64].
Qed.

(** A size index key lies in the range of a query exactly when its count
    lies between the bounds. *)
Lemma inRange_sizeKey lo hi size label :
  isUint64 lo -> isUint64 hi -> isUint64 size -> isUint64 label ->
  inRange (NewLabelSizesIndex lo 0) (NewLabelSizesIndex hi MaxUint64)
          (NewLabelSizesIndex size label) = true <->
  lo <= size <= hi.
Proof.
  intros Hlo Hhi Hs Hl. unfold inRange, leb.
  rewrite !compare_sizeKeys
    by (assumption || apply isUint64_0 || apply isUint64_MaxUint64).
  unfold isUint64, MaxUint64 in *.
  destruct (Z.compare_spec lo size) as [E|E|E];
    destruct (Z.compare_spec size hi) as [F|F|F];
    try destruct (Z.compare_spec 0 label);
    try destruct (Z.compare_spec label (2 ^ 64 - 1));
    cbn [andb]; split; intros X; try discriminate X; try reflexivity; lia.
Qed.

Lemma lt_sizeKeys size label size' label' :
  isUint64 size -> isUint64 label -> isUint64 size' -> isUint64 label' ->
  storage.lt (NewLabelSizesIndex size label) (NewLabelSizesIndex size' label') ->
  entryLt (size, label) (size', label').
Proof.
  intros H1 H2 H3 H4. unfold storage.lt, entryLt.
  rewrite compare_sizeKeys by assumption. cbn [fst snd].
  destruct (Z.compare_spec size size') as [E|E|E]; intros H.
  - right. split; [exact E|]. now apply Z.compare_lt_iff.
  - now left.
  - discriminate H.
Qed.

Lemma labelsFromKeys_sizeKeys keys :
  Forall isSizeKey keys ->
  labelsFromKeys keys = Some (map (fun k => snd (entryOfKey k)) keys).
Proof.
  induction 1 as [|k keys (size & label & H1 & H2 & ->) Hf IH];
    cbn [labelsFromKeys map].
  - reflexivity.
  - now rewrite LabelFromLabelSizesKey_sizeKey, IH.
Qed.

Lemma sorted_entries keys :
  StronglySorted storage.lt keys -> Forall isSizeKey keys ->
  StronglySorted entryLt (map entryOfKey keys).
Proof.
  induction 1 as [|k keys Hs IH Hlt]; intros Hk; cbn [map].
  - constructor.
  - inversion Hk as [|? ? (size & label & H1 & H2 & ->) Hk']; subst.
    constructor; [now apply IH|].
    apply Forall_forall. intros e He. apply in_map_iff in He.
    destruct He as (k' & <- & Hin).
    rewrite Forall_forall in Hlt, Hk'.
    destruct (Hk' k' Hin) as (size' & label' & H3 & H4 & ->).
    rewrite !entryOfKey_sizeKey by assumption.
    apply lt_sizeKeys; try assumption. now apply Hlt.
Qed.

(** The keys read by [GetSizeRange] are size index keys. *)
Lemma keys_in_range_sizeKeys store lo hi :
  sizeIndexed store ->
  Forall isSizeKey
    (filter (inRange (NewLabelSizesIndex lo 0) (NewLabelSizesIndex hi MaxUint64))
            (map fst store)).
Proof.
  intros Hi. apply Forall_forall. intros k Hk. apply filter_In in Hk.
  destruct Hk as (Hin & Hr). apply (Hi k Hin).
  unfold NewLabelSizesIndex in Hr. now apply inRange_tag in Hr.
Qed.

(** C7.  With [maxSize = 0] standing for no upper bound, [GetSizeRange]
    reads once the keys between the key of [(minSize, 0)] and the key of
    [(upper bound, MaxUint64)], and returns, as a JSON list and without
    error, the labels of exactly the entries of the size index whose count
    lies between the bounds, in ascending order of count, then label; when
    no entry lies in the range the list is empty. *)
Theorem GetSizeRange_labels : forall w store minSize maxSize,
  smalldata w = Some store -> fst (nextFault w) = false ->
  ordered store -> sizeIndexed store ->
  isUint64 minSize -> isUint64 maxSize ->
  exists hits : list (Z * Z),
    GetSizeRange w minSize maxSize =
      (jsonMarshal (map snd hits), None, snd (nextFault w)) /\
    map (fun e => NewLabelSizesIndex (fst e) (snd e)) hits =
      map fst (kvRange (NewLabelSizesIndex minSize 0)
                       (NewLabelSizesIndex (upperBound maxSize) MaxUint64) store) /\
    StronglySorted entryLt hits /\
    (forall size label, isUint64 size -> isUint64 label ->
       (In (size, label) hits <->
        In (NewLabelSizesIndex size label) (map fst store) /\
        minSize <= size <= upperBound maxSize)) /\
    (hits = [] ->
     GetSizeRange w minSize maxSize = ("[]"%string, None, snd (nextFault w))).
Proof.
  intros w store minSize maxSize Hs Hf Ho Hi Hmin Hmax.
  pose proof (isUint64_upperBound maxSize Hmax) as Hup.
  set (first := NewLabelSizesIndex minSize 0).
  set (last := NewLabelSizesIndex (upperBound maxSize) MaxUint64).
  set (keys := filter (inRange first last) (map fst store)).
  pose proof (keys_in_range_sizeKeys store minSize (upperBound maxSize) Hi) as Hk.
  fold first last keys in Hk.
  assert (R : GetSizeRange w minSize maxSize =
              (jsonMarshal (map snd (map entryOfKey keys)), None, snd (nextFault w))).
  { unfold GetSizeRange, KeysInRange. rewrite Hs.
    fold (upperBound maxSize). fold first last.
    destruct (nextFault w) as [f w1]; cbn [fst snd] in *. subst f.
    rewrite map_fst_kvRange. fold keys.
    rewrite (labelsFromKeys_sizeKeys keys Hk). now rewrite map_map. }
  exists (map entryOfKey keys). split; [exact R|]. split; [|split; [|split]].
  - rewrite map_fst_kvRange. fold keys. rewrite map_map.
    rewrite <- (map_id keys) at 2. apply map_ext_in. intros k Hin.
    rewrite Forall_forall in Hk. destruct (Hk k Hin) as (size & label & H1 & H2 & ->).
    now rewrite entryOfKey_sizeKey.
  - apply sorted_entries; [|exact Hk].
    apply StronglySorted_filter. now apply ordered_keys.
  - intros size label H1 H2. split.
    + intros Hin. apply in_map_iff in Hin. destruct Hin as (k & E & Hin).
      rewrite Forall_forall in Hk.
      destruct (Hk k Hin) as (size' & label' & H3 & H4 & ->).
      rewrite entryOfKey_sizeKey in E by assumption.
      injection E as -> ->.
      apply filter_In in Hin. destruct Hin as (Hin & Hr).
      split; [exact Hin|]. now apply inRange_sizeKey in Hr.
    + intros (Hin & Hr). apply in_map_iff.
      exists (NewLabelSizesIndex size label). split.
      * now apply entryOfKey_sizeKey.
      * apply filter_In. split; [exact Hin|]. now apply inRange_sizeKey.
  - intros E. rewrite R, E. reflexivity.
Qed.

End SizeRange.

Lemma GetSizeRange_labels_witness :
  (exists hits : list (Z * Z),
     GetSizeRange (C := Demo.collaborators) Demo.sized 4 10 =
       (jsonMarshal (map snd hits), None, Demo.sized) /\
     StronglySorted entryLt hits /\
     (In (5, 11) hits /\ In (9, 13) hits /\ ~ In (3, 12) hits)) /\
  fst (fst (GetSizeRange (C := Demo.collaborators) Demo.sized 4 10)) = "[11,13]"%string /\
  fst (fst (GetSizeRange (C := Demo.collaborators) Demo.sized 20 0)) = "[]"%string.
Proof.
  split; [|split; reflexivity].
  destruct (GetSizeRange_labels (C := Demo.collaborators) Demo.sized Demo.sizes 4 10)
    as (hits & R & _ & S & M & _).
  - reflexivity.
  - reflexivity.
  - unfold ordered, Demo.sizes. repeat constructor.
  - intros k [<-|[<-|[<-|[]]]] _;
      [exists 3, 12 | exists 5, 11 | exists 9, 13];
      unfold isUint64; repeat split; lia.
  - unfold isUint64; lia.
  - unfold isUint64; lia.
  - exists hits. split; [exact R|]. split; [exact S|].
    assert (U : forall z, 0 <= z < 100 -> isUint64 z) by (unfold isUint64; lia).
    split; [|split].
    + apply M; [apply U; lia | apply U; lia |].
      split; [right; left; reflexivity | unfold upperBound; cbn; lia].
    + apply M; [apply U; lia | apply U; lia |].
      split; [right; right; left; reflexivity | unfold upperBound; cbn; lia].
    + intros H. apply M in H; [|apply U; lia | apply U; lia].
      destruct H as (_ & H). lia.
Defined.

(* ================================================================== *)
(** ** What the consumers do and what they leave alone                 *)
(* ================================================================== *)

Lemma events_nextFault w : events (snd (nextFault w)) = events w.
Proof. unfold events. now rewrite trace_nextFault. Qed.

Lemma bigdata_nextFault w : bigdata (snd (nextFault w)) = bigdata w.
Proof. unfold nextFault. destruct (faults w); reflexivity. Qed.

Lemma count_events p w w' es :
  events w' = events w ++ es -> count p w' = count p w + len (filter p es).
Proof.
  unfold events, count, len. intros H.
  apply (f_equal (@rev Event)) in H. rewrite rev_app_distr, !rev_involutive in H.
  rewrite H, filter_app, length_app, filter_rev, length_rev. lia.
Qed.

Lemma filter_none {A} (p q : A -> bool) l :
  forallb q l = true -> (forall x, q x = true -> p x = false) -> filter p l = [].
Proof.
  intros Hq Hpq. induction l as [|x l IH]; cbn [filter forallb] in *.
  - reflexivity.
  - apply andb_true_iff in Hq. destruct Hq as (Hx & Hl).
    rewrite (Hpq x Hx). now apply IH.
Qed.

(** A commit adds one event and leaves the big-data store alone. *)
Lemma Commit_events b w :
  exists ok, events (snd (Commit b w)) = events w ++ [EvCommit ok] /\
             bigdata (snd (Commit b w)) = bigdata w.
Proof.
  unfold Commit. pose proof (events_nextFault w) as E.
  pose proof (bigdata_nextFault w) as B.
  destruct (nextFault w) as [f w1]; cbn [snd] in E, B.
  destruct f; [|destruct (smalldata w1)]; cbn [snd]; eexists;
    rewrite events_emit; cbn [emit setSmall bigdata];
    (split; [f_equal; first [exact E | reflexivity] | exact B]).
Qed.

Section Frames.
Context {C : Collaborators}.

Lemma ComputeSizes_body_frame st w chunk :
  exists es,
    events (outcomeWorld (ComputeSizes_body st w chunk)) = events w ++ es /\
    forallb sizesEvent es = true /\
    bigdata (outcomeWorld (ComputeSizes_body st w chunk)) = bigdata w.
Proof.
  unfold ComputeSizes_body. destruct chunk as [c|].
  - destruct (UnmarshalBinary (V c)) as [r|].
    + destruct (Sizes.notFirst st && negb (Op c =? Sizes.curLabel st)).
      * unfold BatchPut.
        destruct (Z.rem (int (Sizes.putsInBatch st + 1)) BATCH_SIZE =? 0).
        -- match goal with
           | |- context [Commit ?b ?x] =>
               destruct (Commit_events b x) as (ok & E & B);
               destruct (Commit b x) as [[err|] w2]
           end; cbn [snd outcomeWorld] in *; unfold info;
             rewrite !events_emit, E, events_emit, <- !app_assoc;
             eexists; (split; [reflexivity|]); split;
             try reflexivity; cbn [emit bigdata]; exact B.
        -- cbn [outcomeWorld]. rewrite events_emit. eexists.
           split; [reflexivity|]. split; reflexivity.
      * cbn [outcomeWorld]. exists []. rewrite app_nil_r. repeat split.
    + cbn [outcomeWorld]. unfold info. rewrite events_emit. eexists.
      split; [reflexivity|]. split; reflexivity.
  - unfold BatchPut.
    match goal with
    | |- context [Commit ?b ?x] =>
        destruct (Commit_events b x) as (ok & E & B);
        destruct (Commit b x) as [[err|] w2]
    end; cbn [snd outcomeWorld] in *; unfold info;
      rewrite ?events_emit, E, events_emit, <- !app_assoc;
      eexists; (split; [reflexivity|]); split;
      try reflexivity; cbn [emit bigdata]; exact B.
Qed.

Lemma ComputeSizes_body_exit st w chunk e w' :
  ComputeSizes_body st w chunk = Return e w' ->
  e = AtSentinel \/ e = DecodeFailed \/ e = CommitFailed.
Proof.
  unfold ComputeSizes_body. destruct chunk as [c|].
  - destruct (UnmarshalBinary (V c)) as [r|]; [|intros H; inversion H; auto].
    destruct (Sizes.notFirst st && negb (Op c =? Sizes.curLabel st));
      [|discriminate].
    unfold BatchPut.
    destruct (Z.rem (int (Sizes.putsInBatch st + 1)) BATCH_SIZE =? 0);
      [|discriminate].
    destruct (Commit _ _) as [[err|] w2]; intros H; inversion H; auto.
  - unfold BatchPut. destruct (Commit _ _) as [[err|] w2];
      intros H; inversion H; auto.
Qed.

Lemma ComputeSizes_loop_frame ch : forall st w e w',
  ComputeSizes_loop st w ch = (e, w') ->
  (exists es, events w' = events w ++ es /\ forallb sizesEvent es = true) /\
  bigdata w' = bigdata w /\
  (e = Blocked \/ e = AtSentinel \/ e = DecodeFailed \/ e = CommitFailed) /\
  (In None ch -> e <> Blocked).
Proof.
  induction ch as [|chunk ch IH]; intros st w e w'; cbn [ComputeSizes_loop].
  - intros H; inversion H; subst. split; [exists []; now rewrite app_nil_r|].
    repeat split; auto; try (intros []).
  - destruct (ComputeSizes_body_frame st w chunk) as (es & E & F & B).
    pose proof (ComputeSizes_body_exit st w chunk) as X.
    destruct (ComputeSizes_body st w chunk) as [st1 w1|e1 w1] eqn:Hb;
      cbn [outcomeWorld] in E, B.
    + intros H. destruct (IH _ _ _ _ H) as ((es' & E' & F') & B' & X' & N').
      split; [exists (es ++ es'); split;
              [rewrite E', E; symmetry; apply app_assoc
              | rewrite forallb_app, F, F'; reflexivity]|].
      split; [congruence|]. split; [exact X'|].
      intros [->|Hin]; [|auto].
      destruct (ComputeSizes_body_nil st w) as (w2 & B2 & _). congruence.
    + intros H; inversion H; subst.
      split; [exists es; now split|]. split; [exact B|].
      destruct (X _ _ eq_refl) as [->|[->| ->]]; split; auto; discriminate.
Qed.

End Frames.

Lemma smalldata_setBig s w : smalldata (setBig s w) = smalldata w.
Proof. reflexivity. Qed.

Section SurfaceFrames.
Context {C : Collaborators}.

Lemma computeAndSaveSurface_frame w vol :
  exists es,
    events (snd (computeAndSaveSurface w vol)) = events w ++ es /\
    forallb surfaceEvent es = true /\
    smalldata (snd (computeAndSaveSurface w vol)) = smalldata w.
Proof.
  unfold computeAndSaveSurface.
  assert (D : exists es,
            events (emit (EvSurface vol) w) = events w ++ es /\
            forallb surfaceEvent es = true /\
            smalldata (emit (EvSurface vol) w) = smalldata w)
    by (exists [EvSurface vol]; repeat split).
  destruct (SurfaceSerialization vol); [|exact D].
  destruct (bigdata (emit (EvSurface vol) w)); [|exact D].
  destruct (SerializeData b); [|exact D].
  unfold Put.
  pose proof (events_nextFault (emit (EvSurface vol) w)) as E.
  pose proof (smalldata_nextFault (emit (EvSurface vol) w)) as S.
  destruct (nextFault (emit (EvSurface vol) w)) as [f w1]; cbn [snd] in E, S.
  destruct f; cbn [snd].
  - exists [EvSurface vol]. rewrite E, S. repeat split.
  - exists [EvSurface vol; EvPut (NewLabelSurfaceIndex (Label vol)) b0].
    rewrite events_emit.
    change (events (setBig (kvPut (NewLabelSurfaceIndex (Label vol)) b0 k) w1))
      with (events w1).
    rewrite E, events_emit, <- app_assoc. cbn [emit smalldata].
    rewrite smalldata_setBig, S. repeat split.
Qed.

Lemma ComputeSurface_body_frame st w chunk :
  exists es,
    events (outcomeWorld (ComputeSurface_body st w chunk)) = events w ++ es /\
    forallb surfaceEvent es = true /\
    smalldata (outcomeWorld (ComputeSurface_body st w chunk)) = smalldata w.
Proof.
  assert (Z0 : exists es, events w = events w ++ es /\
                 forallb surfaceEvent es = true /\ smalldata w = smalldata w)
    by (exists []; rewrite app_nil_r; repeat split).
  assert (I : forall w1, (exists es, events w1 = events w ++ es /\
                 forallb surfaceEvent es = true /\ smalldata w1 = smalldata w) ->
              forall m, exists es, events (info m w1) = events w ++ es /\
                 forallb surfaceEvent es = true /\ smalldata (info m w1) = smalldata w).
  { intros w1 (es & E & F & S) m. exists (es ++ [EvInfo m]). unfold info.
    rewrite events_emit, E, <- app_assoc, forallb_app, F. repeat split. exact S. }
  pose proof (computeAndSaveSurface_frame w (Surface.curVol st)) as K.
  unfold ComputeSurface_body. destruct chunk as [c|].
  - destruct (negb (Op c =? Surface.curLabel st) || (Op c =? 0)).
    + destruct (Surface.notFirst st).
      * destruct (computeAndSaveSurface w (Surface.curVol st)) as [[err|] w1];
          cbn [snd] in K.
        -- cbn [outcomeWorld]. now apply I.
        -- destruct (AddRLEs _ _); cbn [outcomeWorld]; [exact K | now apply I].
      * destruct (AddRLEs _ _); cbn [outcomeWorld]; [exact Z0 | now apply I].
    + destruct (AddRLEs _ _); cbn [outcomeWorld]; [exact Z0 | now apply I].
  - destruct (Surface.notFirst st); [|exact Z0].
    destruct (computeAndSaveSurface w (Surface.curVol st)) as [[err|] w1];
      cbn [snd outcomeWorld] in *; [now apply I | exact K].
Qed.

Lemma ComputeSurface_loop_frame ch : forall st w e w',
  ComputeSurface_loop st w ch = (e, w') ->
  (exists es, events w' = events w ++ es /\ forallb surfaceEvent es = true) /\
  smalldata w' = smalldata w.
Proof.
  induction ch as [|chunk ch IH]; intros st w e w'; cbn [ComputeSurface_loop].
  - intros H; inversion H; subst. split; [exists []; now rewrite app_nil_r|].
    reflexivity.
  - destruct (ComputeSurface_body_frame st w chunk) as (es & E & F & S).
    destruct (ComputeSurface_body st w chunk) as [st1 w1|e1 w1];
      cbn [outcomeWorld] in E, S.
    + intros H. destruct (IH _ _ _ _ H) as ((es' & E' & F') & S').
      split; [exists (es ++ es'); split;
              [rewrite E', E; symmetry; apply app_assoc
              | rewrite forallb_app, F, F'; reflexivity]|].
      congruence.
    + intros H; inversion H; subst. split; [exists es; now split | exact S].
Qed.

(** The label of the volume being accumulated is the label of the last
    chunk; a finalize is made on the volume accumulated so far. *)
Lemma ComputeSurface_body_labels st w chunk :
  Label (Surface.curVol st) = Surface.curLabel st ->
  (finalized (outcomeWorld (ComputeSurface_body st w chunk)) = finalized w \/
   (Surface.notFirst st = true /\
    finalized (outcomeWorld (ComputeSurface_body st w chunk)) =
      finalized w ++ [Surface.curVol st])) /\
  (forall st' w', ComputeSurface_body st w chunk = Continue st' w' ->
     exists c, chunk = Some c /\ Label (Surface.curVol st') = Op c /\
               Surface.curLabel st' = Op c /\ Surface.notFirst st' = true).
Proof.
  intros Inv. unfold ComputeSurface_body.
  pose proof (finalized_computeAndSaveSurface w (Surface.curVol st)) as F.
  destruct chunk as [c|].
  - unfold AddRLEs.
    destruct (negb (Op c =? Surface.curLabel st) || (Op c =? 0)) eqn:B.
    + destruct (Surface.notFirst st) eqn:N.
      * destruct (computeAndSaveSurface w (Surface.curVol st)) as [[err|] w1];
          cbn [snd] in F.
        -- cbn [outcomeWorld]. unfold info.
           rewrite finalized_emit, app_nil_r. split; [right; now split|].
           intros st' w' H; discriminate H.
        -- destruct (UnmarshalBinary (V c)); cbn [outcomeWorld].
           ++ split; [right; now split|].
              intros st' w' H; injection H as <- <-. exists c. repeat split.
           ++ unfold info. rewrite finalized_emit, app_nil_r.
              split; [right; now split|]. intros st' w' H; discriminate H.
      * destruct (UnmarshalBinary (V c)); cbn [outcomeWorld].
        -- split; [now left|].
           intros st' w' H; injection H as <- <-. exists c. repeat split.
        -- unfold info. rewrite finalized_emit, app_nil_r.
           split; [now left|]. intros st' w' H; discriminate H.
    + apply orb_false_iff in B. destruct B as (B & _).
      apply negb_false_iff, Z.eqb_eq in B.
      destruct (UnmarshalBinary (V c)); cbn [outcomeWorld].
      * split; [now left|].
        intros st' w' H; injection H as <- <-. exists c.
        cbn [Surface.curVol Surface.curLabel Surface.notFirst Label].
        repeat split; congruence.
      * unfold info. rewrite finalized_emit, app_nil_r.
        split; [now left|]. intros st' w' H; discriminate H.
  - destruct (Surface.notFirst st) eqn:N.
    + destruct (computeAndSaveSurface w (Surface.curVol st)) as [[err|] w1];
        cbn [snd outcomeWorld] in *.
      * unfold info. rewrite finalized_emit, app_nil_r.
        split; [right; now split|]. intros st' w' H; discriminate H.
      * split; [right; now split|]. intros st' w' H; discriminate H.
    + cbn [outcomeWorld]. split; [now left|]. intros st' w' H; discriminate H.
Qed.

Lemma ComputeSurface_loop_labels (seen : list Chunk) ch : forall st w e w',
  (forall c, In (Some c) ch -> In c seen) ->
  Label (Surface.curVol st) = Surface.curLabel st ->
  (Surface.notFirst st = true ->
   exists c, In c seen /\ Op c = Label (Surface.curVol st)) ->
  ComputeSurface_loop st w ch = (e, w') ->
  exists new, finalized w' = finalized w ++ new /\
    forall vol, In vol new -> exists c, In c seen /\ Op c = Label vol.
Proof.
  induction ch as [|chunk ch IH]; intros st w e w' Hs Inv Hn;
    cbn [ComputeSurface_loop].
  - intros H; inversion H; subst. exists []. rewrite app_nil_r.
    split; [reflexivity | intros vol []].
  - destruct (ComputeSurface_body_labels st w chunk Inv) as (F & K).
    assert (P : exists new0,
              finalized (outcomeWorld (ComputeSurface_body st w chunk)) =
                finalized w ++ new0 /\
              forall vol, In vol new0 -> exists c, In c seen /\ Op c = Label vol).
    { destruct F as [F|(N & F)].
      - exists []. rewrite app_nil_r. split; [exact F | intros vol []].
      - exists [Surface.curVol st]. split; [exact F|].
        intros vol [<-|[]]. now apply Hn. }
    destruct P as (new0 & F0 & L0).
    destruct (ComputeSurface_body st w chunk) as [st1 w1|e1 w1];
      cbn [outcomeWorld] in F0.
    + destruct (K st1 w1 eq_refl) as (c & -> & K1 & K2 & K3).
      intros H.
      destruct (IH st1 w1 e w') as (new1 & F1 & L1); try assumption.
      * intros c' Hin. apply Hs. now right.
      * congruence.
      * intros _. exists c. split; [apply Hs; now left | congruence].
      * exists (new0 ++ new1). split; [rewrite F1, F0; symmetry; apply app_assoc|].
        intros vol Hin. apply in_app_or in Hin. destruct Hin; auto.
    + intros H; inversion H; subst. exists new0. now split.
Qed.

End SurfaceFrames.

Section ConsumerProperties.
Context {C : Collaborators}.

(** X1.  When the small-data store can batch, [ComputeSizes] returns as
    soon as a nil chunk is in the channel, and on each of its ways out (the
    nil chunk, a chunk that does not decode, a failed commit) the deferred
    [wg.Done()] has run once; while it waits for a chunk it has not run.
    When the store cannot batch, the function returns before the deferred
    call is set up: [wg.Done()] never runs and nothing is put. *)
Theorem ComputeSizes_signals_once : forall w ch,
  (batching w = true ->
     (In None ch -> fst (ComputeSizes w ch) <> Blocked) /\
     (fst (ComputeSizes w ch) <> Blocked ->
        (fst (ComputeSizes w ch) = AtSentinel \/
         fst (ComputeSizes w ch) = DecodeFailed \/
         fst (ComputeSizes w ch) = CommitFailed) /\
        count isWgDone (snd (ComputeSizes w ch)) = count isWgDone w + 1) /\
     (fst (ComputeSizes w ch) = Blocked ->
        count isWgDone (snd (ComputeSizes w ch)) = count isWgDone w)) /\
  (batching w = false ->
     fst (ComputeSizes w ch) = NoBatcher /\
     count isWgDone (snd (ComputeSizes w ch)) = count isWgDone w /\
     count isBatchPut (snd (ComputeSizes w ch)) = count isBatchPut w /\
     smalldata (snd (ComputeSizes w ch)) = smalldata w).
Proof.
  intros w ch. unfold ComputeSizes. split; intros Hb; rewrite Hb.
  - destruct (ComputeSizes_loop Sizes.init w ch) as [e w'] eqn:L.
    destruct (ComputeSizes_loop_frame ch _ _ _ _ L) as ((es & E & F) & _ & X & N).
    assert (D : count isWgDone w' = count isWgDone w).
    { rewrite (count_events _ _ _ _ E), (filter_none isWgDone sizesEvent es F).
      - unfold len; simpl; lia.
      - now intros [].  }
    destruct X as [->|[->|[->| ->]]]; cbn [fst snd]; rewrite ?count_emit;
      cbn [isWgDone];
      (split; [intros Hin; try discriminate; now apply N|]);
      (split; [intros Hne; try congruence; split; auto; lia
              | intros He; try discriminate He; exact D]).
  - cbn [fst snd]. rewrite !count_emit. cbn [isWgDone isBatchPut].
    repeat split; lia.
Qed.

(** X6.  Every volume [ComputeSurface] finalizes carries the label of a
    chunk of the stream: no surface is computed or stored for a label the
    stream does not hold. *)
Theorem ComputeSurface_finalizes_stream_labels : forall w ch,
  exists new,
    finalized (snd (ComputeSurface w ch)) = finalized w ++ new /\
    forall vol, In vol new -> exists c, In (Some c) ch /\ Op c = Label vol.
Proof.
  intros w ch. unfold ComputeSurface.
  destruct (ComputeSurface_loop Surface.init w ch) as [e w'] eqn:L.
  set (seen := flat_map (fun x => match x with Some c => [c] | None => [] end) ch).
  assert (Hseen : forall c, In c seen <-> In (Some c) ch).
  { intros c. unfold seen. rewrite in_flat_map. split.
    - intros ([c'|] & Hin & Hc); [destruct Hc as [->|[]]; exact Hin | destruct Hc].
    - intros Hin. exists (Some c). split; [exact Hin | now left]. }
  destruct (ComputeSurface_loop_labels seen ch Surface.init w e w')
    as (new & F & K).
  - intros c Hin. now apply Hseen.
  - reflexivity.
  - discriminate.
  - exact L.
  - exists new. split.
    + destruct e; cbn [snd]; rewrite ?finalized_emit, ?app_nil_r; exact F.
    + intros vol Hin. destruct (K vol Hin) as (c & Hc & E).
      exists c. split; [now apply Hseen | exact E].
Qed.

End ConsumerProperties.

Lemma ComputeSizes_signals_once_witness :
  fst (ComputeSizes (C := Demo.collaborators) Demo.world
         [Some {| Op := 4; V := [byte.of_Z 1] |}; None]) = DecodeFailed /\
  count isWgDone (snd (ComputeSizes (C := Demo.collaborators) Demo.world
         [Some {| Op := 4; V := [byte.of_Z 1] |}; None])) = 1.
Proof.
  destruct (ComputeSizes_signals_once (C := Demo.collaborators) Demo.world
              [Some {| Op := 4; V := [byte.of_Z 1] |}; None]) as (H & _).
  destruct (H eq_refl) as (_ & K & _).
  destruct K as (_ & D); [vm_compute; discriminate|].
  split; [reflexivity | exact D].
Defined.

(* ================================================================== *)
(** ** From the size computation to the size query                     *)
(* ================================================================== *)

Lemma applyBatch_cons k v b s : applyBatch ((k, v) :: b) s = kvPut k v (applyBatch b s).
Proof. unfold applyBatch. cbn [rev]. now rewrite fold_left_app. Qed.

Lemma applyPuts_snoc ks k s :
  applyPuts (ks ++ [k]) s = kvPut k EmptyValue (applyPuts ks s).
Proof. unfold applyPuts. now rewrite fold_left_app. Qed.

Lemma Commit_without_fault b w s :
  faults w = [] -> smalldata w = Some s ->
  Commit b w = (None, emit (EvCommit true) (setSmall (applyBatch b s) w)).
Proof.
  intros Hf Hs. rewrite (Commit_succeeds b w s); [| now rewrite nextFault_nil | exact Hs].
  now rewrite nextFault_nil.
Qed.

Lemma uint64_isUint64 z : isUint64 (uint64 z).
Proof. unfold isUint64, uint64. apply Z.mod_pos_bound. lia. Qed.

Lemma In_kvPut_same k v s : In k (map fst (kvPut k v s)).
Proof.
  induction s as [|[k' v'] s IH]; cbn [kvPut map fst].
  - now left.
  - destruct (storage.compare k k'); cbn [map fst];
      [now left | now left | now right].
Qed.

Lemma In_kvPut_other k k' v s : In k (map fst s) -> In k (map fst (kvPut k' v s)).
Proof.
  induction s as [|[k0 v0] s IH]; cbn [kvPut map fst]; [intros []|].
  destruct (storage.compare k' k0) eqn:E; cbn [map fst].
  - apply compare_eq in E. subst k0. intros [->|H]; [now left | now right].
  - intros H. now right.
  - intros [->|H]; [now left | right; now apply IH].
Qed.

Lemma In_applyPuts ks : forall s k,
  In k ks \/ In k (map fst s) -> In k (map fst (applyPuts ks s)).
Proof.
  unfold applyPuts.
  induction ks as [|k0 ks IH]; intros s k; cbn [fold_left].
  - intros [[]|H]; exact H.
  - intros [[->|H]|H]; apply IH.
    + right. apply In_kvPut_same.
    + now left.
    + right. now apply In_kvPut_other.
Qed.

Lemma keys_applyPuts ks : forall s k,
  In k (map fst (applyPuts ks s)) -> In k ks \/ In k (map fst s).
Proof.
  unfold applyPuts.
  induction ks as [|k0 ks IH]; intros s k; cbn [fold_left].
  - now right.
  - intros H. apply IH in H. destruct H as [H|H]; [left; now right|].
    apply in_map_iff in H. destruct H as ([k1 v1] & <- & H).
    apply In_kvPut in H. destruct H as [H|H].
    + injection H as -> ->. left. now left.
    + right. apply in_map_iff. now exists (k1, v1).
Qed.

Section SizesToQuery.
Context {C : Collaborators}.

(** With a store that never fails, what is committed and what waits in
    the batch make up, together, the entries put so far. *)
Lemma ComputeSizes_loop_store s0 base ch : forall st w w' s1 done,
  faults w = [] -> smalldata w = Some s1 ->
  batchPuts w = base ++ done ->
  applyBatch (Sizes.batch st) s1 = applyPuts done s0 ->
  ComputeSizes_loop st w ch = (AtSentinel, w') ->
  exists new, batchPuts w' = base ++ new /\
              smalldata w' = Some (applyPuts new s0) /\ faults w' = [].
Proof.
  induction ch as [|chunk ch IH]; intros st w w' s1 done Hf Hs Hp Ha;
    cbn [ComputeSizes_loop]; [discriminate|].
  unfold ComputeSizes_body. destruct chunk as [c|].
  - destruct (UnmarshalBinary (V c)) as [r|]; [|discriminate].
    destruct (Sizes.notFirst st && negb (Op c =? Sizes.curLabel st)).
    + unfold BatchPut.
      set (k := NewLabelSizesIndex (Sizes.curSize st) (Sizes.curLabel st)).
      assert (Hp1 : batchPuts (emit (EvBatchPut k EmptyValue) w) = base ++ done ++ [k])
        by (now rewrite batchPuts_emit, Hp, <- app_assoc).
      assert (Ha1 : applyBatch ((k, EmptyValue) :: Sizes.batch st) s1 =
                    applyPuts (done ++ [k]) s0)
        by (now rewrite applyBatch_cons, applyPuts_snoc, Ha).
      destruct (Z.rem (int (Sizes.putsInBatch st + 1)) BATCH_SIZE =? 0).
      * rewrite (Commit_without_fault _ _ s1) by assumption.
        apply (IH _ _ w' (applyBatch ((k, EmptyValue) :: Sizes.batch st) s1)
                  (done ++ [k])); try reflexivity; try assumption.
        now rewrite !batchPuts_emit, batchPuts_setSmall, !app_nil_r.
      * apply (IH _ _ w' s1 (done ++ [k])); assumption.
    + apply (IH _ _ w' s1 done); assumption.
  - unfold BatchPut.
    set (k := NewLabelSizesIndex (Sizes.curSize st) (Sizes.curLabel st)).
    rewrite (Commit_without_fault _ _ s1) by assumption.
    intros H; injection H as <-. exists (done ++ [k]).
    rewrite batchPuts_emit, batchPuts_setSmall, batchPuts_emit, Hp, app_nil_r,
      <- app_assoc.
    split; [reflexivity|]. split; [|exact Hf].
    cbn [emit setSmall smalldata].
    now rewrite applyBatch_cons, applyPuts_snoc, Ha.
Qed.

(** The keys put are keys of the size index when the labels of the chunks
    are 64-bit labels. *)
Lemma ComputeSizes_loop_keys base ch : forall st w e w' done,
  (forall c, In (Some c) ch -> isUint64 (Op c)) ->
  isUint64 (Sizes.curSize st) -> isUint64 (Sizes.curLabel st) ->
  batchPuts w = base ++ done -> Forall isSizeKey done ->
  ComputeSizes_loop st w ch = (e, w') ->
  exists new, batchPuts w' = base ++ new /\ Forall isSizeKey new.
Proof.
  induction ch as [|chunk ch IH]; intros st w e w' done Hl H1 H2 Hp Hk;
    cbn [ComputeSizes_loop].
  - intros H; injection H as <- <-. now exists done.
  - assert (K : isSizeKey (NewLabelSizesIndex (Sizes.curSize st) (Sizes.curLabel st)))
      by (exists (Sizes.curSize st), (Sizes.curLabel st);
          split; [exact H1 | split; [exact H2 | reflexivity]]).
    assert (Hk1 : Forall isSizeKey
                    (done ++ [NewLabelSizesIndex (Sizes.curSize st) (Sizes.curLabel st)]))
      by (apply Forall_app; split; [exact Hk | now constructor]).
    assert (Hl' : forall c, In (Some c) ch -> isUint64 (Op c))
      by (intros c' Hin; apply Hl; now right).
    unfold ComputeSizes_body. destruct chunk as [c|].
    + pose proof (Hl c (or_introl eq_refl)) as Hc.
      destruct (UnmarshalBinary (V c)) as [r|].
      * destruct (Sizes.notFirst st && negb (Op c =? Sizes.curLabel st)).
        -- unfold BatchPut.
           set (k := NewLabelSizesIndex (Sizes.curSize st) (Sizes.curLabel st)) in *.
           assert (Hp1 : batchPuts (emit (EvBatchPut k EmptyValue) w) =
                         base ++ done ++ [k])
             by (now rewrite batchPuts_emit, Hp, <- app_assoc).
           destruct (Z.rem (int (Sizes.putsInBatch st + 1)) BATCH_SIZE =? 0).
           ++ pose proof (batchPuts_Commit ((k, EmptyValue) :: Sizes.batch st)
                            (emit (EvBatchPut k EmptyValue) w)) as Pc.
              destruct (Commit _ _) as [[err|] w2]; cbn [snd] in Pc.
              ** intros H; injection H as <- <-. exists (done ++ [k]).
                 unfold info. rewrite batchPuts_emit, app_nil_r, Pc. now split.
              ** apply (IH _ _ e w' (done ++ [k])); try assumption.
                 --- apply uint64_isUint64.
                 --- now rewrite batchPuts_emit, app_nil_r, Pc.
           ++ apply (IH _ _ e w' (done ++ [k])); try assumption.
              apply uint64_isUint64.
        -- apply (IH _ _ e w' done); try assumption. apply uint64_isUint64.
      * intros H; injection H as <- <-. exists done.
        unfold info. rewrite batchPuts_emit, app_nil_r. now split.
    + unfold BatchPut.
      set (k := NewLabelSizesIndex (Sizes.curSize st) (Sizes.curLabel st)) in *.
      pose proof (batchPuts_Commit ((k, EmptyValue) :: Sizes.batch st)
                    (emit (EvBatchPut k EmptyValue) w)) as Pc.
      assert (Hp1 : batchPuts (emit (EvBatchPut k EmptyValue) w) = base ++ done ++ [k])
        by (now rewrite batchPuts_emit, Hp, <- app_assoc).
      destruct (Commit _ _) as [[err|] w2]; cbn [snd] in Pc;
        intros H; injection H as <- <-; exists (done ++ [k]);
        unfold info; rewrite ?batchPuts_emit, ?app_nil_r, Pc; now split.
Qed.

(** X2.  With a store that never fails, a run of [ComputeSizes] that
    reaches the nil chunk leaves in the small-data store the entries it has
    put, applied in the order of the puts, and nothing else: no entry is
    lost between two batches. *)
Theorem ComputeSizes_commits_every_put : forall w s ch w',
  batching w = true -> faults w = [] -> smalldata w = Some s ->
  ComputeSizes w ch = (AtSentinel, w') ->
  exists new, batchPuts w' = batchPuts w ++ new /\
              smalldata w' = Some (applyPuts new s).
Proof.
  intros w s ch w' Hb Hf Hs. unfold ComputeSizes. rewrite Hb.
  destruct (ComputeSizes_loop Sizes.init w ch) as [e w1] eqn:L.
  destruct e; intros H; try discriminate H; injection H as <-.
  destruct (ComputeSizes_loop_store s (batchPuts w) ch Sizes.init w w1 s [])
    as (new & P & S & _); try assumption; try reflexivity.
  - now rewrite app_nil_r.
  - exists new. rewrite batchPuts_emit, app_nil_r. now split.
Qed.

(** X4.  After a run of [ComputeSizes] on chunks with 64-bit labels that
    reaches the nil chunk, over a store that never fails, [GetSizeRange]
    answers without error, and the label of every entry put by the run is
    in its answer whenever the count of the entry lies between the bounds
    of the query. *)
Theorem ComputeSizes_then_GetSizeRange : forall w s ch w' minSize maxSize,
  batching w = true -> faults w = [] -> smalldata w = Some s ->
  sizeIndexed s ->
  (forall c, In (Some c) ch -> isUint64 (Op c)) ->
  isUint64 minSize -> isUint64 maxSize ->
  ComputeSizes w ch = (AtSentinel, w') ->
  exists new labels,
    batchPuts w' = batchPuts w ++ new /\
    GetSizeRange w' minSize maxSize = (jsonMarshal labels, None, w') /\
    forall size label,
      isUint64 size -> isUint64 label ->
      In (NewLabelSizesIndex size label) new ->
      minSize <= size <= upperBound maxSize -> In label labels.
Proof.
  intros w s ch w' minSize maxSize Hb Hf Hs Hi Hl Hmin Hmax.
  unfold ComputeSizes. rewrite Hb.
  destruct (ComputeSizes_loop Sizes.init w ch) as [e w1] eqn:L.
  destruct e; intros H; try discriminate H; injection H as <-.
  destruct (ComputeSizes_loop_store s (batchPuts w) ch Sizes.init w w1 s [])
    as (new & P & S & F); try assumption; try reflexivity;
    [now rewrite app_nil_r|].
  destruct (ComputeSizes_loop_keys (batchPuts w) ch Sizes.init w AtSentinel w1 [])
    as (new' & P' & K); try assumption;
    [apply isUint64_0 | apply isUint64_0 | now rewrite app_nil_r | constructor |].
  assert (new' = new) by (apply (app_inv_head (batchPuts w)); congruence).
  subst new'.
  set (s' := applyPuts new s) in *.
  assert (Hi' : sizeIndexed s').
  { intros k Hin Htag. apply keys_applyPuts in Hin. destruct Hin as [Hin|Hin].
    - rewrite Forall_forall in K. now apply K.
    - now apply Hi. }
  pose proof (isUint64_upperBound maxSize Hmax) as Hup.
  set (first := NewLabelSizesIndex minSize 0).
  set (last := NewLabelSizesIndex (upperBound maxSize) MaxUint64).
  set (keys := filter (inRange first last) (map fst s')).
  pose proof (keys_in_range_sizeKeys s' minSize (upperBound maxSize) Hi') as Hk.
  fold first last keys in Hk.
  exists new, (map (fun k => snd (entryOfKey k)) keys).
  split; [now rewrite batchPuts_emit, app_nil_r|]. split.
  - unfold GetSizeRange, KeysInRange. cbn [emit smalldata]. rewrite S.
    fold (upperBound maxSize). fold first last.
    rewrite nextFault_nil by (cbn [emit faults]; exact F).
    rewrite map_fst_kvRange. fold keys.
    now rewrite (labelsFromKeys_sizeKeys keys Hk).
  - intros size label H1 H2 Hin Hr. apply in_map_iff.
    exists (NewLabelSizesIndex size label). split.
    + now rewrite entryOfKey_sizeKey.
    + apply filter_In. split.
      * apply In_applyPuts. now left.
      * now apply inRange_sizeKey.
Qed.

End SizesToQuery.

Lemma ComputeSizes_commits_every_put_witness :
  exists new,
    batchPuts (snd (ComputeSizes (C := Demo.collaborators) Demo.world
       [Some {| Op := 4; V := Demo.run 2 |}; Some {| Op := 5; V := Demo.run 3 |}; None]))
      = batchPuts Demo.world ++ new /\
    smalldata (snd (ComputeSizes (C := Demo.collaborators) Demo.world
       [Some {| Op := 4; V := Demo.run 2 |}; Some {| Op := 5; V := Demo.run 3 |}; None]))
      = Some (applyPuts new []).
Proof.
  exact (ComputeSizes_commits_every_put (C := Demo.collaborators) Demo.world []
           [Some {| Op := 4; V := Demo.run 2 |}; Some {| Op := 5; V := Demo.run 3 |}; None]
           _ eq_refl eq_refl eq_refl eq_refl).
Defined.

Lemma ComputeSizes_then_GetSizeRange_witness :
  exists new labels,
    batchPuts (snd (ComputeSizes (C := Demo.collaborators) Demo.world
       [Some {| Op := 4; V := Demo.run 2 |}; Some {| Op := 5; V := Demo.run 3 |}; None]))
      = batchPuts Demo.world ++ new /\
    GetSizeRange (C := Demo.collaborators)
      (snd (ComputeSizes (C := Demo.collaborators) Demo.world
         [Some {| Op := 4; V := Demo.run 2 |}; Some {| Op := 5; V := Demo.run 3 |}; None]))
      3 0 =
      (jsonMarshal labels, None,
       snd (ComputeSizes (C := Demo.collaborators) Demo.world
         [Some {| Op := 4; V := Demo.run 2 |}; Some {| Op := 5; V := Demo.run 3 |}; None])).
Proof.
  destruct (ComputeSizes_then_GetSizeRange (C := Demo.collaborators) Demo.world []
           [Some {| Op := 4; V := Demo.run 2 |}; Some {| Op := 5; V := Demo.run 3 |}; None]
           (snd (ComputeSizes (C := Demo.collaborators) Demo.world
              [Some {| Op := 4; V := Demo.run 2 |}; Some {| Op := 5; V := Demo.run 3 |}; None]))
           3 0) as (new & labels & P & R & _).
  - reflexivity.
  - reflexivity.
  - reflexivity.
  - intros k [].
  - intros c [H|[H|[H|[]]]]; inversion H; unfold isUint64; cbn [Op]; lia.
  - unfold isUint64; lia.
  - unfold isUint64; lia.
  - reflexivity.
  - exists new, labels. split; [exact P | exact R].
Defined.

(* ================================================================== *)
(** ** From the surface computation to the surface lookup              *)
(* ================================================================== *)

Lemma compare_refl a : storage.compare a a = Eq.
Proof.
  induction a as [|x a IH]; cbn [storage.compare]; [reflexivity|].
  now rewrite byte_compare_refl.
Qed.

Lemma kvGet_kvPut_same k v s : kvGet k (kvPut k v s) = Some v.
Proof.
  induction s as [|[k' v'] s IH]; cbn [kvPut kvGet].
  - now rewrite compare_refl.
  - destruct (storage.compare k k') eqn:E; cbn [kvGet].
    + now rewrite compare_refl.
    + now rewrite compare_refl.
    + now rewrite E.
Qed.

Lemma kvGet_kvPut_other k k' v s :
  storage.compare k k' <> Eq -> kvGet k (kvPut k' v s) = kvGet k s.
Proof.
  intros Hne. induction s as [|[k0 v0] s IH]; cbn [kvPut kvGet].
  - destruct (storage.compare k k'); [contradiction | reflexivity | reflexivity].
  - destruct (storage.compare k' k0) eqn:E; cbn [kvGet].
    + apply compare_eq in E. subst k0.
      destruct (storage.compare k k'); [contradiction | reflexivity | reflexivity].
    + destruct (storage.compare k k'); [contradiction | reflexivity | reflexivity].
    + destruct (storage.compare k k0); [reflexivity | exact IH | exact IH].
Qed.

Section SurfaceRoundTrip.
Context {C : Collaborators}.

Lemma compare_surfaceKeys label label' :
  isUint64 label -> isUint64 label' ->
  storage.compare (NewLabelSurfaceIndex label) (NewLabelSurfaceIndex label') =
  (label ?= label').
Proof.
  intros H1 H2. unfold NewLabelSurfaceIndex. cbn [storage.compare].
  rewrite byte_compare_refl. now apply compare_PutUint64.
Qed.

(** What a successful [computeAndSaveSurface] has done. *)
Lemma computeAndSaveSurface_saved w vol w1 :
  computeAndSaveSurface w vol = (None, w1) ->
  exists surfaceBytes serialization store,
    SurfaceSerialization vol = Some surfaceBytes /\
    SerializeData surfaceBytes = Some serialization /\
    bigdata w = Some store /\
    bigdata w1 =
      Some (kvPut (NewLabelSurfaceIndex (Label vol)) serialization store).
Proof.
  unfold computeAndSaveSurface.
  destruct (SurfaceSerialization vol) as [surfaceBytes|] eqn:E1; [|discriminate].
  cbn [emit bigdata].
  destruct (bigdata w) as [store|] eqn:E0; [|discriminate].
  destruct (SerializeData surfaceBytes) as [serialization|] eqn:E2; [|discriminate].
  unfold Put. destruct (nextFault (emit (EvSurface vol) w)) as [f w2].
  destruct f; [discriminate|]. intros H; injection H as <-.
  exists surfaceBytes, serialization, store. repeat split; assumption.
Qed.

(** X5.  A surface that [computeAndSaveSurface] has saved without error is
    the one [GetSurface] finds for the label of the volume: the saved
    serialization is handed to [DeserializeData], not to be uncompressed,
    and its result is returned with the found flag set; only a failure of
    [DeserializeData] or of the read stands in the way. *)
Theorem saved_surface_is_found : forall w vol w1,
  computeAndSaveSurface w vol = (None, w1) ->
  fst (nextFault w1) = false ->
  exists surfaceBytes serialization,
    SurfaceSerialization vol = Some surfaceBytes /\
    SerializeData surfaceBytes = Some serialization /\
    GetSurface w1 (Label vol) =
      match DeserializeData serialization false with
      | Some found => (Some found, true, None, snd (nextFault w1))
      | None => (None, false, Some ErrCodec, snd (nextFault w1))
      end.
Proof.
  intros w vol w1 H Hf.
  destruct (computeAndSaveSurface_saved w vol w1 H)
    as (surfaceBytes & serialization & store & E1 & E2 & _ & B).
  exists surfaceBytes, serialization. split; [exact E1|]. split; [exact E2|].
  unfold GetSurface, Get. rewrite B.
  destruct (nextFault w1) as [f w2]; cbn [fst snd] in *. subst f.
  rewrite kvGet_kvPut_same.
  now destruct (DeserializeData serialization false).
Qed.

(** X7.  Saving the surface of a volume leaves the stored surface of every
    other label as it was. *)
Theorem saved_surface_keeps_other_labels : forall w vol w1 label store store1,
  computeAndSaveSurface w vol = (None, w1) ->
  isUint64 (Label vol) -> isUint64 label -> label <> Label vol ->
  bigdata w = Some store -> bigdata w1 = Some store1 ->
  kvGet (NewLabelSurfaceIndex label) store1 = kvGet (NewLabelSurfaceIndex label) store.
Proof.
  intros w vol w1 label store store1 H H1 H2 Hne Hb Hb1.
  destruct (computeAndSaveSurface_saved w vol w1 H)
    as (surfaceBytes & serialization & store0 & _ & _ & B0 & B1).
  rewrite Hb in B0. injection B0 as <-.
  rewrite Hb1 in B1. injection B1 as ->.
  apply kvGet_kvPut_other. rewrite compare_surfaceKeys by assumption.
  intros E. apply Z.compare_eq in E. contradiction.
Qed.

End SurfaceRoundTrip.

Lemma saved_surface_is_found_witness :
  GetSurface (C := Demo.collaborators)
    (snd (computeAndSaveSurface (C := Demo.collaborators) Demo.world
            {| Label := 7; rles := [ {| start := (0, 0, 0); runLength := 5 |} ] |})) 7 =
  (Some (le_split 8 5), true, None,
   snd (computeAndSaveSurface (C := Demo.collaborators) Demo.world
          {| Label := 7; rles := [ {| start := (0, 0, 0); runLength := 5 |} ] |})).
Proof.
  destruct (saved_surface_is_found (C := Demo.collaborators) Demo.world
              {| Label := 7; rles := [ {| start := (0, 0, 0); runLength := 5 |} ] |}
              _ eq_refl eq_refl) as (sb & ser & E1 & E2 & G).
  injection E1 as <-. injection E2 as <-. exact G.
Defined.

Lemma saved_surface_keeps_other_labels_witness :
  kvGet (NewLabelSurfaceIndex (C := Demo.collaborators) 8)
        [ (NewLabelSurfaceIndex (C := Demo.collaborators) 7, le_split 8 5);
          (NewLabelSurfaceIndex (C := Demo.collaborators) 8, [byte.of_Z 1]) ] =
  Some [byte.of_Z 1].
Proof.
  rewrite (saved_surface_keeps_other_labels (C := Demo.collaborators)
             {| bigdata := Some [ (NewLabelSurfaceIndex (C := Demo.collaborators) 8,
                                   [byte.of_Z 1]) ];
                smalldata := Some []; batching := true; faults := []; trace := [] |}
             {| Label := 7; rles := [ {| start := (0, 0, 0); runLength := 5 |} ] |}
             _ 8
             [ (NewLabelSurfaceIndex (C := Demo.collaborators) 8, [byte.of_Z 1]) ]
             [ (NewLabelSurfaceIndex (C := Demo.collaborators) 7, le_split 8 5);
               (NewLabelSurfaceIndex (C := Demo.collaborators) 8, [byte.of_Z 1]) ]
             eq_refl).
  - reflexivity.
  - unfold isUint64; cbn [Label]; lia.
  - unfold isUint64; lia.
  - cbn [Label]; lia.
  - reflexivity.
  - reflexivity.
Defined.

(* ================================================================== *)
(** ** The spatial index of a label                                    *)
(* ================================================================== *)

Section SpatialKeys.
Context {C : Collaborators}.

(** Spatial index keys are ordered by label, then by block coordinate. *)
Lemma compare_spatialKeys label zyx label' zyx' :
  isUint64 label -> isUint64 label' ->
  storage.compare (NewLabelSpatialMapIndex label zyx)
                  (NewLabelSpatialMapIndex label' zyx') =
  match label ?= label' with
  | Eq => storage.compare zyx zyx'
  | c => c
  end.
Proof.
  intros H1 H2. unfold NewLabelSpatialMapIndex. cbn [storage.compare].
  rewrite byte_compare_refl, compare_app by (now rewrite !length_PutUint64).
  now rewrite compare_PutUint64.
Qed.

Lemma inRange_other_label label label' lo hi zyx :
  isUint64 label -> isUint64 label' -> label' <> label ->
  inRange (NewLabelSpatialMapIndex label lo) (NewLabelSpatialMapIndex label hi)
          (NewLabelSpatialMapIndex label' zyx) = false.
Proof.
  intros H1 H2 Hne. unfold inRange, leb.
  rewrite !compare_spatialKeys by assumption.
  rewrite (Z.compare_antisym label label').
  destruct (Z.compare_spec label label') as [E|E|E]; cbn [CompOpp andb].
  - congruence.
  - reflexivity.
  - reflexivity.
Qed.

Lemma inRange_same_label label lo hi zyx :
  isUint64 label ->
  inRange (NewLabelSpatialMapIndex label lo) (NewLabelSpatialMapIndex label hi)
          (NewLabelSpatialMapIndex label zyx) =
  storage.leb lo zyx && storage.leb zyx hi.
Proof.
  intros H. unfold inRange, leb.
  rewrite !compare_spatialKeys by assumption. now rewrite Z.compare_refl.
Qed.

Lemma filter_nothing {A} (p : A -> bool) l :
  (forall x, In x l -> p x = false) -> filter p l = [].
Proof.
  induction l as [|x l IH]; intros H; cbn [filter]; [reflexivity|].
  rewrite (H x (or_introl eq_refl)). apply IH. intros y Hy. apply H. now right.
Qed.

(** X8.  When the spatial index holds entries of other labels only,
    [GetSparseVol] returns for a label the bare header of 12 bytes, with a
    number of runs of 0: the scan of a label never picks up the runs of
    another label, whatever their block coordinates. *)
Theorem GetSparseVol_other_labels : forall w store label,
  smalldata w = Some store -> fst (nextFault w) = false ->
  isUint64 label -> onlyOtherLabels label store ->
  fst (fst (GetSparseVol w label)) =
    Some ([byte.of_Z 0; byte.of_Z 3; byte.of_Z 0; byte.of_Z 0]
            ++ le_split 4 0 ++ le_split 4 0) /\
  snd (fst (GetSparseVol w label)) = None.
Proof.
  intros w store label Hs Hf Hl Ho.
  assert (R : kvRange (NewLabelSpatialMapIndex label MinIndexZYX)
                      (NewLabelSpatialMapIndex label MaxIndexZYX) store = []).
  { unfold kvRange. apply filter_nothing. intros [k v] Hin. cbn [fst].
    destruct (inRange _ _ k) eqn:E; [|reflexivity]. exfalso.
    pose proof E as T. unfold NewLabelSpatialMapIndex in T. apply inRange_tag in T.
    destruct (Ho k) as (label' & zyx & H1 & H2 & ->); [|exact T|].
    - apply in_map_iff. now exists (k, v).
    - rewrite inRange_other_label in E by assumption. discriminate E. }
  unfold GetSparseVol, ProcessRange. rewrite Hs.
  destruct (nextFault w) as [f w1]; cbn [fst] in Hf. subst f.
  rewrite R. split; reflexivity.
Qed.

End SpatialKeys.

Lemma GetSparseVol_other_labels_witness :
  fst (fst (GetSparseVol (C := Demo.collaborators)
     {| bigdata := Some [];
        smalldata := Some [ (NewLabelSpatialMapIndex (C := Demo.collaborators) 8
                               (repeat (byte.of_Z 0) 12), Demo.run 5) ];
        batching := true; faults := []; trace := [] |} 7)) =
  Some ([byte.of_Z 0; byte.of_Z 3; byte.of_Z 0; byte.of_Z 0]
          ++ le_split 4 0 ++ le_split 4 0).
Proof.
  apply (GetSparseVol_other_labels (C := Demo.collaborators)
     {| bigdata := Some [];
        smalldata := Some [ (NewLabelSpatialMapIndex (C := Demo.collaborators) 8
                               (repeat (byte.of_Z 0) 12), Demo.run 5) ];
        batching := true; faults := []; trace := [] |}
     [ (NewLabelSpatialMapIndex (C := Demo.collaborators) 8
          (repeat (byte.of_Z 0) 12), Demo.run 5) ] 7).
  - reflexivity.
  - reflexivity.
  - unfold isUint64; lia.
  - intros k [<-|[]] _. exists 8, (repeat (byte.of_Z 0) 12).
    unfold isUint64. repeat split; lia.
Defined.

(* ================================================================== *)
(** ** Puts of distinct keys commute                                   *)
(* ================================================================== *)

Lemma compare_gt_lt a b : storage.compare a b = Gt -> storage.compare b a = Lt.
Proof. intros H. now rewrite compare_antisym, H. Qed.

(** Closes a goal whose comparisons of keys cannot hold together. *)
Ltac order_contra :=
  repeat match goal with
    | H : storage.compare _ _ = Eq |- _ => apply compare_eq in H; subst
    | H : storage.compare _ _ = Gt |- _ => apply compare_gt_lt in H
    end;
  try congruence;
  match goal with
  | H1 : storage.compare ?a ?b = Lt, H2 : storage.compare ?b ?c = Lt |- _ =>
      let X := fresh "X" in
      pose proof (lt_trans a b c H1 H2) as X; unfold storage.lt in X;
      first
        [ rewrite compare_refl in X; discriminate X
        | match goal with
          | H3 : storage.compare c a = Lt |- _ =>
              let Y := fresh "Y" in
              pose proof (lt_trans _ _ _ X H3) as Y; unfold storage.lt in Y;
              rewrite compare_refl in Y; discriminate Y
          end ]
  end.

Lemma kvPut_comm k1 v1 k2 v2 s :
  k1 <> k2 ->
  kvPut k1 v1 (kvPut k2 v2 s) = kvPut k2 v2 (kvPut k1 v1 s).
Proof.
  intros Hne. induction s as [|[k v] s IH]; cbn [kvPut].
  - rewrite (compare_antisym k1 k2).
    destruct (storage.compare k1 k2) eqn:E; cbn [CompOpp]; try reflexivity.
    apply compare_eq in E. contradiction.
  - pose proof (compare_antisym k1 k2) as A.
    destruct (storage.compare k1 k2) eqn:E12; cbn [CompOpp] in A;
      [apply compare_eq in E12; contradiction| |];
      destruct (storage.compare k2 k) eqn:E2;
      destruct (storage.compare k1 k) eqn:E1;
      repeat (cbn [kvPut]; rewrite ?E12, ?A, ?E1, ?E2);
      try reflexivity; try (now rewrite IH); order_contra.
Qed.

Lemma putAll_cons kv es s : putAll (kv :: es) s = putAll es (kvPut (fst kv) (snd kv) s).
Proof. reflexivity. Qed.

(** The store after a set of puts of distinct keys does not depend on the
    order of the puts. *)
Lemma putAll_Permutation es es' :
  Permutation es es' -> NoDup (map fst es) ->
  forall s, putAll es s = putAll es' s.
Proof.
  induction 1 as [|x l l' Hp IH|x y l|l l' l'' Hp1 IH1 Hp2 IH2]; intros Hn s.
  - reflexivity.
  - rewrite !putAll_cons. apply IH. now inversion Hn.
  - rewrite !putAll_cons. f_equal. apply kvPut_comm.
    cbn [map] in Hn. inversion Hn as [|? ? Hx _]; subst.
    intros E. apply Hx. left. now symmetry.
  - rewrite IH1 by exact Hn. apply IH2.
    apply (Permutation_NoDup (l := map fst l)); [now apply Permutation_map | exact Hn].
Qed.

(* ================================================================== *)
(** ** The writer of the spatial index                                 *)
(* ================================================================== *)

(** Whether a commit succeeds depends on the fault schedule and on the
    small-data store only. *)
Lemma Commit_fst b b' w w' :
  faults w' = faults w -> smalldata w' = smalldata w ->
  fst (Commit b' w') = fst (Commit b w).
Proof.
  intros Hf Hs. unfold Commit, nextFault. rewrite Hf.
  destruct (faults w) as [|[] fs]; cbn [smalldata]; rewrite ?Hs;
    try reflexivity; destruct (smalldata w); reflexivity.
Qed.

(** The world a commit leaves. *)
Lemma Commit_world b w :
  events (snd (Commit b w)) =
    events w ++ [EvCommit (match fst (Commit b w) with None => true | Some _ => false end)] /\
  smalldata (snd (Commit b w)) =
    match fst (Commit b w) with
    | None => option_map (applyBatch b) (smalldata w)
    | Some _ => smalldata w
    end /\
  bigdata (snd (Commit b w)) = bigdata w /\
  faults (snd (Commit b w)) = tl (faults w).
Proof.
  unfold Commit, nextFault.
  destruct w as [bd sd bt fl tr]; cbn [faults smalldata bigdata trace batching].
  destruct fl as [|[] fs]; cbn [smalldata]; [destruct sd| |destruct sd];
    repeat split.
Qed.

Section SpatialMapWriterFacts.
Context {C : Collaborators}.
Variable IndexZYXSize : nat.
Variable MarshalBinary : RLEs -> option bytes.

Lemma StoreKeyLabelSpatialMap_range_spec zyx l : forall batch w,
  fst (StoreKeyLabelSpatialMap_range MarshalBinary zyx l batch w) =
    rev (marshalled MarshalBinary zyx l) ++ batch /\
  events (snd (StoreKeyLabelSpatialMap_range MarshalBinary zyx l batch w)) =
    events w ++ rangeEvents MarshalBinary zyx l /\
  faults (snd (StoreKeyLabelSpatialMap_range MarshalBinary zyx l batch w)) = faults w /\
  smalldata (snd (StoreKeyLabelSpatialMap_range MarshalBinary zyx l batch w)) = smalldata w /\
  bigdata (snd (StoreKeyLabelSpatialMap_range MarshalBinary zyx l batch w)) = bigdata w.
Proof.
  induction l as [|[b rles] l IH]; intros batch w;
    cbn [StoreKeyLabelSpatialMap_range marshalled rangeEvents].
  - cbn [fst snd rev app]. now rewrite app_nil_r.
  - destruct (MarshalBinary rles) as [bs|].
    + unfold BatchPut.
      destruct (IH ((NewLabelSpatialMapIndex b zyx, bs) :: batch)
                   (emit (EvBatchPut (NewLabelSpatialMapIndex b zyx) bs) w))
        as (A & B & F & S & G).
      rewrite A, B, F, S, G. cbn [rev]. rewrite <- !app_assoc, events_emit, <- app_assoc.
      repeat split.
    + cbn [fst snd rev app]. rewrite events_emit. repeat split.
Qed.

(** The world [StoreKeyLabelSpatialMap] leaves: the pairs marshalled by the
    loop reach the small-data store when the deferred commit succeeds, and
    none does otherwise. *)
Lemma StoreKeyLabelSpatialMap_world w zyxBytes l :
  let zyx := copyInto IndexZYXSize zyxBytes in
  let w' := StoreKeyLabelSpatialMap IndexZYXSize MarshalBinary w zyxBytes l in
  smalldata w' =
    match fst (Commit [] w) with
    | None => option_map (putAll (marshalled MarshalBinary zyx l)) (smalldata w)
    | Some _ => smalldata w
    end /\
  events w' =
    events w ++ rangeEvents MarshalBinary zyx l ++
    match fst (Commit [] w) with
    | None => [EvCommit true]
    | Some _ => [EvCommit false; EvInfo "Error on batch PUT of KeyLabelSpatialMap"]
    end /\
  bigdata w' = bigdata w /\ faults w' = tl (faults w).
Proof.
  intros zyx w'. subst w'. unfold StoreKeyLabelSpatialMap. fold zyx.
  destruct (StoreKeyLabelSpatialMap_range_spec zyx l NewBatch w) as (A & B & F & S & G).
  destruct (StoreKeyLabelSpatialMap_range MarshalBinary zyx l NewBatch w) as [batch w1].
  cbn [fst snd] in A, B, F, S, G. unfold NewBatch in A. rewrite app_nil_r in A.
  pose proof (Commit_fst [] batch w w1 F S) as Ef.
  destruct (Commit_world batch w1) as (E1 & S1 & G1 & F1).
  destruct (Commit batch w1) as [err w2]. cbn [fst snd] in *. rewrite <- Ef.
  rewrite B, <- app_assoc in E1. rewrite S, A in S1. rewrite F in F1. rewrite G in G1.
  unfold applyBatch in S1. rewrite rev_involutive in S1. fold (putAll (marshalled MarshalBinary zyx l)) in S1.
  destruct err; [rewrite events_emit, E1, <- !app_assoc|]; repeat split; assumption.
Qed.

(** Keys of the spatial index at one block differ when their labels do. *)
Lemma spatialKey_inj b b' zyx :
  isUint64 b -> isUint64 b' ->
  NewLabelSpatialMapIndex b zyx = NewLabelSpatialMapIndex b' zyx -> b = b'.
Proof.
  intros H1 H2 E.
  pose proof (compare_spatialKeys b zyx b' zyx H1 H2) as K.
  rewrite E, compare_refl in K.
  destruct (Z.compare_spec b b') as [X|X|X]; [exact X | discriminate K | discriminate K].
Qed.

Lemma marshalled_keys zyx l k :
  In k (map fst (marshalled MarshalBinary zyx l)) ->
  exists b, In b (map fst l) /\ k = NewLabelSpatialMapIndex b zyx.
Proof.
  induction l as [|[b rles] l IH]; cbn [marshalled map]; [intros []|].
  destruct (MarshalBinary rles); cbn [map fst]; [|intros []].
  intros [<-|H].
  - exists b. split; [now left | reflexivity].
  - destruct (IH H) as (b' & Hb & ->). exists b'. split; [now right | reflexivity].
Qed.

Lemma marshalled_NoDup zyx l :
  NoDup (map fst l) -> marshals MarshalBinary l ->
  NoDup (map fst (marshalled MarshalBinary zyx l)).
Proof.
  unfold marshals.
  induction l as [|[b rles] l IH]; cbn [marshalled map fst]; intros Hn Hm.
  - constructor.
  - inversion Hn as [|? ? Hb Hn']; subst. inversion Hm as [|? ? [Hu _] Hm']; subst.
    cbn [fst] in Hu.
    destruct (MarshalBinary rles); cbn [map fst]; constructor.
    + intros Hin. apply marshalled_keys in Hin. destruct Hin as (b' & Hb' & E).
      apply spatialKey_inj in E; [now subst b'|exact Hu|].
      rewrite Forall_forall in Hm'. apply in_map_iff in Hb'.
      destruct Hb' as (p & <- & Hp). now apply Hm'.
    + now apply IH.
Qed.

Lemma marshalled_Permutation zyx l l' :
  Permutation l l' -> marshals MarshalBinary l ->
  Permutation (marshalled MarshalBinary zyx l) (marshalled MarshalBinary zyx l') /\
  Permutation (rangeEvents MarshalBinary zyx l) (rangeEvents MarshalBinary zyx l').
Proof.
  unfold marshals.
  induction 1 as [|[b r] l l' Hp IH|[b r] [b' r'] l|l l' l'' Hp1 IH1 Hp2 IH2];
    intros Hm; cbn [marshalled rangeEvents].
  - split; constructor.
  - inversion Hm as [|? ? [_ Hr] Hm']; subst. cbn [snd] in Hr.
    destruct (MarshalBinary r); [|congruence].
    destruct (IH Hm'). split; now apply perm_skip.
  - inversion Hm as [|? ? [_ Hr'] Hm']; subst.
    inversion Hm' as [|? ? [_ Hr] Hm'']; subst. cbn [snd] in Hr, Hr'.
    destruct (MarshalBinary r); [|congruence].
    destruct (MarshalBinary r'); [|congruence].
    split; apply perm_swap.
  - destruct (IH1 Hm) as (A1 & B1).
    destruct (IH2 (Permutation_Forall Hp1 Hm)) as (A2 & B2).
    split; [now rewrite A1 | now rewrite B1].
Qed.

(** X9.  Go visits the labels of the map in an order that changes from
    run to run.  When the labels are distinct [uint64] values and every
    set of runs marshals, the stores and the fault schedule that
    [StoreKeyLabelSpatialMap] leaves do not depend on that order, and the
    events of two orders are the same up to their order. *)
Theorem StoreKeyLabelSpatialMap_any_order : forall w zyxBytes l l',
  Permutation l l' -> NoDup (map fst l) -> marshals MarshalBinary l ->
  smalldata (StoreKeyLabelSpatialMap IndexZYXSize MarshalBinary w zyxBytes l) =
    smalldata (StoreKeyLabelSpatialMap IndexZYXSize MarshalBinary w zyxBytes l') /\
  bigdata (StoreKeyLabelSpatialMap IndexZYXSize MarshalBinary w zyxBytes l) =
    bigdata (StoreKeyLabelSpatialMap IndexZYXSize MarshalBinary w zyxBytes l') /\
  faults (StoreKeyLabelSpatialMap IndexZYXSize MarshalBinary w zyxBytes l) =
    faults (StoreKeyLabelSpatialMap IndexZYXSize MarshalBinary w zyxBytes l') /\
  Permutation
    (events (StoreKeyLabelSpatialMap IndexZYXSize MarshalBinary w zyxBytes l))
    (events (StoreKeyLabelSpatialMap IndexZYXSize MarshalBinary w zyxBytes l')).
Proof.
  intros w zyxBytes l l' Hp Hn Hm.
  destruct (StoreKeyLabelSpatialMap_world w zyxBytes l) as (S1 & E1 & B1 & F1).
  destruct (StoreKeyLabelSpatialMap_world w zyxBytes l') as (S2 & E2 & B2 & F2).
  destruct (marshalled_Permutation (copyInto IndexZYXSize zyxBytes) l l' Hp Hm)
    as (Pm & Pe).
  rewrite S1, S2, E1, E2, B1, B2, F1, F2. repeat split.
  - destruct (fst (Commit [] w)); [reflexivity|].
    destruct (smalldata w) as [s|]; [|reflexivity]. cbn [option_map]. f_equal.
    apply putAll_Permutation; [exact Pm|].
    now apply marshalled_NoDup.
  - apply Permutation_app_head. now apply Permutation_app_tail.
Qed.

Lemma marshalled_app_failure pre b rles rest zyx :
  Forall (fun p => MarshalBinary (snd p) <> None) pre -> MarshalBinary rles = None ->
  marshalled MarshalBinary zyx (pre ++ (b, rles) :: rest) =
    marshalled MarshalBinary zyx pre /\
  rangeEvents MarshalBinary zyx (pre ++ (b, rles) :: rest) =
    rangeEvents MarshalBinary zyx pre
      ++ [EvInfo "Error encoding KeyLabelSpatialMap keys for mapped label"].
Proof.
  intros Hm Hr. induction pre as [|[b' r'] pre IH]; cbn [app marshalled rangeEvents].
  - rewrite Hr. split; reflexivity.
  - inversion Hm as [|? ? Hr' Hm']; subst. cbn [snd] in Hr'.
    destruct (MarshalBinary r'); [|congruence].
    destruct (IH Hm') as (A & B). rewrite A, B. split; reflexivity.
Qed.

Lemma rangeEvents_commits zyx l :
  filter isCommit (rangeEvents MarshalBinary zyx l) = [].
Proof.
  induction l as [|[b r] l IH]; cbn [rangeEvents]; [reflexivity|].
  destruct (MarshalBinary r); cbn [filter isCommit]; [exact IH | reflexivity].
Qed.

(** X10.  When the runs of a label do not marshal, [StoreKeyLabelSpatialMap]
    logs the error and returns, and the deferred commit still runs, once:
    the labels visited before the failing one are written as if the map had
    held them alone, and the labels that would have come after it are not
    written. *)
Theorem StoreKeyLabelSpatialMap_marshal_failure : forall w zyxBytes pre b rles rest,
  Forall (fun p => MarshalBinary (snd p) <> None) pre -> MarshalBinary rles = None ->
  smalldata (StoreKeyLabelSpatialMap IndexZYXSize MarshalBinary w zyxBytes
               (pre ++ (b, rles) :: rest)) =
    smalldata (StoreKeyLabelSpatialMap IndexZYXSize MarshalBinary w zyxBytes pre) /\
  batchPuts (StoreKeyLabelSpatialMap IndexZYXSize MarshalBinary w zyxBytes
               (pre ++ (b, rles) :: rest)) =
    batchPuts (StoreKeyLabelSpatialMap IndexZYXSize MarshalBinary w zyxBytes pre) /\
  count isCommit (StoreKeyLabelSpatialMap IndexZYXSize MarshalBinary w zyxBytes
                    (pre ++ (b, rles) :: rest)) = count isCommit w + 1.
Proof.
  intros w zyxBytes pre b rles rest Hm Hr.
  destruct (StoreKeyLabelSpatialMap_world w zyxBytes (pre ++ (b, rles) :: rest))
    as (S1 & E1 & _).
  destruct (StoreKeyLabelSpatialMap_world w zyxBytes pre) as (S2 & E2 & _).
  destruct (marshalled_app_failure pre b rles rest (copyInto IndexZYXSize zyxBytes) Hm Hr)
    as (A & B).
  rewrite A in S1. rewrite B in E1. repeat split.
  - now rewrite S1, S2.
  - unfold batchPuts. rewrite E1, E2, !flat_map_app. cbn [flat_map app].
    now rewrite app_nil_r.
  - rewrite (count_events isCommit w _ _ E1), !filter_app, rangeEvents_commits.
    destruct (fst (Commit [] w)); reflexivity.
Qed.

Lemma kvPut_above k v s :
  Forall (fun kv => storage.lt k (fst kv)) s -> kvPut k v s = (k, v) :: s.
Proof.
  destruct s as [|[k' v'] s]; intros H; cbn [kvPut]; [reflexivity|].
  inversion H as [|? ? Hk _]; subst. unfold storage.lt in Hk. cbn [fst] in Hk.
  now rewrite Hk.
Qed.

(** In an ordered store, reading a set of keys after a put is putting into
    what was read. *)
Lemma filter_kvPut (p : Key -> bool) k v s :
  ordered s ->
  filter (fun kv => p (fst kv)) (kvPut k v s) =
  if p k then kvPut k v (filter (fun kv => p (fst kv)) s)
  else filter (fun kv => p (fst kv)) s.
Proof.
  unfold ordered. induction 1 as [|[k' v'] s Hs IH Hf]; cbn [kvPut filter fst].
  - destruct (p k); reflexivity.
  - destruct (storage.compare k k') eqn:E; cbn [filter fst].
    + apply compare_eq in E. subst k'.
      destruct (p k); [|reflexivity]. cbn [kvPut]. now rewrite compare_refl.
    + destruct (p k); [|reflexivity]. symmetry. apply kvPut_above.
      assert (Hall : Forall (fun kv => storage.lt k (fst kv)) ((k', v') :: s)).
      { constructor; [exact E|]. rewrite Forall_forall in *. intros x Hx.
        apply (lt_trans k k'); [exact E | now apply Hf]. }
      rewrite Forall_forall in *. intros x Hx. apply Hall.
      change (In x (filter (fun kv => p (fst kv)) ((k', v') :: s))) in Hx.
      apply filter_In in Hx. apply Hx.
    + rewrite IH. destruct (p k'), (p k); cbn [kvPut]; rewrite ?E; reflexivity.
Qed.

Lemma putAll_ordered es : forall s, ordered s -> ordered (putAll es s).
Proof.
  induction es as [|kv es IH]; intros s H; [exact H|].
  rewrite putAll_cons. apply IH. now apply kvPut_ordered.
Qed.

Lemma kvRange_putAll lo hi es : forall s,
  ordered s ->
  kvRange lo hi (putAll es s) =
  putAll (filter (fun kv => inRange lo hi (fst kv)) es) (kvRange lo hi s).
Proof.
  induction es as [|[k v] es IH]; intros s H; [reflexivity|].
  rewrite putAll_cons, IH by now apply kvPut_ordered.
  cbn [filter fst snd]. unfold kvRange.
  rewrite (filter_kvPut (inRange lo hi)) by exact H.
  destruct (inRange lo hi k); reflexivity.
Qed.

Lemma marshalled_other_labels label lo hi zyx l :
  isUint64 label -> marshals MarshalBinary l -> ~ In label (map fst l) ->
  filter (fun kv => inRange (NewLabelSpatialMapIndex label lo)
                            (NewLabelSpatialMapIndex label hi) (fst kv))
         (marshalled MarshalBinary zyx l) = [].
Proof.
  unfold marshals. intros Hl Hm Hn.
  induction l as [|[b r] l IH]; cbn [marshalled]; [reflexivity|].
  inversion Hm as [|? ? [Hu _] Hm']; subst. cbn [fst] in Hu.
  destruct (MarshalBinary r); [|reflexivity]. cbn [filter fst].
  rewrite inRange_other_label; [|exact Hl|exact Hu|].
  - apply IH; [exact Hm'|]. intros Hin. apply Hn. now right.
  - intros ->. apply Hn. now left.
Qed.

Lemma marshalled_this_label label rles bs lo hi zyx l :
  isUint64 label -> marshals MarshalBinary l -> NoDup (map fst l) ->
  In (label, rles) l -> MarshalBinary rles = Some bs ->
  inRange lo hi zyx = true ->
  filter (fun kv => inRange (NewLabelSpatialMapIndex label lo)
                            (NewLabelSpatialMapIndex label hi) (fst kv))
         (marshalled MarshalBinary zyx l) = [(NewLabelSpatialMapIndex label zyx, bs)].
Proof.
  unfold marshals. intros Hl Hm Hn Hin Hr Hz.
  induction l as [|[b r] l IH]; [destruct Hin|].
  inversion Hm as [|? ? [Hu Hrr] Hm']; subst. cbn [fst snd] in Hu, Hrr.
  inversion Hn as [|? ? Hb Hn']; subst.
  cbn [marshalled]. destruct (MarshalBinary r) as [bs0|] eqn:Er; [|congruence].
  cbn [filter fst]. destruct (Z.eq_dec b label) as [->|Hne].
  - rewrite inRange_same_label by exact Hl. unfold inRange in Hz. rewrite Hz.
    rewrite (marshalled_other_labels label lo hi zyx l Hl Hm' Hb).
    destruct Hin as [E|Hin].
    + injection E as ->. rewrite Hr in Er. now injection Er as ->.
    + exfalso. apply Hb. apply in_map_iff. now exists (label, rles).
  - rewrite inRange_other_label by assumption.
    destruct Hin as [E|Hin]; [injection E as -> _; congruence|].
    now apply IH.
Qed.

(** The blob of [GetSparseVol] when the store answers. *)
Lemma GetSparseVol_scan w label store :
  smalldata w = Some store -> fst (nextFault w) = false ->
  fst (fst (GetSparseVol w label)) =
    Some ([byte.of_Z 0; byte.of_Z 3; byte.of_Z 0; byte.of_Z 0]
            ++ le_split 4 0
            ++ le_split 4 (uint32 (sumRuns (matchedRuns store label)))
            ++ List.concat (matchedRuns store label)).
Proof.
  intros Hs Hf. unfold GetSparseVol, ProcessRange. rewrite Hs.
  destruct (nextFault w) as [f w1]; cbn [fst] in Hf. subst f.
  fold (matchedRuns store label).
  destruct (fold_sparseVolChunk (matchedRuns store label)
              {| encoding := sparseVolHeader; numBlocks := 0; numRuns := 0 |})
    as (E & N); [cbn [numRuns]; lia|].
  cbn [encoding numRuns] in E, N. rewrite Z.add_0_l in N.
  cbn [fst snd]. rewrite E, N. reflexivity.
Qed.

(** X11.  What [StoreKeyLabelSpatialMap] writes for a label, [GetSparseVol]
    reads back.  The store is ordered, answers, and holds no entry of the
    label yet; the map has distinct [uint64] labels, and all its runs
    marshal; the block coordinate, cut or padded to the size of a
    coordinate, lies between the smallest and the largest coordinate.  Then
    the blob read for a label of the map is the header of 12 bytes, with
    the number of 16-byte records of the marshalled runs of that label as
    its number of runs, followed by these marshalled runs: the runs of the
    other labels of the map are not read. *)
Theorem StoreKeyLabelSpatialMap_then_GetSparseVol :
  forall w s zyxBytes l label rles bs,
  smalldata w = Some s -> ordered s -> faults w = [] ->
  onlyOtherLabels label s ->
  NoDup (map fst l) -> marshals MarshalBinary l ->
  In (label, rles) l -> MarshalBinary rles = Some bs ->
  inRange MinIndexZYX MaxIndexZYX (copyInto IndexZYXSize zyxBytes) = true ->
  fst (fst (GetSparseVol
              (StoreKeyLabelSpatialMap IndexZYXSize MarshalBinary w zyxBytes l) label)) =
    Some ([byte.of_Z 0; byte.of_Z 3; byte.of_Z 0; byte.of_Z 0]
            ++ le_split 4 0 ++ le_split 4 (uint32 (Z.quot (len bs) 16)) ++ bs).
Proof.
  intros w s zyxBytes l label rles bs Hs Ho Hf Hother Hn Hm Hin Hr Hz.
  assert (Hl : isUint64 label).
  { unfold marshals in Hm. rewrite Forall_forall in Hm.
    apply (Hm (label, rles) Hin). }
  destruct (StoreKeyLabelSpatialMap_world w zyxBytes l) as (S1 & _ & _ & F1).
  assert (Ec : fst (Commit [] w) = None).
  { rewrite (Commit_without_fault [] w s Hf Hs). reflexivity. }
  rewrite Ec, Hs in S1. cbn [option_map] in S1. rewrite Hf in F1. cbn [tl] in F1.
  rewrite (GetSparseVol_scan _ label _ S1) by (now rewrite nextFault_nil).
  unfold matchedRuns. rewrite kvRange_putAll by exact Ho.
  rewrite (marshalled_this_label label rles bs _ _ _ l Hl Hm Hn Hin Hr Hz).
  assert (R : kvRange (NewLabelSpatialMapIndex label MinIndexZYX)
                      (NewLabelSpatialMapIndex label MaxIndexZYX) s = []).
  { unfold kvRange. apply filter_nothing. intros [k v] Hk. cbn [fst].
    destruct (inRange _ _ k) eqn:E; [|reflexivity]. exfalso.
    pose proof E as T. unfold NewLabelSpatialMapIndex in T. apply inRange_tag in T.
    destruct (Hother k) as (label' & zyx & H1 & H2 & ->); [|exact T|].
    - apply in_map_iff. now exists (k, v).
    - rewrite inRange_other_label in E by assumption. discriminate E. }
  rewrite R. cbn [putAll fold_left fst snd kvPut map List.concat sumRuns fold_right].
  now rewrite Z.add_0_r, app_nil_r.
Qed.

End SpatialMapWriterFacts.

Lemma StoreKeyLabelSpatialMap_any_order_witness :
  smalldata (StoreKeyLabelSpatialMap (C := Demo.collaborators)
               DemoIndex.IndexZYXSize DemoIndex.MarshalBinary Demo.world
               (DemoIndex.block 1)
               [ (7, [ {| start := (0, 0, 0); runLength := 5 |} ]);
                 (8, [ {| start := (5, 0, 0); runLength := 3 |} ]) ]) =
  smalldata (StoreKeyLabelSpatialMap (C := Demo.collaborators)
               DemoIndex.IndexZYXSize DemoIndex.MarshalBinary Demo.world
               (DemoIndex.block 1)
               [ (8, [ {| start := (5, 0, 0); runLength := 3 |} ]);
                 (7, [ {| start := (0, 0, 0); runLength := 5 |} ]) ]).
Proof.
  apply (StoreKeyLabelSpatialMap_any_order (C := Demo.collaborators)
           DemoIndex.IndexZYXSize DemoIndex.MarshalBinary Demo.world
           (DemoIndex.block 1)
           [ (7, [ {| start := (0, 0, 0); runLength := 5 |} ]);
             (8, [ {| start := (5, 0, 0); runLength := 3 |} ]) ]
           [ (8, [ {| start := (5, 0, 0); runLength := 3 |} ]);
             (7, [ {| start := (0, 0, 0); runLength := 5 |} ]) ]).
  - apply perm_swap.
  - cbn [map fst]. repeat constructor; cbn [In]; lia.
  - unfold marshals, isUint64. repeat constructor; cbn [fst snd]; try lia;
      discriminate.
Defined.

Lemma StoreKeyLabelSpatialMap_marshal_failure_witness :
  smalldata (StoreKeyLabelSpatialMap (C := Demo.collaborators)
               DemoIndex.IndexZYXSize DemoIndex.MarshalBinary Demo.world
               (DemoIndex.block 1)
               ([ (7, [ {| start := (0, 0, 0); runLength := 5 |} ]) ]
                ++ (8, [ {| start := (5, 0, 0); runLength := -3 |} ])
                :: [ (9, [ {| start := (9, 0, 0); runLength := 1 |} ]) ])) =
  smalldata (StoreKeyLabelSpatialMap (C := Demo.collaborators)
               DemoIndex.IndexZYXSize DemoIndex.MarshalBinary Demo.world
               (DemoIndex.block 1)
               [ (7, [ {| start := (0, 0, 0); runLength := 5 |} ]) ]).
Proof.
  apply (StoreKeyLabelSpatialMap_marshal_failure (C := Demo.collaborators)
           DemoIndex.IndexZYXSize DemoIndex.MarshalBinary Demo.world
           (DemoIndex.block 1)
           [ (7, [ {| start := (0, 0, 0); runLength := 5 |} ]) ]
           8 [ {| start := (5, 0, 0); runLength := -3 |} ]
           [ (9, [ {| start := (9, 0, 0); runLength := 1 |} ]) ]).
  - repeat constructor. discriminate.
  - reflexivity.
Defined.

Lemma StoreKeyLabelSpatialMap_then_GetSparseVol_witness :
  fst (fst (GetSparseVol (C := Demo.collaborators)
              (StoreKeyLabelSpatialMap (C := Demo.collaborators)
                 DemoIndex.IndexZYXSize DemoIndex.MarshalBinary Demo.world
                 (DemoIndex.block 1)
                 [ (7, [ {| start := (0, 0, 0); runLength := 5 |} ]);
                   (8, [ {| start := (5, 0, 0); runLength := 3 |} ]) ]) 7)) =
  Some ([byte.of_Z 0; byte.of_Z 3; byte.of_Z 0; byte.of_Z 0]
          ++ le_split 4 0 ++ le_split 4 (uint32 (Z.quot (len (Demo.run 5)) 16))
          ++ Demo.run 5).
Proof.
  apply (StoreKeyLabelSpatialMap_then_GetSparseVol (C := Demo.collaborators)
           DemoIndex.IndexZYXSize DemoIndex.MarshalBinary Demo.world []
           (DemoIndex.block 1)
           [ (7, [ {| start := (0, 0, 0); runLength := 5 |} ]);
             (8, [ {| start := (5, 0, 0); runLength := 3 |} ]) ]
           7 [ {| start := (0, 0, 0); runLength := 5 |} ] (Demo.run 5)).
  - reflexivity.
  - constructor.
  - reflexivity.
  - intros k [].
  - cbn [map fst]. repeat constructor; cbn [In]; lia.
  - unfold marshals, isUint64. repeat constructor; cbn [fst snd]; try lia;
      discriminate.
  - now left.
  - reflexivity.
  - reflexivity.
Defined.

(* ================================================================== *)
(** ** A size range with its bounds inverted                           *)
(* ================================================================== *)

Lemma leb_trans a b c :
  storage.leb a b = true -> storage.leb b c = true -> storage.leb a c = true.
Proof.
  unfold storage.leb.
  destruct (storage.compare a b) eqn:E1; destruct (storage.compare b c) eqn:E2;
    try discriminate; intros _ _.
  - apply compare_eq in E1, E2. subst. now rewrite compare_refl.
  - apply compare_eq in E1. subst. now rewrite E2.
  - apply compare_eq in E2. subst. now rewrite E1.
  - pose proof (lt_trans a b c E1 E2) as X. unfold storage.lt in X. now rewrite X.
Qed.

Section InvertedRange.
Context {C : Collaborators}.

(** X12.  When the upper bound of a query is given and lies below the
    lower bound, [GetSizeRange] answers the empty JSON list without error,
    whatever the small-data store holds: no key is read, so that a key that
    is not a size index key cannot make the query fail. *)
Theorem GetSizeRange_inverted_bounds : forall w store minSize maxSize,
  smalldata w = Some store -> fst (nextFault w) = false ->
  isUint64 minSize -> isUint64 maxSize ->
  maxSize <> 0 -> maxSize < minSize ->
  GetSizeRange w minSize maxSize = ("[]"%string, None, snd (nextFault w)).
Proof.
  intros w store minSize maxSize Hs Hf Hmin Hmax H0 Hlt.
  unfold GetSizeRange, KeysInRange. rewrite Hs.
  destruct (nextFault w) as [f w1]; cbn [fst snd] in *. subst f.
  apply Z.eqb_neq in H0. rewrite H0. cbn [negb].
  assert (R : kvRange (NewLabelSizesIndex minSize 0)
                      (NewLabelSizesIndex maxSize MaxUint64) store = []).
  { unfold kvRange. apply filter_nothing. intros [k v] _. cbn [fst].
    destruct (inRange _ _ k) eqn:E; [|reflexivity]. exfalso.
    unfold inRange in E. apply andb_prop in E. destruct E as [E1 E2].
    pose proof (leb_trans _ _ _ E1 E2) as L. unfold storage.leb in L.
    rewrite compare_sizeKeys in L
      by first [assumption | apply isUint64_0 | apply isUint64_MaxUint64].
    destruct (Z.compare_spec minSize maxSize) as [X|X|X];
      [lia | lia | discriminate L]. }
  rewrite R. reflexivity.
Qed.

End InvertedRange.

Lemma GetSizeRange_inverted_bounds_witness :
  GetSizeRange (C := Demo.collaborators) Demo.sized 6 4 =
    ("[]"%string, None, Demo.sized).
Proof.
  apply (GetSizeRange_inverted_bounds (C := Demo.collaborators)
           Demo.sized Demo.sizes 6 4).
  - reflexivity.
  - reflexivity.
  - unfold isUint64; lia.
  - unfold isUint64; lia.
  - lia.
  - lia.
Defined.

(* ================================================================== *)
(** ** Logging and timing (utils.go)                                   *)
(* ================================================================== *)

Section Logging.
Import utils.

Lemma received_print to o st :
  received to (print o st) =
  received to st ++ (if sameSink (sinkOf o) to then [o] else []).
Proof. unfold received, print. cbn [printed]. now rewrite filter_app. Qed.

Lemma sameSink_refl to : sameSink to to = true.
Proof. destruct to; cbn [sameSink]; [reflexivity | reflexivity | apply Nat.eqb_refl]. Qed.

(** X13.  [ElapsedTime] asserts that its first message argument is a
    string before the mode is looked at: it panics on an argument of
    another type whatever the mode, and in no other case, while [Fmt] and
    [Log] called with a mode that is not the mode of the process return
    without a look at their arguments.  When it returns, [ElapsedTime] has
    printed nothing if the mode is not the mode of the process, and
    otherwise one formatted line on the standard output, whose arguments
    are the arguments after the first, then the elapsed time: it never
    prints the line for a missing message. *)
Theorem ElapsedTime_asserts_whatever_the_mode : forall modes startTime p st,
  (ElapsedTime modes startTime p st = Panics <->
     exists x rest, p = x :: rest /\ forall s, x <> AString s) /\
  (modes <> Mode st ->
     Fmt modes p st = Returns st /\ Log modes p st = Returns st) /\
  (forall st', ElapsedTime modes startTime p st = Returns st' ->
     if modes =? Mode st
     then exists format,
       printed st' = printed st ++
         [OutPrintf Stdout format (tl p ++ [ADuration (clock st - startTime)])]
     else st' = st).
Proof.
  intros modes startTime p st. split; [split|split].
  - destruct p as [|[s|n|d|t] rest]; unfold ElapsedTime, Fmt, message;
      cbn [app]; destruct (modes =? Mode st); try discriminate; intros _;
      eexists _, _; (split; [reflexivity | intros s' X; discriminate X]).
  - intros (x & rest & -> & Hx).
    destruct x; [exfalso; now apply (Hx s) | reflexivity ..].
  - intros Hne. apply Z.eqb_neq in Hne. unfold Fmt, Log. rewrite Hne. now split.
  - intros st' H.
    destruct p as [|[s|n|d|t] rest]; unfold ElapsedTime, Fmt, message in H;
      cbn [app] in H; try discriminate H;
      destruct (modes =? Mode st); injection H as <-;
      try reflexivity; eexists; reflexivity.
Qed.

(** X14.  After [SetErrorLoggingFile(out)], a call of [Error] that returns
    has sent the same line to the standard logger and to [out], which has
    received the line of the start of the logging before it; the standard
    output and every other writer, the writer of an earlier
    [SetErrorLoggingFile] included, have received nothing. *)
Theorem Error_reaches_both_logs : forall out p st st',
  Error p (SetErrorLoggingFile out st) = Returns st' ->
  exists line : Sink -> Output,
    (p = [] -> forall to, line to = OutPrintln to "No message") /\
    (forall format args, p = AString format :: args ->
       forall to, line to = OutPrintf to format args) /\
    received StdLogger st' = received StdLogger st ++ [line StdLogger] /\
    received (ErrorLog out) st' =
      received (ErrorLog out) st ++
        [OutPrintln (ErrorLog out) "Starting error logging for DVID";
         line (ErrorLog out)] /\
    (forall other, other <> out ->
       received (ErrorLog other) st' = received (ErrorLog other) st) /\
    received Stdout st' = received Stdout st.
Proof.
  intros out p st st' H.
  assert (R : forall o1 o2 to,
    received to (print o2 (print o1 (SetErrorLoggingFile out st))) =
    received to st
      ++ (if sameSink (ErrorLog out) to
          then [OutPrintln (ErrorLog out) "Starting error logging for DVID"] else [])
      ++ (if sameSink (sinkOf o1) to then [o1] else [])
      ++ (if sameSink (sinkOf o2) to then [o2] else [])).
  { intros o1 o2 to. unfold SetErrorLoggingFile. rewrite !received_print.
    cbn [sinkOf]. rewrite <- !app_assoc. reflexivity. }
  assert (N : forall other, other <> out -> Nat.eqb out other = false).
  { intros other Hne. apply Nat.eqb_neq. congruence. }
  destruct p as [|[format|n|d|t] args]; unfold Error, message in H;
    cbn [errorLogger print SetErrorLoggingFile] in H; try discriminate H;
    injection H as <-.
  - exists (fun to => OutPrintln to "No message").
    split; [reflexivity|]. split; [discriminate|].
    change (print (OutPrintln (ErrorLog out) "No message")
              (print (OutPrintln StdLogger "No message")
                 (print (OutPrintln (ErrorLog out) "Starting error logging for DVID")
                    {| Mode := Mode st; errorLogger := Some out; clock := clock st;
                       printed := printed st |})))
      with (print (OutPrintln (ErrorLog out) "No message")
              (print (OutPrintln StdLogger "No message") (SetErrorLoggingFile out st))).
    rewrite !R. cbn [sinkOf sameSink app]. rewrite Nat.eqb_refl.
    repeat split; rewrite ?app_nil_r; try reflexivity.
    intros other Hne. rewrite R. cbn [sinkOf sameSink app].
    rewrite (N other Hne). now rewrite !app_nil_r.
  - exists (fun to => OutPrintf to format args).
    split; [discriminate|].
    split; [intros f a E; injection E as <- <-; reflexivity|].
    change (print (OutPrintf (ErrorLog out) format args)
              (print (OutPrintf StdLogger format args)
                 (print (OutPrintln (ErrorLog out) "Starting error logging for DVID")
                    {| Mode := Mode st; errorLogger := Some out; clock := clock st;
                       printed := printed st |})))
      with (print (OutPrintf (ErrorLog out) format args)
              (print (OutPrintf StdLogger format args) (SetErrorLoggingFile out st))).
    rewrite !R. cbn [sinkOf sameSink app]. rewrite Nat.eqb_refl.
    repeat split; rewrite ?app_nil_r; try reflexivity.
    intros other Hne. rewrite R. cbn [sinkOf sameSink app].
    rewrite (N other Hne). now rewrite !app_nil_r.
Qed.

Lemma nonzero_from value : forall n, nonzero value n = n + nonzero value 0.
Proof.
  induction value as [|b value IH]; intros n; cbn [nonzero]; [lia|].
  destruct (negb (byte.unsigned b =? 0)).
  - rewrite (IH (n + 1)), (IH (0 + 1)). lia.
  - apply IH.
Qed.

Lemma nonzero_bounds value :
  0 <= nonzero value 0 <= len value /\
  (nonzero value 0 = 0 <-> Forall (fun b => byte.unsigned b = 0) value) /\
  (nonzero value 0 = len value <-> Forall (fun b => byte.unsigned b <> 0) value).
Proof.
  induction value as [|b value (B & Z0 & ZA)].
  - cbn. repeat split; auto; lia.
  - cbn [nonzero]. unfold len in *. cbn [List.length]. rewrite Nat2Z.inj_succ.
    destruct (Z.eqb_spec (byte.unsigned b) 0) as [E|E]; cbn [negb].
    + split; [lia|]. split.
      * split.
        -- intros H. constructor; [exact E | now apply Z0].
        -- intros H. inversion H; subst. now apply Z0.
      * split.
        -- intros H. lia.
        -- intros H. inversion H; subst. contradiction.
    + rewrite (nonzero_from value (0 + 1)). split; [lia|]. split.
      * split.
        -- intros H. lia.
        -- intros H. inversion H; subst. contradiction.
      * split.
        -- intros H. constructor; [exact E|]. apply ZA. lia.
        -- intros H. inversion H as [|? ? _ Hv]; subst. apply ZA in Hv. lia.
Qed.

(** X15.  [PrintNonZero] prints one line on the standard output, with the
    message, a count and the length of the slice.  The count lies between
    0 and the length; it is 0 exactly when every byte is zero, and the
    length exactly when no byte is. *)
Theorem PrintNonZero_counts : forall msg value st,
  exists n,
    printed (PrintNonZero msg value st) =
      printed st ++
        [OutPrintf Stdout ("%s> non-zero voxels: %d of %d bytes" ++ nl)
           [AString msg; AInt n; AInt (len value)]] /\
    0 <= n <= len value /\
    (n = 0 <-> Forall (fun b => byte.unsigned b = 0) value) /\
    (n = len value <-> Forall (fun b => byte.unsigned b <> 0) value).
Proof.
  intros msg value st. exists (nonzero value 0).
  split; [reflexivity | apply nonzero_bounds].
Qed.

End Logging.

Lemma Error_reaches_both_logs_witness :
  exists line : utils.Sink -> utils.Output,
    ([utils.AString "bad block %d"; utils.AInt 3] = [] ->
       forall to, line to = utils.OutPrintln to "No message") /\
    (forall format args,
       [utils.AString "bad block %d"; utils.AInt 3] = utils.AString format :: args ->
       forall to, line to = utils.OutPrintf to format args) /\
    utils.received utils.StdLogger
      {| utils.Mode := utils.Normal; utils.errorLogger := Some 1%nat; utils.clock := 0;
         utils.printed :=
           [ utils.OutPrintln (utils.ErrorLog 1) "Starting error logging for DVID";
             utils.OutPrintf utils.StdLogger "bad block %d" [utils.AInt 3];
             utils.OutPrintf (utils.ErrorLog 1) "bad block %d" [utils.AInt 3] ] |} =
      utils.received utils.StdLogger
        {| utils.Mode := utils.Normal; utils.errorLogger := None; utils.clock := 0;
           utils.printed := [] |} ++ [line utils.StdLogger] /\
    utils.received (utils.ErrorLog 1)
      {| utils.Mode := utils.Normal; utils.errorLogger := Some 1%nat; utils.clock := 0;
         utils.printed :=
           [ utils.OutPrintln (utils.ErrorLog 1) "Starting error logging for DVID";
             utils.OutPrintf utils.StdLogger "bad block %d" [utils.AInt 3];
             utils.OutPrintf (utils.ErrorLog 1) "bad block %d" [utils.AInt 3] ] |} =
      utils.received (utils.ErrorLog 1)
        {| utils.Mode := utils.Normal; utils.errorLogger := None; utils.clock := 0;
           utils.printed := [] |} ++
        [utils.OutPrintln (utils.ErrorLog 1) "Starting error logging for DVID";
         line (utils.ErrorLog 1)] /\
    (forall other, other <> 1%nat ->
       utils.received (utils.ErrorLog other)
         {| utils.Mode := utils.Normal; utils.errorLogger := Some 1%nat; utils.clock := 0;
            utils.printed :=
              [ utils.OutPrintln (utils.ErrorLog 1) "Starting error logging for DVID";
                utils.OutPrintf utils.StdLogger "bad block %d" [utils.AInt 3];
                utils.OutPrintf (utils.ErrorLog 1) "bad block %d" [utils.AInt 3] ] |} =
       utils.received (utils.ErrorLog other)
         {| utils.Mode := utils.Normal; utils.errorLogger := None; utils.clock := 0;
            utils.printed := [] |}) /\
    utils.received utils.Stdout
      {| utils.Mode := utils.Normal; utils.errorLogger := Some 1%nat; utils.clock := 0;
         utils.printed :=
           [ utils.OutPrintln (utils.ErrorLog 1) "Starting error logging for DVID";
             utils.OutPrintf utils.StdLogger "bad block %d" [utils.AInt 3];
             utils.OutPrintf (utils.ErrorLog 1) "bad block %d" [utils.AInt 3] ] |} =
      utils.received utils.Stdout
        {| utils.Mode := utils.Normal; utils.errorLogger := None; utils.clock := 0;
           utils.printed := [] |}.
Proof.
  exact (Error_reaches_both_logs 1%nat
           [utils.AString "bad block %d"; utils.AInt 3]
           {| utils.Mode := utils.Normal; utils.errorLogger := None;
              utils.clock := 0; utils.printed := [] |}
           _ eq_refl).
Defined.

(* ================================================================== *)
(** ** Image helpers (utils.go)                                        *)
(* ================================================================== *)

Section ImageHelpers.
Import utils.

(** A number in decimal holds no colon. *)
Lemma Split_digits d :
  Split (NilEmpty.string_of_uint d) ":" = [NilEmpty.string_of_uint d].
Proof.
  induction d; cbn [NilEmpty.string_of_uint Split]; [reflexivity | ..];
    cbn [Ascii.eqb Bool.eqb]; now rewrite IHd.
Qed.

Lemma Split_decimal d :
  Split (NilZero.string_of_uint d) ":" = [NilZero.string_of_uint d].
Proof.
  destruct d; [reflexivity | ..]; apply Split_digits.
Qed.

Lemma to_uint_nonnil n : N.to_uint n <> Decimal.Nil.
Proof.
  destruct n as [|p]; [discriminate|]. apply DecimalPos.Unsigned.to_uint_nonnil.
Qed.

(** [strconv.Atoi] reads back what is printed in decimal. *)
Lemma Atoi_decimal q : 0 <= q < 2 ^ 63 -> Atoi (decimal q) = Some q.
Proof.
  intros Hq. unfold decimal.
  pose proof (to_uint_nonnil (Z.to_N q)) as Hn.
  pose proof (DecimalN.Unsigned.of_to (Z.to_N q)) as Hv.
  pose proof (NilZero.usu (N.to_uint (Z.to_N q)) Hn) as Hu.
  assert (R : (- 2 ^ 63 <=? q) && (q <=? 2 ^ 63 - 1) = true).
  { apply andb_true_intro. split; apply Z.leb_le; lia. }
  assert (S : forall s,
            (exists c r, s = String c r /\ c <> "+"%char /\ c <> "-"%char) ->
            Atoi s =
            match NilZero.uint_of_string s with
            | None => None
            | Some d =>
                if (- 2 ^ 63 <=? Z.of_N (N.of_uint d))
                   && (Z.of_N (N.of_uint d) <=? 2 ^ 63 - 1)
                then Some (Z.of_N (N.of_uint d)) else None
            end).
  { intros s (c & r & -> & Hp & Hm). unfold Atoi.
    destruct c as [[] [] [] [] [] [] [] []]; try reflexivity; congruence. }
  rewrite S.
  - rewrite Hu, Hv, Z2N.id by lia. now rewrite R.
  - destruct (N.to_uint (Z.to_N q)); [congruence | ..];
      eexists _, _; (split; [reflexivity | split; discriminate]).
Qed.

Lemma Split_field c s :
  c <> ":"%char ->
  Split (String c s) ":" =
  String c (hd EmptyString (Split s ":")) :: tl (Split s ":").
Proof.
  intros Hc. cbn [Split]. apply Ascii.eqb_neq in Hc. rewrite Hc.
  destruct (Split s ":"); reflexivity.
Qed.

(** X16.  What [WriteImageHttp] hands to the encoders.  Without a colon in
    the format string a JPEG is encoded with the default quality of 80;
    with a quality after the colon, written in decimal, the JPEG is encoded
    with that quality, as it is, whether it is a quality of JPEG or not;
    for a PNG the quality is read and dropped.  The header is set before
    the image is encoded. *)
Theorem WriteImageHttp_quality :
  forall (Image : Type) (w : list (HttpEvent Image)) (img : Image) (q : Z),
  0 <= q < 2 ^ 63 ->
  WriteImageHttp w img "jpg" =
    (w ++ [HeaderSet "Content-type" "image/jpeg"; JpegEncode img 80], None) /\
  WriteImageHttp w img ("jpg:" ++ decimal q) =
    (w ++ [HeaderSet "Content-type" "image/jpeg"; JpegEncode img q], None) /\
  WriteImageHttp w img ("jpeg:" ++ decimal q) =
    (w ++ [HeaderSet "Content-type" "image/jpeg"; JpegEncode img q], None) /\
  WriteImageHttp w img ("png:" ++ decimal q) =
    (w ++ [HeaderSet "Content-type" "image/png"; PngEncode img], None) /\
  WriteImageHttp w img (":" ++ decimal q) =
    (w ++ [HeaderSet "Content-type" "image/png"; PngEncode img], None).
Proof.
  intros Image w img q Hq.
  pose proof (Atoi_decimal q Hq) as A.
  pose proof (Split_decimal (N.to_uint (Z.to_N q))) as S. fold (decimal q) in S.
  split; [reflexivity|].
  repeat split; unfold WriteImageHttp; cbn [String.append];
    rewrite ?Split_field by discriminate; cbn [Split Ascii.eqb Bool.eqb];
    rewrite S; cbn [hd tl len List.length nth Z.of_nat Pos.of_succ_nat Pos.succ Z.ltb Z.compare Pos.compare Pos.compare_cont];
    rewrite A; reflexivity.
Qed.

(** X17.  When [WriteImageHttp] returns an error, nothing has reached the
    response: neither a header nor an image.  A second field of the format
    string that is not a number is an error whatever the first field, also
    for a PNG, which has no quality.  When no error is returned, the
    content type has been set and one image encoded, in this order. *)
Theorem WriteImageHttp_refusal :
  forall (Image : Type) (w : list (HttpEvent Image)) (img : Image) formatStr,
  (snd (WriteImageHttp w img formatStr) <> None ->
     fst (WriteImageHttp w img formatStr) = w) /\
  (forall name field rest,
     Split formatStr ":" = name :: field :: rest -> Atoi field = None ->
     WriteImageHttp w img formatStr = (w, Some ErrAtoi)) /\
  (snd (WriteImageHttp w img formatStr) = None ->
     exists contentType encoded,
       fst (WriteImageHttp w img formatStr) =
         w ++ [HeaderSet "Content-type" contentType; encoded] /\
       (encoded = PngEncode img \/ exists Quality, encoded = JpegEncode img Quality)).
Proof.
  intros Image w img formatStr. unfold WriteImageHttp. repeat split.
  - destruct (1 <? len (Split formatStr ":"));
      [destruct (Atoi (nth 1 (Split formatStr ":") EmptyString))|];
      cbn [fst snd]; try reflexivity;
      destruct (_ || _); cbn [fst snd]; try congruence;
      destruct (_ || _); cbn [fst snd]; congruence.
  - intros name field rest E A. rewrite E. unfold len. cbn [List.length nth].
    rewrite A.
    replace (1 <? Z.of_nat (S (S (List.length rest)))) with true
      by (symmetry; apply Z.ltb_lt; lia).
    reflexivity.
  - destruct (1 <? len (Split formatStr ":"));
      [destruct (Atoi (nth 1 (Split formatStr ":") EmptyString))|];
      cbn [fst snd]; try discriminate;
      destruct (_ || _); cbn [fst snd];
      try (intros _; eexists _, _; split; [reflexivity | now left]);
      destruct (_ || _); cbn [fst snd]; try discriminate;
      intros _; eexists _, _; (split; [reflexivity | right; eexists; reflexivity]).
Qed.

Lemma unclosed_app fs fs' : unclosed (fs ++ fs') = unclosed fs + unclosed fs'.
Proof.
  induction fs as [|[f|f] fs IH]; cbn [app unclosed]; lia.
Qed.

(** X18.  [ImageFromPost] closes the file of the form on every way out.
    [ImageFromFile] closes the file it has opened only when the image
    decodes: when it does not, the decoder's error is returned and the file
    is left open.  When the image decodes and the file does not close, the
    image is returned together with the error of the close. *)
Theorem image_files_closed :
  forall (Image : Type) Open FormFile Decode Close name fs,
  unclosed (snd (ImageFromPost Image FormFile Decode name fs)) = unclosed fs /\
  unclosed (snd (ImageFromFile Image Open Decode Close name fs)) =
    unclosed fs +
    match Open name with
    | Some file =>
        match Decode (FromFile file) with None => 1 | Some _ => 0 end
    | None => 0
    end /\
  (forall file img format,
     Open name = Some file -> Decode (FromFile file) = Some (img, format) ->
     fst (ImageFromFile Image Open Decode Close name fs) =
       (Some img, format, Close file)).
Proof.
  intros Image Open FormFile Decode Close name fs. repeat split.
  - unfold ImageFromPost. destruct (FormFile name) as [f|]; [|reflexivity].
    destruct (Decode (FromBuffer f)) as [[img format]|]; cbn [snd];
      rewrite !unclosed_app; cbn [unclosed]; lia.
  - unfold ImageFromFile. destruct (Open name) as [f|]; [|cbn [snd]; lia].
    destruct (Decode (FromFile f)) as [[img format]|]; cbn [snd];
      rewrite !unclosed_app; cbn [unclosed]; lia.
  - intros file img format E D. unfold ImageFromFile. now rewrite E, D.
Qed.

End ImageHelpers.

Lemma WriteImageHttp_quality_witness :
  utils.WriteImageHttp (Image := nat) [] 7%nat ("jpg:" ++ decimal 95) =
    ([utils.HeaderSet "Content-type" "image/jpeg"; utils.JpegEncode 7%nat 95], None).
Proof.
  apply (WriteImageHttp_quality nat [] 7%nat 95). lia.
Defined.

(* ================================================================== *)
(** ** Nothing is received after the exit                              *)
(* ================================================================== *)

Section AfterExit.
Context {C : Collaborators}.

Lemma ComputeSizes_loop_prefix ch more : forall st w,
  fst (ComputeSizes_loop st w ch) <> Blocked ->
  ComputeSizes_loop st w (ch ++ more) = ComputeSizes_loop st w ch.
Proof.
  induction ch as [|chunk ch IH]; intros st w; cbn [app ComputeSizes_loop].
  - cbn [fst]. congruence.
  - destruct (ComputeSizes_body st w chunk) as [st1 w1|e w1]; [apply IH | reflexivity].
Qed.

Lemma ComputeSurface_loop_prefix ch more : forall st w,
  fst (ComputeSurface_loop st w ch) <> Blocked ->
  ComputeSurface_loop st w (ch ++ more) = ComputeSurface_loop st w ch.
Proof.
  induction ch as [|chunk ch IH]; intros st w; cbn [app ComputeSurface_loop].
  - cbn [fst]. congruence.
  - destruct (ComputeSurface_body st w chunk) as [st1 w1|e w1]; [apply IH | reflexivity].
Qed.

(** X19.  Once a consumer has returned, at the nil chunk or on an error,
    what is sent on the channel afterwards is not received: the run is the
    same whatever follows in the channel.  In particular the chunks sent
    after the first nil chunk are never read. *)
Theorem consumers_receive_nothing_after_exit : forall w ch more,
  (fst (ComputeSizes w ch) <> Blocked ->
     ComputeSizes w (ch ++ more) = ComputeSizes w ch) /\
  (fst (ComputeSurface w ch) <> Blocked ->
     ComputeSurface w (ch ++ more) = ComputeSurface w ch) /\
  (In None ch -> fst (ComputeSizes w ch) <> Blocked /\
                 fst (ComputeSurface w ch) <> Blocked).
Proof.
  intros w ch more. split; [|split].
  - unfold ComputeSizes. destruct (batching w); [|reflexivity].
    intros H. rewrite ComputeSizes_loop_prefix; [reflexivity|].
    destruct (ComputeSizes_loop Sizes.init w ch) as [[] w1]; cbn [fst] in *;
      congruence.
  - unfold ComputeSurface.
    intros H. rewrite ComputeSurface_loop_prefix; [reflexivity|].
    destruct (ComputeSurface_loop Surface.init w ch) as [[] w1]; cbn [fst] in *;
      congruence.
  - intros Hin. split.
    + unfold ComputeSizes. destruct (batching w); [|discriminate].
      destruct (ComputeSizes_loop Sizes.init w ch) as [e w1] eqn:E.
      destruct (ComputeSizes_loop_frame ch _ _ _ _ E) as (_ & _ & _ & N).
      specialize (N Hin). destruct e; cbn [fst]; congruence.
    + unfold ComputeSurface.
      destruct (ComputeSurface_loop Surface.init w ch) as [e w1] eqn:E.
      destruct (ComputeSurface_loop_exit isWgDone _ _ _ _ _
                  (fun _ => eq_refl) (fun _ _ => eq_refl) (fun _ => eq_refl) E)
        as (_ & _ & N).
      specialize (N Hin). destruct e; cbn [fst]; congruence.
Qed.

End AfterExit.

Lemma consumers_receive_nothing_after_exit_witness :
  ComputeSizes (C := Demo.collaborators) Demo.world
    ([Some {| Op := 4; V := Demo.run 2 |}; None]
     ++ [Some {| Op := 5; V := Demo.run 3 |}; None]) =
  ComputeSizes (C := Demo.collaborators) Demo.world
    [Some {| Op := 4; V := Demo.run 2 |}; None].
Proof.
  apply (consumers_receive_nothing_after_exit (C := Demo.collaborators) Demo.world
           [Some {| Op := 4; V := Demo.run 2 |}; None]
           [Some {| Op := 5; V := Demo.run 3 |}; None]).
  apply (consumers_receive_nothing_after_exit (C := Demo.collaborators) Demo.world
           [Some {| Op := 4; V := Demo.run 2 |}; None]
           [Some {| Op := 5; V := Demo.run 3 |}; None]).
  cbn [In]. right. now left.
Defined.

(* ================================================================== *)
(** ** The helpers of utils.go on examples                             *)
(* ================================================================== *)

Lemma ElapsedTime_asserts_whatever_the_mode_witness :
  utils.ElapsedTime utils.Debug 0 [utils.AInt 3]
    {| utils.Mode := utils.Normal; utils.errorLogger := None; utils.clock := 5;
       utils.printed := [] |} = utils.Panics /\
  utils.Fmt utils.Debug [utils.AInt 3]
    {| utils.Mode := utils.Normal; utils.errorLogger := None; utils.clock := 5;
       utils.printed := [] |} =
  utils.Returns
    {| utils.Mode := utils.Normal; utils.errorLogger := None; utils.clock := 5;
       utils.printed := [] |}.
Proof.
  split.
  - apply (ElapsedTime_asserts_whatever_the_mode utils.Debug 0 [utils.AInt 3]).
    exists (utils.AInt 3), []. split; [reflexivity | discriminate].
  - apply (ElapsedTime_asserts_whatever_the_mode utils.Debug 0 [utils.AInt 3]).
    discriminate.
Defined.

Lemma WriteImageHttp_refusal_witness :
  utils.WriteImageHttp (Image := nat) [] 7%nat "png:fast" = ([], Some utils.ErrAtoi).
Proof.
  apply (proj1 (proj2 (WriteImageHttp_refusal nat [] 7%nat "png:fast"))
           "png"%string "fast"%string []); reflexivity.
Defined.

Lemma image_files_closed_witness :
  utils.unclosed
    (snd (utils.ImageFromFile nat (fun _ => Some 3%nat) (fun _ => None)
            (fun _ => None) "a.png" [])) = 0 + 1.
Proof.
  apply (image_files_closed nat (fun _ => Some 3%nat) (fun _ => None)
           (fun _ => None) (fun _ => None) "a.png"%string []).
Defined.

(* ================================================================== *)
(** ** The queries only read                                           *)
(* ================================================================== *)

Section Queries.
Context {C : Collaborators}.

Lemma fold_sparseVolChunk_blocks vs : forall op,
  0 <= numBlocks op < 2 ^ 32 ->
  numBlocks (fold_left sparseVolChunk vs op) = uint32 (numBlocks op + len vs).
Proof.
  induction vs as [|v vs IH]; intros op Hr; cbn [fold_left].
  - unfold len. cbn [List.length Z.of_nat]. rewrite Z.add_0_r.
    unfold uint32. now rewrite Z.mod_small.
  - rewrite IH by (cbn [sparseVolChunk numBlocks]; apply uint32_range).
    cbn [sparseVolChunk numBlocks]. rewrite uint32_add_l. f_equal.
    unfold len. cbn [List.length]. lia.
Qed.

(** X20.  The three queries leave both stores as they are.  [GetSurface]
    and [GetSizeRange] record nothing.  [GetSparseVol] records one debug
    line when it returns a blob, with the number of values scanned and the
    number of their runs, both modulo 2^32, and nothing when it returns an
    error. *)
Theorem queries_leave_the_stores : forall w label minSize maxSize,
  (bigdata (snd (GetSurface w label)) = bigdata w /\
   smalldata (snd (GetSurface w label)) = smalldata w /\
   events (snd (GetSurface w label)) = events w) /\
  (bigdata (snd (GetSizeRange w minSize maxSize)) = bigdata w /\
   smalldata (snd (GetSizeRange w minSize maxSize)) = smalldata w /\
   events (snd (GetSizeRange w minSize maxSize)) = events w) /\
  (bigdata (snd (GetSparseVol w label)) = bigdata w /\
   smalldata (snd (GetSparseVol w label)) = smalldata w /\
   events (snd (GetSparseVol w label)) =
     events w ++
     match fst (fst (GetSparseVol w label)), smalldata w with
     | Some _, Some store =>
         [EvDebug (uint32 (len (matchedRuns store label)))
                  (uint32 (sumRuns (matchedRuns store label)))]
     | _, _ => []
     end).
Proof.
  intros w label minSize maxSize.
  pose proof (bigdata_nextFault w) as B. pose proof (smalldata_nextFault w) as S.
  pose proof (events_nextFault w) as E.
  split; [|split].
  - unfold GetSurface, Get. destruct (bigdata w) as [store|] eqn:Hb;
      [|cbn [snd]; repeat split; congruence].
    destruct (nextFault w) as [[] w1]; cbn [snd] in *;
      [repeat split; congruence|].
    destruct (kvGet _ store) as [data|]; [|cbn [snd]; repeat split; congruence].
    destruct (DeserializeData data false); cbn [snd]; repeat split; congruence.
  - unfold GetSizeRange, KeysInRange. destruct (smalldata w) as [store|] eqn:Hs;
      [|cbn [snd]; repeat split; congruence].
    destruct (nextFault w) as [[] w1]; cbn [snd] in *;
      [repeat split; congruence|].
    destruct (labelsFromKeys _); cbn [snd]; repeat split; congruence.
  - unfold GetSparseVol, ProcessRange. destruct (smalldata w) as [store|] eqn:Hs.
    + destruct (nextFault w) as [[] w1]; cbn [fst snd] in *.
      * rewrite app_nil_r. repeat split; congruence.
      * fold (matchedRuns store label).
        destruct (fold_sparseVolChunk (matchedRuns store label)
                    {| encoding := sparseVolHeader; numBlocks := 0; numRuns := 0 |})
          as (_ & N); [cbn [numRuns]; lia|].
        rewrite events_emit, N, fold_sparseVolChunk_blocks by (cbn [numBlocks]; lia).
        cbn [emit bigdata smalldata numBlocks numRuns]. rewrite !Z.add_0_l.
        repeat split; congruence.
    + cbn [fst snd]. rewrite app_nil_r. repeat split; congruence.
Qed.

End Queries.

(* ================================================================== *)
(** ** Each consumer writes under its own keys                         *)
(* ================================================================== *)

Section OwnKeys.
Context {C : Collaborators}.

Lemma ComputeSizes_body_writes st w chunk :
  exists es,
    events (outcomeWorld (ComputeSizes_body st w chunk)) = events w ++ es /\
    Forall sizesWrite es.
Proof.
  assert (K : forall v, sizesWrite
            (EvBatchPut (NewLabelSizesIndex (Sizes.curSize st) (Sizes.curLabel st)) v))
    by (intros v; cbn [sizesWrite]; eexists _, _; reflexivity).
  unfold ComputeSizes_body. destruct chunk as [c|].
  - destruct (UnmarshalBinary (V c)) as [r|].
    + destruct (Sizes.notFirst st && negb (Op c =? Sizes.curLabel st)).
      * unfold BatchPut.
        destruct (Z.rem (int (Sizes.putsInBatch st + 1)) BATCH_SIZE =? 0).
        -- match goal with
           | |- context [Commit ?b ?x] =>
               destruct (Commit_events b x) as (ok & E & _);
               destruct (Commit b x) as [[err|] w2]
           end; cbn [snd outcomeWorld] in *; unfold info;
             rewrite !events_emit, E, events_emit, <- !app_assoc;
             eexists; (split; [reflexivity|]);
             repeat constructor; apply K.
        -- cbn [outcomeWorld]. rewrite events_emit. eexists.
           split; [reflexivity|]. repeat constructor. apply K.
      * cbn [outcomeWorld]. exists []. rewrite app_nil_r. split; constructor.
    + cbn [outcomeWorld]. unfold info. rewrite events_emit. eexists.
      split; [reflexivity|]. repeat constructor.
  - unfold BatchPut.
    match goal with
    | |- context [Commit ?b ?x] =>
        destruct (Commit_events b x) as (ok & E & _);
        destruct (Commit b x) as [[err|] w2]
    end; cbn [snd outcomeWorld] in *; unfold info;
      rewrite ?events_emit, E, events_emit, <- !app_assoc;
      eexists; (split; [reflexivity|]);
      repeat constructor; apply K.
Qed.

Lemma ComputeSizes_loop_writes ch : forall st w e w',
  ComputeSizes_loop st w ch = (e, w') ->
  exists es, events w' = events w ++ es /\ Forall sizesWrite es.
Proof.
  induction ch as [|chunk ch IH]; intros st w e w'; cbn [ComputeSizes_loop].
  - intros H; injection H as <- <-. exists []. rewrite app_nil_r. split; constructor.
  - destruct (ComputeSizes_body_writes st w chunk) as (es & E & F).
    destruct (ComputeSizes_body st w chunk) as [st1 w1|e1 w1];
      cbn [outcomeWorld] in E.
    + intros H. destruct (IH _ _ _ _ H) as (es' & E' & F').
      exists (es ++ es'). split; [rewrite E', E; symmetry; apply app_assoc|].
      apply Forall_app. now split.
    + intros H; injection H as <- <-. now exists es.
Qed.

Lemma computeAndSaveSurface_writes (labels : Z -> Prop) w vol :
  labels (Label vol) ->
  exists es,
    events (snd (computeAndSaveSurface w vol)) = events w ++ es /\
    Forall (surfaceWrite labels) es.
Proof.
  intros Hl. unfold computeAndSaveSurface.
  assert (D : exists es,
            events (emit (EvSurface vol) w) = events w ++ es /\
            Forall (surfaceWrite labels) es)
    by (exists [EvSurface vol]; split; [reflexivity | repeat constructor]).
  destruct (SurfaceSerialization vol); [|exact D].
  destruct (bigdata (emit (EvSurface vol) w)); [|exact D].
  destruct (SerializeData b); [|exact D].
  unfold Put.
  pose proof (events_nextFault (emit (EvSurface vol) w)) as E.
  destruct (nextFault (emit (EvSurface vol) w)) as [f w1]; cbn [snd] in E.
  destruct f; cbn [snd].
  - exists [EvSurface vol]. rewrite E. split; [reflexivity | repeat constructor].
  - exists [EvSurface vol; EvPut (NewLabelSurfaceIndex (Label vol)) b0].
    rewrite events_emit.
    change (events (setBig (kvPut (NewLabelSurfaceIndex (Label vol)) b0 k) w1))
      with (events w1).
    rewrite E, events_emit, <- app_assoc. split; [reflexivity|].
    repeat constructor. cbn [surfaceWrite]. now exists (Label vol).
Qed.

Lemma ComputeSurface_body_writes (labels : Z -> Prop) st w chunk :
  (Surface.notFirst st = true -> labels (Label (Surface.curVol st))) ->
  exists es,
    events (outcomeWorld (ComputeSurface_body st w chunk)) = events w ++ es /\
    Forall (surfaceWrite labels) es.
Proof.
  intros Hn.
  assert (Z0 : exists es, events w = events w ++ es /\ Forall (surfaceWrite labels) es)
    by (exists []; rewrite app_nil_r; split; constructor).
  assert (I : forall w1,
            (exists es, events w1 = events w ++ es /\ Forall (surfaceWrite labels) es) ->
            forall m, exists es, events (info m w1) = events w ++ es /\
                                 Forall (surfaceWrite labels) es).
  { intros w1 (es & E & F) m. exists (es ++ [EvInfo m]). unfold info.
    rewrite events_emit, E, <- app_assoc. split; [reflexivity|].
    apply Forall_app. split; [exact F | repeat constructor]. }
  unfold ComputeSurface_body. destruct chunk as [c|].
  - destruct (negb (Op c =? Surface.curLabel st) || (Op c =? 0)).
    + destruct (Surface.notFirst st).
      * pose proof (computeAndSaveSurface_writes labels w (Surface.curVol st)
                      (Hn eq_refl)) as K.
        destruct (computeAndSaveSurface w (Surface.curVol st)) as [[err|] w1];
          cbn [snd] in K.
        -- cbn [outcomeWorld]. now apply I.
        -- destruct (AddRLEs _ _); cbn [outcomeWorld]; [exact K | now apply I].
      * destruct (AddRLEs _ _); cbn [outcomeWorld]; [exact Z0 | now apply I].
    + destruct (AddRLEs _ _); cbn [outcomeWorld]; [exact Z0 | now apply I].
  - destruct (Surface.notFirst st); [|exact Z0].
    pose proof (computeAndSaveSurface_writes labels w (Surface.curVol st)
                  (Hn eq_refl)) as K.
    destruct (computeAndSaveSurface w (Surface.curVol st)) as [[err|] w1];
      cbn [snd outcomeWorld] in *; [now apply I | exact K].
Qed.

Lemma ComputeSurface_loop_writes (labels : Z -> Prop) ch : forall st w e w',
  (forall c, In (Some c) ch -> labels (Op c)) ->
  Label (Surface.curVol st) = Surface.curLabel st ->
  (Surface.notFirst st = true -> labels (Label (Surface.curVol st))) ->
  ComputeSurface_loop st w ch = (e, w') ->
  exists es, events w' = events w ++ es /\ Forall (surfaceWrite labels) es.
Proof.
  induction ch as [|chunk ch IH]; intros st w e w' Hs Inv Hn;
    cbn [ComputeSurface_loop].
  - intros H; injection H as <- <-. exists []. rewrite app_nil_r. split; constructor.
  - destruct (ComputeSurface_body_labels st w chunk Inv) as (_ & K).
    destruct (ComputeSurface_body_writes labels st w chunk Hn) as (es & E & F).
    destruct (ComputeSurface_body st w chunk) as [st1 w1|e1 w1];
      cbn [outcomeWorld] in E.
    + destruct (K st1 w1 eq_refl) as (c & -> & K1 & K2 & K3).
      intros H.
      destruct (IH st1 w1 e w') as (es' & E' & F'); try assumption.
      * intros c' Hin. apply Hs. now right.
      * congruence.
      * intros _. rewrite K1. apply Hs. now left.
      * exists (es ++ es'). split; [rewrite E', E; symmetry; apply app_assoc|].
        apply Forall_app. now split.
    + intros H; injection H as <- <-. now exists es.
Qed.

Lemma storePuts_events w w' es :
  events w' = events w ++ es ->
  storePuts w' =
  storePuts w ++ flat_map (fun e => match e with EvPut k _ => [k] | _ => [] end) es.
Proof. intros E. unfold storePuts. now rewrite E, flat_map_app. Qed.

Lemma batchPuts_events w w' es :
  events w' = events w ++ es ->
  batchPuts w' =
  batchPuts w ++ flat_map (fun e => match e with EvBatchPut k _ => [k] | _ => [] end) es.
Proof. intros E. unfold batchPuts. now rewrite E, flat_map_app. Qed.

Lemma sizesWrite_keys es :
  Forall sizesWrite es ->
  flat_map (fun e => match e with EvPut k _ => [k] | _ => [] end) es = [] /\
  flat_map (fun e => match e with EvSurface v => [v] | _ => [] end) es = [] /\
  forall k,
    In k (flat_map (fun e => match e with EvBatchPut k _ => [k] | _ => [] end) es) ->
    exists size label, k = NewLabelSizesIndex size label.
Proof.
  induction 1 as [|e es He _ (IH1 & IH2 & IH3)]; cbn [flat_map].
  - repeat split. intros k [].
  - destruct e; cbn [sizesWrite] in He; try contradiction;
      cbn [app]; (split; [exact IH1|]); (split; [exact IH2|]);
      try exact IH3.
    intros k0 [<-|Hin]; [exact He | now apply IH3].
Qed.

Lemma surfaceWrite_keys labels es :
  Forall (surfaceWrite labels) es ->
  flat_map (fun e => match e with EvBatchPut k _ => [k] | _ => [] end) es = [] /\
  filter isCommit es = [] /\
  forall k,
    In k (flat_map (fun e => match e with EvPut k _ => [k] | _ => [] end) es) ->
    exists label, labels label /\ k = NewLabelSurfaceIndex label.
Proof.
  induction 1 as [|e es He _ (IH1 & IH2 & IH3)]; cbn [flat_map filter].
  - repeat split. intros k [].
  - destruct e; cbn [surfaceWrite] in He; try contradiction;
      cbn [app isCommit]; (split; [exact IH1|]); (split; [exact IH2|]);
      try exact IH3.
    intros k0 [<-|Hin]; [exact He | now apply IH3].
Qed.

(** X3.  Each consumer writes under its own keys.  Every key that
    [ComputeSizes] puts goes into a batch and is built by
    [NewLabelSizesIndex]; the function calls neither [store.Put] nor
    [computeAndSaveSurface].  Every key that [ComputeSurface] puts goes to
    [store.Put] and is the key that [NewLabelSurfaceIndex] builds for the
    label of a chunk of the stream; the function neither puts into a batch
    nor commits one.  So, when the tag of the size index is not the tag of
    the surfaces, no key written by one consumer is written by the other,
    whether the two stores are one engine or two. *)
Theorem consumers_write_own_keys : forall w ch,
  exists sizeKeys surfaceKeys,
    (batchPuts (snd (ComputeSizes w ch)) = batchPuts w ++ sizeKeys /\
     storePuts (snd (ComputeSizes w ch)) = storePuts w /\
     finalized (snd (ComputeSizes w ch)) = finalized w /\
     forall k, In k sizeKeys -> exists size label, k = NewLabelSizesIndex size label) /\
    (storePuts (snd (ComputeSurface w ch)) = storePuts w ++ surfaceKeys /\
     batchPuts (snd (ComputeSurface w ch)) = batchPuts w /\
     count isCommit (snd (ComputeSurface w ch)) = count isCommit w /\
     forall k, In k surfaceKeys ->
       exists c, In (Some c) ch /\ k = NewLabelSurfaceIndex (Op c)) /\
    (KeyLabelSizes <> KeyLabelSurface ->
     forall k, In k sizeKeys -> ~ In k surfaceKeys).
Proof.
  intros w ch.
  assert (S : exists es, events (snd (ComputeSizes w ch)) = events w ++ es /\
                         Forall sizesWrite es).
  { unfold ComputeSizes. destruct (batching w).
    - destruct (ComputeSizes_loop Sizes.init w ch) as [e w'] eqn:L.
      destruct (ComputeSizes_loop_writes ch _ _ _ _ L) as (es & E & F).
      destruct e; cbn [snd];
        try (exists (es ++ [EvWgDone]); rewrite events_emit, E, <- app_assoc;
             split; [reflexivity | apply Forall_app; split;
                                   [exact F | repeat constructor]]).
      now exists es.
    - cbn [snd]. rewrite events_emit. eexists. split; [reflexivity|].
      repeat constructor. }
  assert (T : exists es, events (snd (ComputeSurface w ch)) = events w ++ es /\
                Forall (surfaceWrite (fun l => exists c, In (Some c) ch /\ Op c = l)) es).
  { unfold ComputeSurface.
    destruct (ComputeSurface_loop Surface.init w ch) as [e w'] eqn:L.
    destruct (ComputeSurface_loop_writes
                (fun l => exists c, In (Some c) ch /\ Op c = l) ch
                Surface.init w e w') as (es & E & F);
      [ intros c Hin; now exists c | reflexivity | discriminate | exact L | ].
    destruct e; cbn [snd];
      try (exists (es ++ [EvWgDone; EvToken]);
           rewrite !events_emit, E, <- !app_assoc;
           split; [reflexivity | apply Forall_app; split;
                                 [exact F | repeat constructor]]).
    now exists es. }
  destruct S as (es & E & F). destruct T as (es' & E' & F').
  destruct (sizesWrite_keys es F) as (P1 & P2 & P3).
  destruct (surfaceWrite_keys _ es' F') as (Q1 & Q2 & Q3).
  exists (flat_map (fun e => match e with EvBatchPut k _ => [k] | _ => [] end) es),
         (flat_map (fun e => match e with EvPut k _ => [k] | _ => [] end) es').
  split; [|split].
  - rewrite (batchPuts_events _ _ _ E), (storePuts_events _ _ _ E), P1, app_nil_r.
    split; [reflexivity|]. split; [reflexivity|]. split; [|exact P3].
    unfold finalized. now rewrite E, flat_map_app, P2, app_nil_r.
  - rewrite (batchPuts_events _ _ _ E'), (storePuts_events _ _ _ E'), Q1, app_nil_r.
    split; [reflexivity|]. split; [reflexivity|]. split.
    + rewrite (count_events isCommit _ _ _ E'), Q2. unfold len. cbn. lia.
    + intros k Hk. destruct (Q3 k Hk) as (label & (c & Hc & <-) & ->). now exists c.
  - intros Hne k Hk Hk'.
    destruct (P3 k Hk) as (size & label & ->).
    destruct (Q3 _ Hk') as (label' & _ & X).
    unfold NewLabelSizesIndex, NewLabelSurfaceIndex in X. injection X as X _.
    contradiction.
Qed.

End OwnKeys.
